(** * Carbon credit ledger, registry and escrow marketplace

    A shallow embedding of the three Solidity contracts of the repository

    - [CarbonCreditToken]    (src/backend/contracts/CarbonCreditToken.sol),
    - [CarbonCreditRegistry] (src/unnamed/part_003),
    - [CarbonMarketplace]    (src/backend/contracts/CarbonMarketplace.sol),

    together with the properties of the ledger / marketplace settlement
    engine that the specification states about them.

    Conventions.  A [uint256] is a [Z] in [0, 2^256); Solidity 0.8 checked
    arithmetic aborts the call with [Panic 17] on overflow, [unchecked]
    blocks wrap around.  A contract function is a computation in a
    state-and-error monad; a transaction runs such a computation and keeps
    the old state when it aborts.  Storage mappings are finite maps read
    with the Solidity default value for absent keys. *)

From Stdlib Require Import ZArith Lia List String.
From stdpp Require Import gmap strings list fin_maps.

Open Scope Z_scope.

(** ** Machine integers *)

Abbreviation address := N.

Definition MAX_UINT256 : Z := 2 ^ 256 - 1.

Definition is_uint256 (x : Z) : Prop := 0 <= x <= MAX_UINT256.

Definition unchecked_add (a b : Z) : Z := (a + b) mod 2 ^ 256.
Definition unchecked_sub (a b : Z) : Z := (a - b) mod 2 ^ 256.

(** ** Failures and the transaction monad *)

Inductive Error :=
| Revert (reason : string)     (* require(cond, reason) *)
| Custom (name : string)       (* revert SomeCustomError(...) *)
| Panic (code : Z).            (* 0x11 = 17: arithmetic overflow *)

Inductive result (A : Type) :=
| Ok (a : A)
| Err (e : Error).
Arguments Ok {A} a.
Arguments Err {A} e.

Definition is_Err {A} (r : result A) : Prop :=
  match r with Ok _ => False | Err _ => True end.

Definition M (S A : Type) : Type := S -> result (A * S).

Definition ret {S A} (a : A) : M S A := fun s => Ok (a, s).

Definition bind {S A B} (m : M S A) (k : A -> M S B) : M S B :=
  fun s => match m s with
           | Ok (a, s') => k a s'
           | Err e => Err e
           end.

Definition fail {S A} (e : Error) : M S A := fun _ => Err e.
Definition get {S} : M S S := fun s => Ok (s, s).
Definition gets {S A} (f : S -> A) : M S A := fun s => Ok (f s, s).
Definition modify {S} (f : S -> S) : M S unit := fun s => Ok (tt, f s).

(* [x ← m; k] and [m;; k] are stdpp's notations for the two instances. *)
#[global] Instance M_ret {S} : MRet (M S) := fun A => @ret S A.
#[global] Instance M_bind {S} : MBind (M S) := fun A B k m => @bind S A B m k.

Definition require {S} (cond : bool) (reason : string) : M S unit :=
  if cond then ret tt else fail (Revert reason).

Definition revert_if {S} (cond : bool) (name : string) : M S unit :=
  if cond then fail (Custom name) else ret tt.

Definition checked_add {S} (a b : Z) : M S Z :=
  if a + b <=? MAX_UINT256 then ret (a + b) else fail (Panic 17).
Definition checked_sub {S} (a b : Z) : M S Z :=
  if b <=? a then ret (a - b) else fail (Panic 17).
Definition checked_mul {S} (a b : Z) : M S Z :=
  if a * b <=? MAX_UINT256 then ret (a * b) else fail (Panic 17).

(** A transaction either commits the state the call produced or, when the
    call aborts, leaves the state it started from. *)
Definition transact {S A} (m : M S A) (s : S) : S :=
  match m s with
  | Ok (_, s') => s'
  | Err _ => s
  end.

(** The part of the execution environment a call can observe. *)
Record Env := {
  msg_sender : address;
  msg_value : Z;
  block_timestamp : Z;
  (* whether a plain value transfer to an account is accepted by it *)
  accepts : address -> bool
}.

(** ** Sums over storage mappings *)

Definition gsum `{Countable K} (m : gmap K Z) : Z :=
  map_fold (fun _ v acc => v + acc) 0 m.

Definition nonneg_map `{Countable K} (m : gmap K Z) : Prop :=
  forall k v, m !! k = Some v -> 0 <= v.


(** ** The ledger: [CarbonCreditToken] *)

Module Token.

Record CreditMetadata := {
  projectName : string;
  projectType : string;
  location : string;
  vintage : Z;
  timestamp : Z;
  isRetired : bool;
  retiredBy : address;
  retiredAt : Z
}.

(* the value of a [creditMetadata] slot that was never written *)
Definition empty_metadata : CreditMetadata :=
  {| projectName := EmptyString; projectType := EmptyString;
     location := EmptyString; vintage := 0; timestamp := 0;
     isRetired := false; retiredBy := 0%N; retiredAt := 0 |}.

Inductive Event :=
| CreditsMinted (to : address) (amount creditId : Z)
                (projectName projectType : string)
| CreditsRetired (from : address) (amount creditId timestamp : Z).

Record State := {
  (* ERC20 *)
  balances : gmap address Z;
  allowances : gmap (address * address) Z;
  totalSupply : Z;
  (* AccessControl: the holders of MINTER_ROLE *)
  minters : gset address;
  (* ReentrancyGuard: _status == ENTERED *)
  entered : bool;
  (* CarbonCreditToken *)
  creditMetadata : gmap Z CreditMetadata;
  userRetiredCredits : gmap address (list Z);
  projectCredits : gmap string Z;
  nextCreditId : Z;
  totalRetired : Z;
  (* the log of emitted events, oldest first *)
  events : list Event
}.

Definition set_balances (f : gmap address Z -> gmap address Z) (s : State) :=
  {| balances := f (balances s); allowances := allowances s;
     totalSupply := totalSupply s; minters := minters s; entered := entered s;
     creditMetadata := creditMetadata s;
     userRetiredCredits := userRetiredCredits s;
     projectCredits := projectCredits s; nextCreditId := nextCreditId s;
     totalRetired := totalRetired s; events := events s |}.

Definition set_allowances
    (f : gmap (address * address) Z -> gmap (address * address) Z) (s : State) :=
  {| balances := balances s; allowances := f (allowances s);
     totalSupply := totalSupply s; minters := minters s; entered := entered s;
     creditMetadata := creditMetadata s;
     userRetiredCredits := userRetiredCredits s;
     projectCredits := projectCredits s; nextCreditId := nextCreditId s;
     totalRetired := totalRetired s; events := events s |}.

Definition set_totalSupply (v : Z) (s : State) :=
  {| balances := balances s; allowances := allowances s;
     totalSupply := v; minters := minters s; entered := entered s;
     creditMetadata := creditMetadata s;
     userRetiredCredits := userRetiredCredits s;
     projectCredits := projectCredits s; nextCreditId := nextCreditId s;
     totalRetired := totalRetired s; events := events s |}.

Definition set_entered (b : bool) (s : State) :=
  {| balances := balances s; allowances := allowances s;
     totalSupply := totalSupply s; minters := minters s; entered := b;
     creditMetadata := creditMetadata s;
     userRetiredCredits := userRetiredCredits s;
     projectCredits := projectCredits s; nextCreditId := nextCreditId s;
     totalRetired := totalRetired s; events := events s |}.

Definition set_creditMetadata
    (f : gmap Z CreditMetadata -> gmap Z CreditMetadata) (s : State) :=
  {| balances := balances s; allowances := allowances s;
     totalSupply := totalSupply s; minters := minters s; entered := entered s;
     creditMetadata := f (creditMetadata s);
     userRetiredCredits := userRetiredCredits s;
     projectCredits := projectCredits s; nextCreditId := nextCreditId s;
     totalRetired := totalRetired s; events := events s |}.

Definition set_userRetiredCredits
    (f : gmap address (list Z) -> gmap address (list Z)) (s : State) :=
  {| balances := balances s; allowances := allowances s;
     totalSupply := totalSupply s; minters := minters s; entered := entered s;
     creditMetadata := creditMetadata s;
     userRetiredCredits := f (userRetiredCredits s);
     projectCredits := projectCredits s; nextCreditId := nextCreditId s;
     totalRetired := totalRetired s; events := events s |}.

Definition set_projectCredits
    (f : gmap string Z -> gmap string Z) (s : State) :=
  {| balances := balances s; allowances := allowances s;
     totalSupply := totalSupply s; minters := minters s; entered := entered s;
     creditMetadata := creditMetadata s;
     userRetiredCredits := userRetiredCredits s;
     projectCredits := f (projectCredits s); nextCreditId := nextCreditId s;
     totalRetired := totalRetired s; events := events s |}.

Definition set_nextCreditId (v : Z) (s : State) :=
  {| balances := balances s; allowances := allowances s;
     totalSupply := totalSupply s; minters := minters s; entered := entered s;
     creditMetadata := creditMetadata s;
     userRetiredCredits := userRetiredCredits s;
     projectCredits := projectCredits s; nextCreditId := v;
     totalRetired := totalRetired s; events := events s |}.

Definition set_totalRetired (v : Z) (s : State) :=
  {| balances := balances s; allowances := allowances s;
     totalSupply := totalSupply s; minters := minters s; entered := entered s;
     creditMetadata := creditMetadata s;
     userRetiredCredits := userRetiredCredits s;
     projectCredits := projectCredits s; nextCreditId := nextCreditId s;
     totalRetired := v; events := events s |}.

Definition emit (ev : Event) : M State unit :=
  modify (fun s =>
  {| balances := balances s; allowances := allowances s;
     totalSupply := totalSupply s; minters := minters s; entered := entered s;
     creditMetadata := creditMetadata s;
     userRetiredCredits := userRetiredCredits s;
     projectCredits := projectCredits s; nextCreditId := nextCreditId s;
     totalRetired := totalRetired s; events := events s ++ [ev] |}).

(** *** Storage reads *)

Definition balanceOf (s : State) (account : address) : Z :=
  default 0 (balances s !! account).

Definition allowance (s : State) (owner spender : address) : Z :=
  default 0 (allowances s !! (owner, spender)).

Definition metadata (s : State) (creditId : Z) : CreditMetadata :=
  default empty_metadata (creditMetadata s !! creditId).

Definition getProjectCredits (s : State) (name : string) : Z :=
  default 0 (projectCredits s !! name).

Definition getUserRetiredCredits (s : State) (user : address) : list Z :=
  default [] (userRetiredCredits s !! user).

(** *** The base token *)

(** Modelled from the spec: the balance mechanics of the base token standard
    ("generic fungible-transfer mechanics inherited from a base token
    standard").  [CarbonCreditToken] inherits them from the imported
    [ERC20] and [ERC20Burnable] contracts, which are not under src/; the
    definitions from [debit] to [burnFrom] follow that standard
    implementation: the total supply is increased with checked arithmetic,
    balances are moved inside [unchecked] blocks, and the zero address is
    neither a sender nor a receiver.  [debit] is
    [unchecked { _balances[a] = _balances[a] - value; }]. *)
Definition debit (a : address) (value : Z) (b : gmap address Z)
  : gmap address Z :=
  <[a := unchecked_sub (default 0 (b !! a)) value]> b.

(* unchecked { _balances[a] += value; } *)
Definition credit (a : address) (value : Z) (b : gmap address Z)
  : gmap address Z :=
  <[a := unchecked_add (default 0 (b !! a)) value]> b.

Definition _update (from to : address) (value : Z) : M State unit :=
  (if (from =? 0)%N then
     s ← get;
     ts ← checked_add (totalSupply s) value;
     modify (set_totalSupply ts)
   else
     s ← get;
     let fromBalance := balanceOf s from in
     revert_if (fromBalance <? value) "ERC20InsufficientBalance";;
     modify (set_balances (debit from value)));;
  (if (to =? 0)%N then
     s ← get;
     modify (set_totalSupply (unchecked_sub (totalSupply s) value))
   else
     modify (set_balances (credit to value))).

Definition _mint (account : address) (value : Z) : M State unit :=
  revert_if (account =? 0)%N "ERC20InvalidReceiver";;
  _update 0%N account value.

Definition _burn (account : address) (value : Z) : M State unit :=
  revert_if (account =? 0)%N "ERC20InvalidSender";;
  _update account 0%N value.

Definition _transfer (from to : address) (value : Z) : M State unit :=
  revert_if (from =? 0)%N "ERC20InvalidSender";;
  revert_if (to =? 0)%N "ERC20InvalidReceiver";;
  _update from to value.

Definition _approve (owner spender : address) (value : Z) : M State unit :=
  revert_if (owner =? 0)%N "ERC20InvalidApprover";;
  revert_if (spender =? 0)%N "ERC20InvalidSpender";;
  modify (set_allowances <[(owner, spender) := value]>).

Definition _spendAllowance (owner spender : address) (value : Z)
  : M State unit :=
  s ← get;
  let currentAllowance := allowance s owner spender in
  if currentAllowance <? MAX_UINT256 then
    revert_if (currentAllowance <? value) "ERC20InsufficientAllowance";;
    _approve owner spender (unchecked_sub currentAllowance value)
  else ret tt.

Definition transfer (e : Env) (to : address) (value : Z) : M State bool :=
  _transfer (msg_sender e) to value;;
  ret true.

Definition approve (e : Env) (spender : address) (value : Z) : M State bool :=
  _approve (msg_sender e) spender value;;
  ret true.

Definition transferFrom (e : Env) (from to : address) (value : Z)
  : M State bool :=
  _spendAllowance from (msg_sender e) value;;
  _transfer from to value;;
  ret true.

Definition burn (e : Env) (value : Z) : M State unit :=
  _burn (msg_sender e) value.

Definition burnFrom (e : Env) (account : address) (value : Z) : M State unit :=
  _spendAllowance account (msg_sender e) value;;
  _burn account value.

(** *** Modifiers *)

(** Modelled from the spec: the role check of the imported [AccessControl]
    contract, which is not under src/ ("restricted to a Minter
    capability"): a caller that does not hold the role is turned away. *)
Definition onlyMinter {A} (e : Env) (body : M State A) : M State A :=
  s ← get;
  revert_if (negb (bool_decide (msg_sender e ∈ minters s)))
            "AccessControlUnauthorizedAccount";;
  body.

(** Modelled from the spec: the guard of the imported [ReentrancyGuard]
    contract, which is not under src/ ("an explicit per-call
    mutual-exclusion flag acquired at entry, released on every exit
    path"). *)
Definition nonReentrant {A} (body : M State A) : M State A :=
  s ← get;
  revert_if (entered s) "ReentrancyGuardReentrantCall";;
  modify (set_entered true);;
  r ← body;
  modify (set_entered false);;
  ret r.

(** *** [mintCredits] and [retireCredits] *)

Definition mintCredits (e : Env) (to : address) (amount : Z)
    (projectName projectType location : string) (vintage : Z) : M State Z :=
  onlyMinter e (nonReentrant (
    require (0 <? amount) "Amount must be greater than 0";;
    require (0 <? String.length projectName)%nat "Project name required";;
    require (vintage <=? block_timestamp e) "Invalid vintage year";;
    (* uint256 creditId = nextCreditId++; *)
    creditId ← gets nextCreditId;
    next ← checked_add creditId 1;
    modify (set_nextCreditId next);;
    modify (set_creditMetadata <[creditId :=
      {| projectName := projectName; projectType := projectType;
         location := location; vintage := vintage;
         timestamp := block_timestamp e; isRetired := false;
         retiredBy := 0%N; retiredAt := 0 |}]>);;
    (* projectCredits[projectName] += amount; *)
    s ← get;
    total ← checked_add (getProjectCredits s projectName) amount;
    modify (set_projectCredits <[projectName := total]>);;
    _mint to amount;;
    emit (CreditsMinted to amount creditId projectName projectType);;
    ret creditId)).

Definition mark_retired (by_ : address) (at_ : Z) (m : CreditMetadata)
  : CreditMetadata :=
  {| projectName := projectName m; projectType := projectType m;
     location := location m; vintage := vintage m; timestamp := timestamp m;
     isRetired := true; retiredBy := by_; retiredAt := at_ |}.

Definition retireCredits (e : Env) (amount creditId : Z) : M State unit :=
  nonReentrant (
    s ← get;
    require (amount <=? balanceOf s (msg_sender e)) "Insufficient balance";;
    require (creditId <? nextCreditId s) "Invalid credit ID";;
    require (negb (isRetired (metadata s creditId))) "Credits already retired";;
    modify (set_creditMetadata <[creditId :=
      mark_retired (msg_sender e) (block_timestamp e) (metadata s creditId)]>);;
    modify (set_userRetiredCredits <[msg_sender e :=
      getUserRetiredCredits s (msg_sender e) ++ [creditId]]>);;
    total ← checked_add (totalRetired s) amount;
    modify (set_totalRetired total);;
    _burn (msg_sender e) amount;;
    emit (CreditsRetired (msg_sender e) amount creditId (block_timestamp e))).

Definition getCreditMetadata (s : State) (creditId : Z)
  : result CreditMetadata :=
  if creditId <? nextCreditId s then Ok (metadata s creditId)
  else Err (Revert "Invalid credit ID").

(** *** Transactions on the ledger *)

Inductive Call :=
| MintCredits (to : address) (amount : Z)
              (projectName projectType location : string) (vintage : Z)
| RetireCredits (amount creditId : Z)
| Transfer (to : address) (value : Z)
| TransferFrom (from to : address) (value : Z)
| Approve (spender : address) (value : Z)
| Burn (value : Z)
| BurnFrom (account : address) (value : Z).

Definition exec (e : Env) (c : Call) : M State unit :=
  match c with
  | MintCredits to amount pn pt loc v =>
      mintCredits e to amount pn pt loc v;; ret tt
  | RetireCredits amount creditId => retireCredits e amount creditId
  | Transfer to v => transfer e to v;; ret tt
  | TransferFrom from to v => transferFrom e from to v;; ret tt
  | Approve spender v => approve e spender v;; ret tt
  | Burn v => burn e v
  | BurnFrom account v => burnFrom e account v
  end.

Definition uint256b (x : Z) : bool := (0 <=? x) && (x <=? MAX_UINT256).

(* the arguments are ABI-encodable: every number is a uint256 *)
Definition valid_call (e : Env) (c : Call) : bool :=
  uint256b (block_timestamp e) &&
  match c with
  | MintCredits _ amount _ _ _ v => uint256b amount && uint256b v
  | RetireCredits amount creditId => uint256b amount && uint256b creditId
  | Transfer _ v | TransferFrom _ _ v | Approve _ v
  | Burn v | BurnFrom _ v => uint256b v
  end.

(* the operations of the ledger proper: issuance, retirement and balance
   transfers (the inherited [burn] entry points are the other two) *)
Definition ledger_call (c : Call) : bool :=
  match c with
  | Burn _ | BurnFrom _ _ => false
  | _ => true
  end.

Definition step (e : Env) (c : Call) (s : State) : State :=
  transact (exec e c) s.

Definition run (tr : list (Env * Call)) (s : State) : State :=
  fold_left (fun s ec => step ec.1 ec.2 s) tr s.

(* the state the constructor leaves *)
Definition init (deployer : address) : State :=
  {| balances := ∅; allowances := ∅; totalSupply := 0;
     minters := {[deployer]}; entered := false;
     creditMetadata := ∅; userRetiredCredits := ∅; projectCredits := ∅;
     nextCreditId := 0; totalRetired := 0; events := [] |}.

Inductive reachable (deployer : address) : State -> Prop :=
| reach_init : reachable deployer (init deployer)
| reach_step s e c :
    reachable deployer s -> valid_call e c = true ->
    reachable deployer (step e c s).

Inductive ledger_reachable (deployer : address) : State -> Prop :=
| lreach_init : ledger_reachable deployer (init deployer)
| lreach_step s e c :
    ledger_reachable deployer s -> valid_call e c = true ->
    ledger_call c = true ->
    ledger_reachable deployer (step e c s).

(** *** The history of a retirement flag along a run *)

Fixpoint flag_history (creditId : Z) (tr : list (Env * Call)) (s : State)
  : list bool :=
  isRetired (metadata s creditId) ::
  match tr with
  | [] => []
  | ec :: tr' => flag_history creditId tr' (step ec.1 ec.2 s)
  end.

(* how often a flag goes from unset to set *)
Fixpoint rises (l : list bool) : nat :=
  match l with
  | [] => 0%nat
  | b :: l' =>
      match b, l' with
      | false, true :: _ => S (rises l')
      | _, _ => rises l'
      end
  end.

Definition valid_trace (tr : list (Env * Call)) : Prop :=
  Forall (fun ec => valid_call ec.1 ec.2 = true) tr.

(** *** Quantities of the conservation law *)

Definition sum_balances (s : State) : Z := gsum (balances s).

Definition minted_amount (ev : Event) : Z :=
  match ev with
  | CreditsMinted _ amount _ _ _ => amount
  | CreditsRetired _ _ _ _ => 0
  end.

(* the sum of all amounts ever minted, read off the issuance records *)
Definition total_minted (s : State) : Z :=
  fold_right (fun ev acc => minted_amount ev + acc) 0 (events s).

(** *** A small scenario

    The deployer (account 1) mints 10 units to account 2 as credit 0, and
    account 2 retires 5 units against credit 0. *)

Definition env_of (sender : address) : Env :=
  {| msg_sender := sender; msg_value := 0; block_timestamp := 1700000000;
     accepts := fun _ => true |}.

Definition scenario : list (Env * Call) :=
  [ (env_of 1, MintCredits 2 10 "ProjectX" "Forestry" "BR" 1600000000);
    (env_of 2, RetireCredits 5 0) ].

Definition after_scenario : State := run scenario (init 1).

(** *** Further views and quantities *)

(* [function isRetired(uint256 creditId)]; the field of the metadata record
   has the plain name *)
Definition isRetired' (s : State) (creditId : Z) : result bool :=
  if creditId <? nextCreditId s then Ok (isRetired (metadata s creditId))
  else Err (Revert "Invalid credit ID").

Definition retired_amount (ev : Event) : Z :=
  match ev with
  | CreditsMinted _ _ _ _ _ => 0
  | CreditsRetired _ amount _ _ => amount
  end.

(* the sum of all amounts ever retired, read off the retirement records *)
Definition total_retired_logged (s : State) : Z :=
  fold_right (fun ev acc => retired_amount ev + acc) 0 (events s).

Definition is_mint (ev : Event) : bool :=
  match ev with
  | CreditsMinted _ _ _ _ _ => true
  | CreditsRetired _ _ _ _ => false
  end.

(* the number of issuances so far *)
Definition mint_count (s : State) : Z :=
  Z.of_nat (length (filter (fun ev => is_mint ev = true) (events s))).

(* the descriptive part of a credit's metadata, which issuance fixes *)
Definition description (m : CreditMetadata)
  : string * string * string * Z * Z :=
  (projectName m, projectType m, location m, vintage m, timestamp m).

(* the state of the scenario after its first step, the issuance *)
Definition after_issuance : State :=
  step (env_of 1) (MintCredits 2 10 "ProjectX" "Forestry" "BR" 1600000000)
       (init 1).

End Token.


(** ** The registry: [CarbonCreditRegistry] *)

Module Registry.

Module Project.
Record t := {
  name : string;
  projectType : string;
  location : string;
  owner : address;
  registeredAt : Z;
  isVerified : bool;
  isActive : bool;
  totalCreditsIssued : Z;
  metadataURI : string
}.

(* the value of a [projects] slot that was never written *)
Definition empty : t :=
  {| name := EmptyString; projectType := EmptyString;
     location := EmptyString; owner := 0%N; registeredAt := 0;
     isVerified := false; isActive := false; totalCreditsIssued := 0;
     metadataURI := EmptyString |}.

Definition set_isVerified (b : bool) (p : t) : t :=
  {| name := name p; projectType := projectType p; location := location p;
     owner := owner p; registeredAt := registeredAt p; isVerified := b;
     isActive := isActive p; totalCreditsIssued := totalCreditsIssued p;
     metadataURI := metadataURI p |}.

Definition set_isActive (b : bool) (p : t) : t :=
  {| name := name p; projectType := projectType p; location := location p;
     owner := owner p; registeredAt := registeredAt p;
     isVerified := isVerified p; isActive := b;
     totalCreditsIssued := totalCreditsIssued p;
     metadataURI := metadataURI p |}.

Definition set_totalCreditsIssued (v : Z) (p : t) : t :=
  {| name := name p; projectType := projectType p; location := location p;
     owner := owner p; registeredAt := registeredAt p;
     isVerified := isVerified p; isActive := isActive p;
     totalCreditsIssued := v; metadataURI := metadataURI p |}.
End Project.

Module Issuer.
Record t := {
  name : string;
  issuerAddress : address;
  isVerified : bool;
  isActive : bool;
  registeredAt : Z;
  projectsRegistered : Z
}.

(* the value of an [issuers] slot that was never written *)
Definition empty : t :=
  {| name := EmptyString; issuerAddress := 0%N; isVerified := false;
     isActive := false; registeredAt := 0; projectsRegistered := 0 |}.

Definition set_isVerified (b : bool) (i : t) : t :=
  {| name := name i; issuerAddress := issuerAddress i; isVerified := b;
     isActive := isActive i; registeredAt := registeredAt i;
     projectsRegistered := projectsRegistered i |}.

Definition set_projectsRegistered (v : Z) (i : t) : t :=
  {| name := name i; issuerAddress := issuerAddress i;
     isVerified := isVerified i; isActive := isActive i;
     registeredAt := registeredAt i; projectsRegistered := v |}.
End Issuer.

Inductive Event :=
| ProjectRegistered (projectId : Z) (name : string) (owner : address)
| ProjectVerified (projectId : Z) (verifier : address)
| ProjectDeactivated (projectId : Z)
| IssuerRegistered (issuer : address) (name : string)
| IssuerVerified (issuer : address)
| CreditsIssued (projectId amount : Z).

Record State := {
  (* AccessControl: the holders of ADMIN_ROLE and of VERIFIER_ROLE *)
  admins : gset address;
  verifiers : gset address;
  (* CarbonCreditRegistry *)
  projects : gmap Z Project.t;
  issuers : gmap address Issuer.t;
  issuerProjects : gmap address (list Z);
  isRegisteredIssuer : gmap address bool;
  nextProjectId : Z;
  totalProjects : Z;
  totalVerifiedProjects : Z;
  (* the log of emitted events, oldest first *)
  events : list Event
}.

Definition set_projects (f : gmap Z Project.t -> gmap Z Project.t)
    (s : State) :=
  {| admins := admins s; verifiers := verifiers s;
     projects := f (projects s); issuers := issuers s;
     issuerProjects := issuerProjects s;
     isRegisteredIssuer := isRegisteredIssuer s;
     nextProjectId := nextProjectId s; totalProjects := totalProjects s;
     totalVerifiedProjects := totalVerifiedProjects s; events := events s |}.

Definition set_issuers (f : gmap address Issuer.t -> gmap address Issuer.t)
    (s : State) :=
  {| admins := admins s; verifiers := verifiers s;
     projects := projects s; issuers := f (issuers s);
     issuerProjects := issuerProjects s;
     isRegisteredIssuer := isRegisteredIssuer s;
     nextProjectId := nextProjectId s; totalProjects := totalProjects s;
     totalVerifiedProjects := totalVerifiedProjects s; events := events s |}.

Definition set_issuerProjects
    (f : gmap address (list Z) -> gmap address (list Z)) (s : State) :=
  {| admins := admins s; verifiers := verifiers s;
     projects := projects s; issuers := issuers s;
     issuerProjects := f (issuerProjects s);
     isRegisteredIssuer := isRegisteredIssuer s;
     nextProjectId := nextProjectId s; totalProjects := totalProjects s;
     totalVerifiedProjects := totalVerifiedProjects s; events := events s |}.

Definition set_isRegisteredIssuer
    (f : gmap address bool -> gmap address bool) (s : State) :=
  {| admins := admins s; verifiers := verifiers s;
     projects := projects s; issuers := issuers s;
     issuerProjects := issuerProjects s;
     isRegisteredIssuer := f (isRegisteredIssuer s);
     nextProjectId := nextProjectId s; totalProjects := totalProjects s;
     totalVerifiedProjects := totalVerifiedProjects s; events := events s |}.

Definition set_nextProjectId (v : Z) (s : State) :=
  {| admins := admins s; verifiers := verifiers s;
     projects := projects s; issuers := issuers s;
     issuerProjects := issuerProjects s;
     isRegisteredIssuer := isRegisteredIssuer s;
     nextProjectId := v; totalProjects := totalProjects s;
     totalVerifiedProjects := totalVerifiedProjects s; events := events s |}.

Definition set_totalProjects (v : Z) (s : State) :=
  {| admins := admins s; verifiers := verifiers s;
     projects := projects s; issuers := issuers s;
     issuerProjects := issuerProjects s;
     isRegisteredIssuer := isRegisteredIssuer s;
     nextProjectId := nextProjectId s; totalProjects := v;
     totalVerifiedProjects := totalVerifiedProjects s; events := events s |}.

Definition set_totalVerifiedProjects (v : Z) (s : State) :=
  {| admins := admins s; verifiers := verifiers s;
     projects := projects s; issuers := issuers s;
     issuerProjects := issuerProjects s;
     isRegisteredIssuer := isRegisteredIssuer s;
     nextProjectId := nextProjectId s; totalProjects := totalProjects s;
     totalVerifiedProjects := v; events := events s |}.

(* appends one record to the event log and touches nothing else *)
Definition log (ev : Event) (s : State) : State :=
  {| admins := admins s; verifiers := verifiers s;
     projects := projects s; issuers := issuers s;
     issuerProjects := issuerProjects s;
     isRegisteredIssuer := isRegisteredIssuer s;
     nextProjectId := nextProjectId s; totalProjects := totalProjects s;
     totalVerifiedProjects := totalVerifiedProjects s;
     events := events s ++ [ev] |}.

Definition emit (ev : Event) : M State unit := modify (log ev).

(** *** Storage reads *)

Definition project (s : State) (projectId : Z) : Project.t :=
  default Project.empty (projects s !! projectId).

Definition issuer (s : State) (a : address) : Issuer.t :=
  default Issuer.empty (issuers s !! a).

Definition registered (s : State) (a : address) : bool :=
  default false (isRegisteredIssuer s !! a).

Definition projectsOf (s : State) (a : address) : list Z :=
  default [] (issuerProjects s !! a).

(** *** Modifiers *)

(** Modelled from the spec: the role checks of the imported
    [AccessControl] contract, which is not under src/ ("capability sets
    (Admin, Verifier)"): a caller that does not hold the role is turned
    away. *)
Definition onlyVerifier {A} (e : Env) (body : M State A) : M State A :=
  s ← get;
  revert_if (negb (bool_decide (msg_sender e ∈ verifiers s)))
            "AccessControlUnauthorizedAccount";;
  body.

Definition onlyAdmin {A} (e : Env) (body : M State A) : M State A :=
  s ← get;
  revert_if (negb (bool_decide (msg_sender e ∈ admins s)))
            "AccessControlUnauthorizedAccount";;
  body.

(** *** The operations *)

Definition registerIssuer (e : Env) (name : string) : M State unit :=
  s ← get;
  require (negb (registered s (msg_sender e))) "Already registered";;
  require (0 <? String.length name)%nat "Name required";;
  modify (set_issuers <[msg_sender e :=
    {| Issuer.name := name; Issuer.issuerAddress := msg_sender e;
       Issuer.isVerified := false; Issuer.isActive := true;
       Issuer.registeredAt := block_timestamp e;
       Issuer.projectsRegistered := 0 |}]>);;
  modify (set_isRegisteredIssuer <[msg_sender e := true]>);;
  emit (IssuerRegistered (msg_sender e) name).

Definition verifyIssuer (e : Env) (issuerAddress : address) : M State unit :=
  onlyVerifier e (
    s ← get;
    require (registered s issuerAddress) "Issuer not registered";;
    modify (set_issuers <[issuerAddress :=
      Issuer.set_isVerified true (issuer s issuerAddress)]>);;
    emit (IssuerVerified issuerAddress)).

Definition registerProject (e : Env)
    (name projectType location metadataURI : string) : M State Z :=
  s ← get;
  require (registered s (msg_sender e)) "Not a registered issuer";;
  require (Issuer.isActive (issuer s (msg_sender e))) "Issuer not active";;
  require (0 <? String.length name)%nat "Name required";;
  (* uint256 projectId = nextProjectId++; *)
  let projectId := nextProjectId s in
  next ← checked_add projectId 1;
  modify (set_nextProjectId next);;
  modify (set_projects <[projectId :=
    {| Project.name := name; Project.projectType := projectType;
       Project.location := location; Project.owner := msg_sender e;
       Project.registeredAt := block_timestamp e;
       Project.isVerified := false; Project.isActive := true;
       Project.totalCreditsIssued := 0;
       Project.metadataURI := metadataURI |}]>);;
  modify (set_issuerProjects <[msg_sender e :=
    projectsOf s (msg_sender e) ++ [projectId]]>);;
  (* issuers[msg.sender].projectsRegistered++; *)
  n ← checked_add (Issuer.projectsRegistered (issuer s (msg_sender e))) 1;
  modify (set_issuers <[msg_sender e :=
    Issuer.set_projectsRegistered n (issuer s (msg_sender e))]>);;
  total ← checked_add (totalProjects s) 1;
  modify (set_totalProjects total);;
  emit (ProjectRegistered projectId name (msg_sender e));;
  ret projectId.

Definition verifyProject (e : Env) (projectId : Z) : M State unit :=
  onlyVerifier e (
    s ← get;
    require (projectId <? nextProjectId s) "Invalid project ID";;
    require (negb (Project.isVerified (project s projectId)))
            "Already verified";;
    modify (set_projects <[projectId :=
      Project.set_isVerified true (project s projectId)]>);;
    total ← checked_add (totalVerifiedProjects s) 1;
    modify (set_totalVerifiedProjects total);;
    emit (ProjectVerified projectId (msg_sender e))).

Definition recordCreditsIssued (e : Env) (projectId amount : Z)
  : M State unit :=
  onlyAdmin e (
    s ← get;
    require (projectId <? nextProjectId s) "Invalid project ID";;
    require (Project.isActive (project s projectId)) "Project not active";;
    total ← checked_add (Project.totalCreditsIssued (project s projectId))
                        amount;
    modify (set_projects <[projectId :=
      Project.set_totalCreditsIssued total (project s projectId)]>);;
    emit (CreditsIssued projectId amount)).

Definition deactivateProject (e : Env) (projectId : Z) : M State unit :=
  onlyAdmin e (
    s ← get;
    require (projectId <? nextProjectId s) "Invalid project ID";;
    modify (set_projects <[projectId :=
      Project.set_isActive false (project s projectId)]>);;
    emit (ProjectDeactivated projectId)).

Definition getProject (s : State) (projectId : Z) : result Project.t :=
  if projectId <? nextProjectId s then Ok (project s projectId)
  else Err (Revert "Invalid project ID").

Definition isProjectVerified (s : State) (projectId : Z) : result bool :=
  if projectId <? nextProjectId s
  then Ok (Project.isVerified (project s projectId))
  else Err (Revert "Invalid project ID").

(** *** Transactions on the registry *)

Inductive Call :=
| RegisterIssuer (name : string)
| VerifyIssuer (issuerAddress : address)
| RegisterProject (name projectType location metadataURI : string)
| VerifyProject (projectId : Z)
| RecordCreditsIssued (projectId amount : Z)
| DeactivateProject (projectId : Z).

Definition exec (e : Env) (c : Call) : M State unit :=
  match c with
  | RegisterIssuer name => registerIssuer e name
  | VerifyIssuer a => verifyIssuer e a
  | RegisterProject n t l u => registerProject e n t l u;; ret tt
  | VerifyProject projectId => verifyProject e projectId
  | RecordCreditsIssued projectId amount =>
      recordCreditsIssued e projectId amount
  | DeactivateProject projectId => deactivateProject e projectId
  end.

Definition step (e : Env) (c : Call) (s : State) : State :=
  transact (exec e c) s.

(* the state the constructor leaves *)
Definition init (deployer : address) : State :=
  {| admins := {[deployer]}; verifiers := {[deployer]};
     projects := ∅; issuers := ∅; issuerProjects := ∅;
     isRegisteredIssuer := ∅; nextProjectId := 0; totalProjects := 0;
     totalVerifiedProjects := 0; events := [] |}.

Inductive reachable (deployer : address) : State -> Prop :=
| reach_init : reachable deployer (init deployer)
| reach_step s e c :
    reachable deployer s -> reachable deployer (step e c s).

(* the number of projects whose verified flag is set *)
Definition verified_count (s : State) : Z :=
  gsum ((fun p => if Project.isVerified p then 1 else 0) <$> projects s).

(** *** A small scenario

    Account 2 registers as an issuer and registers project 0; the deployer
    (account 1, a verifier) verifies both the issuer and the project. *)

Definition env_of (sender : address) : Env :=
  {| msg_sender := sender; msg_value := 0; block_timestamp := 1700000000;
     accepts := fun _ => true |}.

Definition after_scenario : State :=
  step (env_of 1) (VerifyProject 0)
    (step (env_of 1) (VerifyIssuer 2)
       (step (env_of 2)
          (RegisterProject "ProjectX" "Forestry" "BR" "ipfs://x")
          (step (env_of 2) (RegisterIssuer "Issuer") (init 1)))).

(** *** Further views and quantities *)

Definition getIssuerProjects (s : State) (issuer : address) : list Z :=
  projectsOf s issuer.

(* the arguments are ABI-encodable: every number is a uint256 *)
Definition valid_call (e : Env) (c : Call) : bool :=
  Token.uint256b (block_timestamp e) &&
  match c with
  | VerifyProject projectId | DeactivateProject projectId =>
      Token.uint256b projectId
  | RecordCreditsIssued projectId amount =>
      Token.uint256b projectId && Token.uint256b amount
  | RegisterIssuer _ | VerifyIssuer _ | RegisterProject _ _ _ _ => true
  end.

(* the states reached by transactions with ABI-encodable arguments *)
Inductive abi_reachable (deployer : address) : State -> Prop :=
| areach_init : abi_reachable deployer (init deployer)
| areach_step s e c :
    abi_reachable deployer s -> valid_call e c = true ->
    abi_reachable deployer (step e c s).

Definition run (tr : list (Env * Call)) (s : State) : State :=
  fold_left (fun s ec => step ec.1 ec.2 s) tr s.

Definition valid_trace (tr : list (Env * Call)) : Prop :=
  Forall (fun ec => valid_call ec.1 ec.2 = true) tr.

(* the number of projects whose verified flag is not set *)
Definition unverified_count (s : State) : Z :=
  gsum ((fun p => if Project.isVerified p then 0 else 1) <$> projects s).

Definition issued_amount (projectId : Z) (ev : Event) : Z :=
  match ev with
  | CreditsIssued id amount => if decide (id = projectId) then amount else 0
  | _ => 0
  end.

(* the sum of the amounts recorded for a project, read off the log *)
Definition total_issued_logged (s : State) (projectId : Z) : Z :=
  fold_right (fun ev acc => issued_amount projectId ev + acc) 0 (events s).

(* what registration fixes of a project and of an issuer *)
Definition project_description (p : Project.t)
  : string * string * string * address * Z * string :=
  (Project.name p, Project.projectType p, Project.location p,
   Project.owner p, Project.registeredAt p, Project.metadataURI p).

Definition issuer_description (i : Issuer.t) : string * address * Z :=
  (Issuer.name i, Issuer.issuerAddress i, Issuer.registeredAt i).

(* the scenario before the two verifications *)
Definition after_registration : State :=
  step (env_of 2) (RegisterProject "ProjectX" "Forestry" "BR" "ipfs://x")
    (step (env_of 2) (RegisterIssuer "Issuer") (init 1)).

(* ... and after the admin recorded two issuances for project 0, and then
   deactivated it *)
Definition after_recording : State :=
  step (env_of 1) (RecordCreditsIssued 0 50)
    (step (env_of 1) (RecordCreditsIssued 0 100) after_scenario).

Definition after_deactivation : State :=
  step (env_of 1) (DeactivateProject 0) after_recording.

End Registry.


(** ** The marketplace: [CarbonMarketplace] *)

Module Marketplace.

Module Listing.
Record t := {
  seller : address;
  amount : Z;
  pricePerCredit : Z;   (* price in wei per credit *)
  isActive : bool;
  createdAt : Z;
  creditId : Z;
  projectName : string
}.

(* the value of a [listings] slot that was never written *)
Definition empty : t :=
  {| seller := 0%N; amount := 0; pricePerCredit := 0; isActive := false;
     createdAt := 0; creditId := 0; projectName := EmptyString |}.

Definition set_amount (v : Z) (l : t) : t :=
  {| seller := seller l; amount := v; pricePerCredit := pricePerCredit l;
     isActive := isActive l; createdAt := createdAt l;
     creditId := creditId l; projectName := projectName l |}.

Definition set_pricePerCredit (v : Z) (l : t) : t :=
  {| seller := seller l; amount := amount l; pricePerCredit := v;
     isActive := isActive l; createdAt := createdAt l;
     creditId := creditId l; projectName := projectName l |}.

Definition set_isActive (b : bool) (l : t) : t :=
  {| seller := seller l; amount := amount l;
     pricePerCredit := pricePerCredit l; isActive := b;
     createdAt := createdAt l; creditId := creditId l;
     projectName := projectName l |}.
End Listing.

Module Trade.
Record t := {
  listingId : Z;
  buyer : address;
  seller : address;
  amount : Z;
  totalPrice : Z;
  timestamp : Z
}.
End Trade.

Inductive Event :=
| ListingCreated (listingId : Z) (seller : address)
                 (amount pricePerCredit creditId : Z)
| ListingSold (listingId : Z) (buyer seller : address) (amount totalPrice : Z)
| ListingCancelled (listingId : Z) (seller : address)
| ListingUpdated (listingId newAmount newPrice : Z)
| PlatformFeeUpdated (oldFee newFee : Z).

(** The storage of the contract. *)
Record Storage := {
  owner : address;       (* Ownable *)
  entered : bool;        (* ReentrancyGuard: _status == ENTERED *)
  listings : gmap Z Listing.t;
  userListings : gmap address (list Z);
  userTrades : gmap address (list Trade.t);
  nextListingId : Z;
  platformFee : Z;
  totalVolume : Z;
  totalTrades : Z;
  events : list Event    (* the log of emitted events, oldest first *)
}.

(** A value transfer [payable(recipient).call{value: sent}("")] made by the
    contract, with the storage of the marketplace and the state of the
    ledger at the moment control passes to the recipient. *)
Record ExtCall := {
  recipient : address;
  sent : Z;
  seen : Storage;
  seen_token : Token.State
}.

(** The contract in its environment: its own address, its storage, the
    ledger it trades ([carbonToken]), the value it holds
    ([address(this).balance]) and the value transfers it has made. *)
Record World := {
  this : address;
  store : Storage;
  carbonToken : Token.State;
  balance : Z;
  calls : list ExtCall
}.

Definition set_entered (b : bool) (s : Storage) :=
  {| owner := owner s; entered := b; listings := listings s;
     userListings := userListings s; userTrades := userTrades s;
     nextListingId := nextListingId s; platformFee := platformFee s;
     totalVolume := totalVolume s; totalTrades := totalTrades s;
     events := events s |}.

Definition set_listings (f : gmap Z Listing.t -> gmap Z Listing.t)
    (s : Storage) :=
  {| owner := owner s; entered := entered s; listings := f (listings s);
     userListings := userListings s; userTrades := userTrades s;
     nextListingId := nextListingId s; platformFee := platformFee s;
     totalVolume := totalVolume s; totalTrades := totalTrades s;
     events := events s |}.

Definition set_userListings
    (f : gmap address (list Z) -> gmap address (list Z)) (s : Storage) :=
  {| owner := owner s; entered := entered s; listings := listings s;
     userListings := f (userListings s); userTrades := userTrades s;
     nextListingId := nextListingId s; platformFee := platformFee s;
     totalVolume := totalVolume s; totalTrades := totalTrades s;
     events := events s |}.

Definition set_userTrades
    (f : gmap address (list Trade.t) -> gmap address (list Trade.t))
    (s : Storage) :=
  {| owner := owner s; entered := entered s; listings := listings s;
     userListings := userListings s; userTrades := f (userTrades s);
     nextListingId := nextListingId s; platformFee := platformFee s;
     totalVolume := totalVolume s; totalTrades := totalTrades s;
     events := events s |}.

Definition set_nextListingId (v : Z) (s : Storage) :=
  {| owner := owner s; entered := entered s; listings := listings s;
     userListings := userListings s; userTrades := userTrades s;
     nextListingId := v; platformFee := platformFee s;
     totalVolume := totalVolume s; totalTrades := totalTrades s;
     events := events s |}.

Definition set_platformFee (v : Z) (s : Storage) :=
  {| owner := owner s; entered := entered s; listings := listings s;
     userListings := userListings s; userTrades := userTrades s;
     nextListingId := nextListingId s; platformFee := v;
     totalVolume := totalVolume s; totalTrades := totalTrades s;
     events := events s |}.

Definition set_totalVolume (v : Z) (s : Storage) :=
  {| owner := owner s; entered := entered s; listings := listings s;
     userListings := userListings s; userTrades := userTrades s;
     nextListingId := nextListingId s; platformFee := platformFee s;
     totalVolume := v; totalTrades := totalTrades s;
     events := events s |}.

Definition set_totalTrades (v : Z) (s : Storage) :=
  {| owner := owner s; entered := entered s; listings := listings s;
     userListings := userListings s; userTrades := userTrades s;
     nextListingId := nextListingId s; platformFee := platformFee s;
     totalVolume := totalVolume s; totalTrades := v;
     events := events s |}.

(* appends one record to the event log and touches nothing else *)
Definition log (ev : Event) (s : Storage) :=
  {| owner := owner s; entered := entered s; listings := listings s;
     userListings := userListings s; userTrades := userTrades s;
     nextListingId := nextListingId s; platformFee := platformFee s;
     totalVolume := totalVolume s; totalTrades := totalTrades s;
     events := events s ++ [ev] |}.

Definition on_store (f : Storage -> Storage) (w : World) : World :=
  {| this := this w; store := f (store w); carbonToken := carbonToken w;
     balance := balance w; calls := calls w |}.

Definition set_carbonToken (t : Token.State) (w : World) : World :=
  {| this := this w; store := store w; carbonToken := t;
     balance := balance w; calls := calls w |}.

Definition set_balance (v : Z) (w : World) : World :=
  {| this := this w; store := store w; carbonToken := carbonToken w;
     balance := v; calls := calls w |}.

Definition log_call (c : ExtCall) (w : World) : World :=
  {| this := this w; store := store w; carbonToken := carbonToken w;
     balance := balance w; calls := calls w ++ [c] |}.

Definition emit (ev : Event) : M World unit := modify (on_store (log ev)).

(** *** Storage reads *)

Definition listing (w : World) (listingId : Z) : Listing.t :=
  default Listing.empty (listings (store w) !! listingId).

Definition getUserListings (w : World) (user : address) : list Z :=
  default [] (userListings (store w) !! user).

Definition getUserTrades (w : World) (user : address) : list Trade.t :=
  default [] (userTrades (store w) !! user).

Definition getMarketplaceStats (w : World) : Z * Z * Z * Z :=
  (nextListingId (store w), totalVolume (store w), totalTrades (store w),
   platformFee (store w)).

(** *** Modifiers and calls out of the contract *)

(** Modelled from the spec: the owner check of the imported [Ownable]
    contract, which is not under src/ ("Admin-only"): a caller other than
    the owner is turned away. *)
Definition onlyOwner {A} (e : Env) (body : M World A) : M World A :=
  w ← get;
  revert_if (negb (msg_sender e =? owner (store w))%N)
            "OwnableUnauthorizedAccount";;
  body.

(** Modelled from the spec: the guard of the imported [ReentrancyGuard]
    contract, which is not under src/ ("an explicit per-call
    mutual-exclusion flag acquired at entry, released on every exit
    path"). *)
Definition nonReentrant {A} (body : M World A) : M World A :=
  w ← get;
  revert_if (entered (store w)) "ReentrancyGuardReentrantCall";;
  modify (on_store (set_entered true));;
  r ← body;
  modify (on_store (set_entered false));;
  ret r.

(* a payable entry point is credited with the value sent along *)
Definition payable {A} (e : Env) (body : M World A) : M World A :=
  w ← get;
  modify (set_balance (balance w + msg_value e));;
  body.

(* a call of the ledger by the contract: the ledger sees the contract as
   the sender, and an abort of the ledger aborts the caller *)
Definition token_call {A} (e : Env) (f : Env -> M Token.State A) : M World A :=
  fun w =>
    match f {| msg_sender := this w; msg_value := 0;
               block_timestamp := block_timestamp e;
               accepts := accepts e |} (carbonToken w) with
    | Ok (a, t) => Ok (a, set_carbonToken t w)
    | Err err => Err err
    end.

(* [payable(to).call{value: v}("")]: control passes to the recipient, which
   accepts or rejects the transfer; the result is the [success] flag.  What
   the recipient finds when it is called is recorded in [calls].  What the
   recipient does while it has control is not run here: it may call the
   ledger and the entry points of the marketplace, of which
   [updateListingPrice], [updatePlatformFee] and [withdrawFees] carry no
   lock.  So of a call that sends value, the state it returns is the state
   the function itself produces; the statements about [buyCredits] and
   [withdrawFees] are about what these functions read, write and send, and
   about the fields the lock protects. *)
Definition send_value (e : Env) (to : address) (v : Z) : M World bool :=
  w ← get;
  modify (log_call {| recipient := to; sent := v; seen := store w;
                      seen_token := carbonToken w |});;
  if accepts e to && (v <=? balance w) then
    modify (set_balance (balance w - v));;
    ret true
  else ret false.

(** *** The operations *)

Definition createListing (e : Env) (amount pricePerCredit creditId : Z)
    (projectName : string) : M World Z :=
  nonReentrant (
    require (0 <? amount) "Amount must be greater than 0";;
    require (0 <? pricePerCredit) "Price must be greater than 0";;
    w ← get;
    require (amount <=? Token.balanceOf (carbonToken w) (msg_sender e))
            "Insufficient token balance";;
    (* transfer tokens to marketplace *)
    ok ← token_call e (fun te =>
           Token.transferFrom te (msg_sender e) (this w) amount);
    require ok "Token transfer failed";;
    (* uint256 listingId = nextListingId++; *)
    listingId ← gets (fun w => nextListingId (store w));
    next ← checked_add listingId 1;
    modify (on_store (set_nextListingId next));;
    modify (on_store (set_listings <[listingId :=
      {| Listing.seller := msg_sender e; Listing.amount := amount;
         Listing.pricePerCredit := pricePerCredit;
         Listing.isActive := true;
         Listing.createdAt := block_timestamp e;
         Listing.creditId := creditId;
         Listing.projectName := projectName |}]>));;
    w ← get;
    modify (on_store (set_userListings <[msg_sender e :=
      getUserListings w (msg_sender e) ++ [listingId]]>));;
    emit (ListingCreated listingId (msg_sender e) amount pricePerCredit
                         creditId);;
    ret listingId).

(* the price computation of [buyCredits]:
   (totalPrice, fee, sellerAmount) *)
Definition price_math {S} (amount pricePerCredit platformFee : Z)
  : M S (Z * Z * Z) :=
  product ← checked_mul amount pricePerCredit;
  let totalPrice := product / 10 ^ 18 in
  feeProduct ← checked_mul totalPrice platformFee;
  let fee := feeProduct / 10000 in
  sellerAmount ← checked_sub totalPrice fee;
  ret (totalPrice, fee, sellerAmount).

Definition buyCredits (e : Env) (listingId amount : Z) : M World unit :=
  payable e (nonReentrant (
    w ← get;
    require (Listing.isActive (listing w listingId)) "Listing not active";;
    require (0 <? amount) "Amount must be greater than 0";;
    require (amount <=? Listing.amount (listing w listingId))
            "Insufficient credits available";;
    require (negb (msg_sender e =? Listing.seller (listing w listingId))%N)
            "Cannot buy own listing";;
    '(totalPrice, fee, sellerAmount) ←
      price_math amount (Listing.pricePerCredit (listing w listingId))
                 (platformFee (store w));
    require (totalPrice <=? msg_value e) "Insufficient payment";;
    (* update listing *)
    remaining ← checked_sub (Listing.amount (listing w listingId)) amount;
    modify (on_store (set_listings <[listingId :=
      Listing.set_amount remaining (listing w listingId)]>));;
    w ← get;
    (if Listing.amount (listing w listingId) =? 0 then
       modify (on_store (set_listings <[listingId :=
         Listing.set_isActive false (listing w listingId)]>))
     else ret tt);;
    (* transfer tokens to buyer *)
    ok ← token_call e (fun te => Token.transfer te (msg_sender e) amount);
    require ok "Token transfer failed";;
    (* transfer payment to seller *)
    w ← get;
    successSeller ←
      send_value e (Listing.seller (listing w listingId)) sellerAmount;
    require successSeller "Seller payment failed";;
    (* refund excess payment *)
    (if totalPrice <? msg_value e then
       successRefund ←
         send_value e (msg_sender e) (msg_value e - totalPrice);
       require successRefund "Refund failed"
     else ret tt);;
    (* record trade *)
    w ← get;
    let trade :=
      {| Trade.listingId := listingId; Trade.buyer := msg_sender e;
         Trade.seller := Listing.seller (listing w listingId);
         Trade.amount := amount; Trade.totalPrice := totalPrice;
         Trade.timestamp := block_timestamp e |} in
    modify (on_store (set_userTrades <[msg_sender e :=
      getUserTrades w (msg_sender e) ++ [trade]]>));;
    w ← get;
    modify (on_store (set_userTrades
      <[Listing.seller (listing w listingId) :=
        getUserTrades w (Listing.seller (listing w listingId)) ++ [trade]]>));;
    w ← get;
    volume ← checked_add (totalVolume (store w)) totalPrice;
    modify (on_store (set_totalVolume volume));;
    trades ← checked_add (totalTrades (store w)) 1;
    modify (on_store (set_totalTrades trades));;
    emit (ListingSold listingId (msg_sender e)
                      (Listing.seller (listing w listingId))
                      amount totalPrice))).

Definition cancelListing (e : Env) (listingId : Z) : M World unit :=
  nonReentrant (
    w ← get;
    require (Listing.seller (listing w listingId) =? msg_sender e)%N
            "Not listing owner";;
    require (Listing.isActive (listing w listingId)) "Listing not active";;
    let remainingAmount := Listing.amount (listing w listingId) in
    modify (on_store (set_listings <[listingId :=
      Listing.set_isActive false (listing w listingId)]>));;
    w ← get;
    modify (on_store (set_listings <[listingId :=
      Listing.set_amount 0 (listing w listingId)]>));;
    (* return tokens to seller *)
    ok ← token_call e (fun te =>
           Token.transfer te (msg_sender e) remainingAmount);
    require ok "Token transfer failed";;
    emit (ListingCancelled listingId (msg_sender e))).

Definition updateListingPrice (e : Env) (listingId newPrice : Z)
  : M World unit :=
  w ← get;
  require (Listing.seller (listing w listingId) =? msg_sender e)%N
          "Not listing owner";;
  require (Listing.isActive (listing w listingId)) "Listing not active";;
  require (0 <? newPrice) "Price must be greater than 0";;
  modify (on_store (set_listings <[listingId :=
    Listing.set_pricePerCredit newPrice (listing w listingId)]>));;
  w ← get;
  emit (ListingUpdated listingId (Listing.amount (listing w listingId))
                       newPrice).

Definition updatePlatformFee (e : Env) (newFee : Z) : M World unit :=
  onlyOwner e (
    require (newFee <=? 500) "Fee too high (max 5%)";;
    w ← get;
    let oldFee := platformFee (store w) in
    modify (on_store (set_platformFee newFee));;
    emit (PlatformFeeUpdated oldFee newFee)).

Definition withdrawFees (e : Env) : M World unit :=
  onlyOwner e (
    w ← get;
    let balance_ := balance w in
    require (0 <? balance_) "No fees to withdraw";;
    success ← send_value e (owner (store w)) balance_;
    require success "Withdrawal failed").

(** *** Transactions *)

Inductive Call :=
| CreateListing (amount pricePerCredit creditId : Z) (projectName : string)
| BuyCredits (listingId amount : Z)
| CancelListing (listingId : Z)
| UpdateListingPrice (listingId newPrice : Z)
| UpdatePlatformFee (newFee : Z)
| WithdrawFees
(* a call of the ledger by an account other than the marketplace *)
| Ledger (c : Token.Call).

Definition ledger_call (e : Env) (c : Token.Call) : M World unit :=
  fun w =>
    match Token.exec e c (carbonToken w) with
    | Ok (_, t) => Ok (tt, set_carbonToken t w)
    | Err err => Err err
    end.

Definition exec (e : Env) (c : Call) : M World unit :=
  match c with
  | CreateListing amount price creditId name =>
      createListing e amount price creditId name;; ret tt
  | BuyCredits listingId amount => buyCredits e listingId amount
  | CancelListing listingId => cancelListing e listingId
  | UpdateListingPrice listingId newPrice =>
      updateListingPrice e listingId newPrice
  | UpdatePlatformFee newFee => updatePlatformFee e newFee
  | WithdrawFees => withdrawFees e
  | Ledger c => ledger_call e c
  end.

(* a transaction comes from an account other than the zero address and the
   marketplace itself, and its arguments are ABI-encodable; only the
   payable [buyCredits] can be sent value: a call of any other entry point
   that carries value is turned away before the function is entered *)
Definition valid_call (e : Env) (c : Call) (w : World) : bool :=
  negb (msg_sender e =? 0)%N && negb (msg_sender e =? this w)%N &&
  Token.uint256b (block_timestamp e) && Token.uint256b (msg_value e) &&
  match c with
  | CreateListing amount price creditId _ =>
      (msg_value e =? 0) &&
      Token.uint256b amount && Token.uint256b price &&
      Token.uint256b creditId
  | BuyCredits listingId amount =>
      Token.uint256b listingId && Token.uint256b amount
  | CancelListing listingId => (msg_value e =? 0) && Token.uint256b listingId
  | UpdateListingPrice listingId newPrice =>
      (msg_value e =? 0) &&
      Token.uint256b listingId && Token.uint256b newPrice
  | UpdatePlatformFee newFee => (msg_value e =? 0) && Token.uint256b newFee
  | WithdrawFees => msg_value e =? 0
  | Ledger c => (msg_value e =? 0) && Token.valid_call e c
  end.

Definition step (e : Env) (c : Call) (w : World) : World :=
  transact (exec e c) w.

Fixpoint run (tr : list (Env * Call)) (w : World) : World :=
  match tr with
  | [] => w
  | ec :: tr' => run tr' (step ec.1 ec.2 w)
  end.

Fixpoint valid_trace (tr : list (Env * Call)) (w : World) : Prop :=
  match tr with
  | [] => True
  | ec :: tr' =>
      valid_call ec.1 ec.2 w = true /\ valid_trace tr' (step ec.1 ec.2 w)
  end.

(* the states the two constructors leave: the marketplace at address
   [self], deployed by [deployer], for the ledger deployed by
   [tokenDeployer] *)
Definition init (self deployer tokenDeployer : address) : World :=
  {| this := self;
     store :=
       {| owner := deployer; entered := false; listings := ∅;
          userListings := ∅; userTrades := ∅; nextListingId := 0;
          platformFee := 25; totalVolume := 0; totalTrades := 0;
          events := [] |};
     carbonToken := Token.init tokenDeployer;
     balance := 0;
     calls := [] |}.

Inductive reachable : World -> Prop :=
| reach_init self deployer tokenDeployer :
    self ≠ 0%N -> reachable (init self deployer tokenDeployer)
| reach_step w e c :
    reachable w -> valid_call e c w = true -> reachable (step e c w).

(* the credits held in escrow according to the listings *)
Definition listed (w : World) : Z :=
  gsum (Listing.amount <$> listings (store w)).

(* the value transfers a call has added to the record *)
Definition new_calls (w w' : World) : list ExtCall :=
  drop (length (calls w)) (calls w').

(** *** The amounts and the effects of a purchase *)

(* the three amounts [buyCredits] computes, as numbers *)
Definition totalPrice_of (w : World) (listingId amount : Z) : Z :=
  amount * Listing.pricePerCredit (listing w listingId) / 10 ^ 18.

Definition fee_of (w : World) (listingId amount : Z) : Z :=
  totalPrice_of w listingId amount * platformFee (store w) / 10000.

Definition sellerAmount_of (w : World) (listingId amount : Z) : Z :=
  totalPrice_of w listingId amount - fee_of w listingId amount.

(* the listing after [amount] units were bought from it *)
Definition sold_from (amount : Z) (l : Listing.t) : Listing.t :=
  let l' := Listing.set_amount (Listing.amount l - amount) l in
  if Listing.amount l' =? 0 then Listing.set_isActive false l' else l'.

(* the storage a recipient of value finds during a purchase that takes
   the contract from [w] to [w']: the lock is held and the listings are
   final; every other field is still that of [w] *)
Definition seen_during (w w' : World) : Storage :=
  set_listings (fun _ => listings (store w')) (set_entered true (store w)).

(* the record of a purchase *)
Definition trade_of (e : Env) (w : World) (listingId amount : Z) : Trade.t :=
  {| Trade.listingId := listingId; Trade.buyer := msg_sender e;
     Trade.seller := Listing.seller (listing w listingId);
     Trade.amount := amount;
     Trade.totalPrice := totalPrice_of w listingId amount;
     Trade.timestamp := block_timestamp e |}.

(** *** A small scenario

    The ledger and the marketplace (at address 100) are deployed by
    account 1.  Account 2 is minted 1000 units, approves the marketplace
    and lists all of them at 2 * 10^18 wei per credit, which prices
    500 units at 1000 wei.  Account 3 then buys 500 units. *)

Definition env_of (sender : address) (value : Z)
    (accepting : address -> bool) : Env :=
  {| msg_sender := sender; msg_value := value;
     block_timestamp := 1700000000; accepts := accepting |}.

Definition everyone : address -> bool := fun _ => true.
Definition all_but (a : address) : address -> bool :=
  fun b => negb (b =? a)%N.

Definition listing_trace : list (Env * Call) :=
  [ (env_of 1 0 everyone,
     Ledger (Token.MintCredits 2 1000 "ProjectX" "Forestry" "BR" 1600000000));
    (env_of 2 0 everyone, Ledger (Token.Approve 100 1000));
    (env_of 2 0 everyone, CreateListing 1000 (2 * 10 ^ 18) 0 "ProjectX") ].

Definition with_listing : World := run listing_trace (init 100 1 1).

Definition after_sale : World :=
  step (env_of 3 1000 everyone) (BuyCredits 0 500) with_listing.

(* the same listing at 1 wei per credit, which prices 500 units at 0 wei *)
Definition cheap_trace : list (Env * Call) :=
  [ (env_of 1 0 everyone,
     Ledger (Token.MintCredits 2 1000 "ProjectX" "Forestry" "BR" 1600000000));
    (env_of 2 0 everyone, Ledger (Token.Approve 100 1000));
    (env_of 2 0 everyone, CreateListing 1000 1 0 "ProjectX") ].

Definition with_cheap_listing : World := run cheap_trace (init 100 1 1).

(** *** [getActiveListings] *)

(* [rounds] rounds of a loop body, the counter starting at [i] *)
Fixpoint for_range {A} (body : Z -> A -> result A) (i : Z) (rounds : nat)
    (acc : A) : result A :=
  match rounds with
  | O => Ok acc
  | S rounds' =>
      match body i acc with
      | Ok acc' => for_range body (i + 1) rounds' acc'
      | Err err => Err err
      end
  end.

(* [for (uint256 i = 0; i < n; i++) body]: the counter stays below [n], so
   its increment cannot overflow *)
Definition for_loop {A} (body : Z -> A -> result A) (n : Z) (acc : A)
  : result A :=
  for_range body 0 (Z.to_nat n) acc.

(* if (listings[i].isActive) { activeCount++; } *)
Definition count_active (w : World) (i : Z) (activeCount : Z) : result Z :=
  if Listing.isActive (listing w i) then
    if activeCount + 1 <=? MAX_UINT256 then Ok (activeCount + 1)
    else Err (Panic 17)
  else Ok activeCount.

(* if (listings[i].isActive) { activeListings[index] = listings[i];
   index++; }: writing a memory array out of its bounds is Panic 0x32 *)
Definition copy_active (w : World) (i : Z) (st : list Listing.t * Z)
  : result (list Listing.t * Z) :=
  if Listing.isActive (listing w i) then
    if st.2 <? Z.of_nat (length st.1) then
      if st.2 + 1 <=? MAX_UINT256
      then Ok (<[Z.to_nat st.2 := listing w i]> st.1, st.2 + 1)
      else Err (Panic 17)
    else Err (Panic 50)
  else Ok st.

Definition getActiveListings (w : World) : result (list Listing.t) :=
  match for_loop (count_active w) (nextListingId (store w)) 0 with
  | Err err => Err err
  | Ok activeCount =>
      (* new Listing[](activeCount) *)
      let activeListings := replicate (Z.to_nat activeCount) Listing.empty in
      match for_loop (copy_active w) (nextListingId (store w))
                     (activeListings, 0) with
      | Err err => Err err
      | Ok st => Ok st.1
      end
  end.

(* the listings in the order of their ids *)
Definition all_listings (w : World) : list Listing.t :=
  listing w <$> seqZ 0 (nextListingId (store w)).

(** *** Quantities read off the log and the histories *)

Definition is_created (ev : Event) : bool :=
  match ev with
  | ListingCreated _ _ _ _ _ => true
  | _ => false
  end.

Definition is_sold (ev : Event) : bool :=
  match ev with
  | ListingSold _ _ _ _ _ => true
  | _ => false
  end.

Definition sold_price (ev : Event) : Z :=
  match ev with
  | ListingSold _ _ _ _ totalPrice => totalPrice
  | _ => 0
  end.

Definition created_count (w : World) : Z :=
  Z.of_nat (length (filter (fun ev => is_created ev = true)
                           (events (store w)))).

Definition sold_count (w : World) : Z :=
  Z.of_nat (length (filter (fun ev => is_sold ev = true)
                           (events (store w)))).

Definition sold_volume (w : World) : Z :=
  fold_right (fun ev acc => sold_price ev + acc) 0 (events (store w)).

(* the number of entries in all trade histories together *)
Definition trade_entries (w : World) : Z :=
  gsum ((fun l : list Trade.t => Z.of_nat (length l))
          <$> userTrades (store w)).

(* what its creation fixes of a listing *)
Definition listing_identity (l : Listing.t) : address * Z * Z * string :=
  (Listing.seller l, Listing.createdAt l, Listing.creditId l,
   Listing.projectName l).

(* the scenario with a second listing: account 2 is minted 400 more units
   and lists 300 of them, and cancels the first listing *)
Definition second_listing_trace : list (Env * Call) :=
  [ (env_of 1 0 everyone,
     Ledger (Token.MintCredits 2 400 "ProjectY" "Solar" "IN" 1600000000));
    (env_of 2 0 everyone, Ledger (Token.Approve 100 300));
    (env_of 2 0 everyone, CreateListing 300 (3 * 10 ^ 18) 1 "ProjectY");
    (env_of 2 0 everyone, CancelListing 0) ].

Definition with_two_listings : World := run second_listing_trace after_sale.

(* a listing at 1.5 * 10^18 wei per credit, which prices one unit at 1 wei
   and leaves half a wei of the exact price out *)
Definition odd_trace : list (Env * Call) :=
  [ (env_of 1 0 everyone,
     Ledger (Token.MintCredits 2 1000 "ProjectX" "Forestry" "BR" 1600000000));
    (env_of 2 0 everyone, Ledger (Token.Approve 100 1000));
    (env_of 2 0 everyone, CreateListing 1000 (15 * 10 ^ 17) 0 "ProjectX") ].

Definition with_odd_listing : World := run odd_trace (init 100 1 1).

Definition after_odd_sale : World :=
  step (env_of 3 1 everyone) (BuyCredits 0 1) with_odd_listing.

End Marketplace.

(** * Properties *)

(** ** Sums over storage mappings *)

Section gsum_facts.
Context `{Countable K}.
Implicit Types m : gmap K Z.

Lemma gsum_empty : gsum (∅ : gmap K Z) = 0.
Proof. unfold gsum. apply map_fold_empty. Qed.

Lemma gsum_insert_fresh m k v :
  m !! k = None -> gsum (<[k:=v]> m) = v + gsum m.
Proof.
  intros Hk. unfold gsum.
  rewrite map_fold_insert_L; [reflexivity| |exact Hk].
  intros; lia.
Qed.

Lemma gsum_delete m k v :
  m !! k = Some v -> gsum m = v + gsum (delete k m).
Proof.
  intros Hk. unfold gsum.
  rewrite (map_fold_delete_L _ _ k v m); [reflexivity| |exact Hk].
  intros; lia.
Qed.

Lemma gsum_insert m k v :
  gsum (<[k:=v]> m) = gsum m - default 0 (m !! k) + v.
Proof.
  destruct (m !! k) as [v0|] eqn:Hk; simpl.
  - rewrite <- insert_delete_eq.
    rewrite gsum_insert_fresh by apply lookup_delete_eq.
    rewrite (gsum_delete m k v0 Hk). lia.
  - rewrite gsum_insert_fresh by exact Hk. lia.
Qed.

Lemma nonneg_map_insert m k v :
  nonneg_map m -> 0 <= v -> nonneg_map (<[k:=v]> m).
Proof.
  intros Hm Hv j w. rewrite lookup_insert.
  case_decide; [intros [= <-]; exact Hv | apply Hm].
Qed.

Lemma nonneg_map_delete m k : nonneg_map m -> nonneg_map (delete k m).
Proof.
  intros Hm j w. rewrite lookup_delete.
  case_decide; [discriminate | apply Hm].
Qed.

Lemma gsum_nonneg m : nonneg_map m -> 0 <= gsum m.
Proof.
  induction m as [|k v m Hk _ IH] using map_first_key_ind.
  - intros _. rewrite gsum_empty. lia.
  - intros Hm. rewrite gsum_insert_fresh by exact Hk.
    assert (0 <= v) by (apply (Hm k); apply lookup_insert_eq).
    assert (0 <= gsum m); [|lia].
    apply IH. intros j w Hj. apply (Hm j).
    rewrite lookup_insert_ne; [exact Hj|]. intros ->. congruence.
Qed.

Lemma gsum_lookup_le m k :
  nonneg_map m -> default 0 (m !! k) <= gsum m.
Proof.
  intros Hm. destruct (m !! k) as [v|] eqn:Hk; simpl.
  - rewrite (gsum_delete m k v Hk).
    pose proof (gsum_nonneg _ (nonneg_map_delete m k Hm)). lia.
  - apply gsum_nonneg, Hm.
Qed.

Lemma lookup_default_nonneg m k : nonneg_map m -> 0 <= default 0 (m !! k).
Proof.
  intros Hm. destruct (m !! k) as [v|] eqn:Hk; simpl; [eauto | lia].
Qed.
End gsum_facts.

(** ** Machine arithmetic and the monad *)

Lemma unchecked_sub_exact a b :
  0 <= b <= a -> a <= MAX_UINT256 -> unchecked_sub a b = a - b.
Proof.
  intros Hb Ha. unfold unchecked_sub, MAX_UINT256 in *.
  apply Z.mod_small. lia.
Qed.

Lemma unchecked_add_exact a b :
  0 <= a -> 0 <= b -> a + b <= MAX_UINT256 -> unchecked_add a b = a + b.
Proof.
  intros Ha Hb Hab. unfold unchecked_add, MAX_UINT256 in *.
  apply Z.mod_small. lia.
Qed.

Lemma uint256b_spec x : Token.uint256b x = true <-> is_uint256 x.
Proof. unfold Token.uint256b, is_uint256. lia. Qed.

Lemma transact_ok {S A} (m : M S A) s a s' :
  m s = Ok (a, s') -> transact m s = s'.
Proof. unfold transact. intros ->. reflexivity. Qed.

Lemma transact_err {S A} (m : M S A) s e :
  m s = Err e -> transact m s = s.
Proof. unfold transact. intros ->. reflexivity. Qed.

Lemma transact_cases {S A} (m : M S A) s :
  (exists a s', m s = Ok (a, s') /\ transact m s = s') \/
  (exists e, m s = Err e /\ transact m s = s).
Proof.
  unfold transact. destruct (m s) as [[a s']|e]; [left|right]; eauto.
Qed.

(** Debiting and crediting one slot of a balance mapping, as the
    [unchecked] blocks of the base token do. *)
Lemma gsum_debit `{Countable K} (m : gmap K Z) k v :
  nonneg_map m -> gsum m <= MAX_UINT256 ->
  0 <= v <= default 0 (m !! k) ->
  let m' := <[k := unchecked_sub (default 0 (m !! k)) v]> m in
  nonneg_map m' /\ gsum m' = gsum m - v.
Proof.
  intros Hm Hmax Hv m'. subst m'.
  pose proof (gsum_lookup_le m k Hm).
  rewrite unchecked_sub_exact by lia.
  split; [apply nonneg_map_insert; [done|lia] | rewrite gsum_insert; lia].
Qed.

Lemma gsum_credit `{Countable K} (m : gmap K Z) k v :
  nonneg_map m -> 0 <= v -> gsum m + v <= MAX_UINT256 ->
  let m' := <[k := unchecked_add (default 0 (m !! k)) v]> m in
  nonneg_map m' /\ gsum m' = gsum m + v /\
  m' !! k = Some (default 0 (m !! k) + v).
Proof.
  intros Hm Hv Hmax m'. subst m'.
  pose proof (gsum_lookup_le m k Hm).
  pose proof (lookup_default_nonneg m k Hm).
  rewrite unchecked_add_exact by lia.
  split; [apply nonneg_map_insert; [done|lia]|].
  split; [rewrite gsum_insert; lia | apply lookup_insert_eq].
Qed.

(** Turning the boolean guards of a call into propositions. *)
Ltac guards :=
  repeat match goal with
  | H : (_ && _) = true |- _ => apply andb_true_iff in H; destruct H
  | H : Token.uint256b _ = true |- _ => apply uint256b_spec in H
  | H : negb _ = true |- _ => apply negb_true_iff in H
  | H : negb _ = false |- _ => apply negb_false_iff in H
  | H : (_ <=? _) = true |- _ => apply Z.leb_le in H
  | H : (_ <=? _) = false |- _ => apply Z.leb_gt in H
  | H : (_ <? _) = true |- _ => apply Z.ltb_lt in H
  | H : (_ <? _) = false |- _ => apply Z.ltb_ge in H
  | H : (_ =? _)%N = true |- _ => apply N.eqb_eq in H
  | H : (_ =? _)%N = false |- _ => apply N.eqb_neq in H
  | H : bool_decide _ = true |- _ => apply bool_decide_eq_true in H
  | H : bool_decide _ = false |- _ => apply bool_decide_eq_false in H
  end.

(** Unfolding the monad. *)
Ltac sol_unfold :=
  cbv beta iota zeta delta
    [mbind mret M_bind M_ret bind ret fail get gets modify
     require revert_if checked_add checked_sub checked_mul] in *.

(** ** The ledger *)

Module TokenProofs.
Import Token.

Ltac tok_simpl_in H :=
  cbv beta zeta delta
    [balanceOf allowance getProjectCredits getUserRetiredCredits metadata]
    in H;
  change (N.eqb 0 0) with true in H;
  cbn beta iota delta
    [balances allowances totalSupply minters entered creditMetadata
     userRetiredCredits projectCredits nextCreditId totalRetired events
     set_balances set_allowances set_totalSupply set_entered
     set_creditMetadata set_userRetiredCredits set_projectCredits
     set_nextCreditId set_totalRetired fst snd] in H.

Ltac tok_unfold_in H :=
  cbv beta iota zeta delta
    [exec mintCredits retireCredits transfer transferFrom approve burn
     burnFrom onlyMinter nonReentrant _mint _burn _transfer _approve
     _spendAllowance _update emit
     mbind mret M_bind M_ret bind ret fail get gets modify
     require revert_if checked_add checked_sub checked_mul] in H;
  tok_simpl_in H.

Ltac tok_simpl :=
  cbv beta iota zeta delta
    [balanceOf allowance getProjectCredits getUserRetiredCredits metadata];
  change (N.eqb 0 0) with true;
  cbn beta iota delta
    [balances allowances totalSupply minters entered creditMetadata
     userRetiredCredits projectCredits nextCreditId totalRetired events
     set_balances set_allowances set_totalSupply set_entered
     set_creditMetadata set_userRetiredCredits set_projectCredits
     set_nextCreditId set_totalRetired fst snd].

Ltac tok_unfold :=
  cbv beta iota zeta delta
    [exec mintCredits retireCredits transfer transferFrom approve burn
     burnFrom onlyMinter nonReentrant _mint _burn _transfer _approve
     _spendAllowance _update emit
     mbind mret M_bind M_ret bind ret fail get gets modify
     require revert_if checked_add checked_sub checked_mul];
  tok_simpl.

(* case analysis on every guard of a call that returned *)
Ltac tok_split H :=
  tok_unfold_in H;
  repeat (match type of H with
          | context [if ?c then _ else _] =>
              let E := fresh "G" in
              destruct c eqn:E; cbv beta iota zeta in H; tok_simpl_in H
          end);
  try discriminate H.

(** The invariant of the ledger between transactions. *)
Record inv (s : State) : Prop := {
  inv_nonneg : nonneg_map (balances s);
  inv_supply : gsum (balances s) = totalSupply s;
  inv_supply_max : totalSupply s <= MAX_UINT256;
  inv_ids : forall id md,
    creditMetadata s !! id = Some md -> id < nextCreditId s;
  inv_entered : entered s = false;
  inv_retired : 0 <= totalRetired s
}.

Lemma inv_init deployer : inv (init deployer).
Proof.
  split; simpl; done.
Qed.

Lemma debit_facts (b : gmap address Z) a v :
  nonneg_map b -> gsum b <= MAX_UINT256 -> 0 <= v <= default 0 (b !! a) ->
  nonneg_map (debit a v b) /\ gsum (debit a v b) = gsum b - v /\
  forall k, default 0 (debit a v b !! k) =
            default 0 (b !! k) - (if decide (k = a) then v else 0).
Proof.
  intros Hnn Hmax Hv. unfold debit.
  destruct (gsum_debit b a v Hnn Hmax Hv) as [Hnn1 Hs1].
  split; [exact Hnn1|]. split; [exact Hs1|].
  pose proof (gsum_lookup_le b a Hnn) as Hle.
  intros k. rewrite unchecked_sub_exact by lia.
  rewrite lookup_insert. repeat case_decide; subst; simpl; try congruence; lia.
Qed.

Lemma credit_facts (b : gmap address Z) a v :
  nonneg_map b -> 0 <= v -> gsum b + v <= MAX_UINT256 ->
  nonneg_map (credit a v b) /\ gsum (credit a v b) = gsum b + v /\
  forall k, default 0 (credit a v b !! k) =
            default 0 (b !! k) + (if decide (k = a) then v else 0).
Proof.
  intros Hnn Hv Hmax. unfold credit.
  destruct (gsum_credit b a v Hnn Hv Hmax) as (Hnn1 & Hs1 & _).
  split; [exact Hnn1|]. split; [exact Hs1|].
  pose proof (gsum_lookup_le b a Hnn) as Hle.
  pose proof (lookup_default_nonneg b a Hnn) as Hge.
  intros k. rewrite unchecked_add_exact by lia.
  rewrite lookup_insert. repeat case_decide; subst; simpl; try congruence; lia.
Qed.

(* the facts about a debited / credited balance mapping in the goal *)
Ltac bal :=
  repeat match goal with
  | Hn : nonneg_map ?m |- context [debit ?k ?v ?m] =>
      lazymatch goal with
      | _ : gsum (debit k v m) = _ |- _ => fail
      | _ => destruct (debit_facts m k v) as (?&?&?); [exact Hn|lia|lia|];
             pose proof (gsum_lookup_le m k Hn)
      end
  | Hn : nonneg_map ?m |- context [credit ?k ?v ?m] =>
      lazymatch goal with
      | _ : gsum (credit k v m) = _ |- _ => fail
      | _ => destruct (credit_facts m k v) as (?&?&?); [exact Hn|lia|lia|]
      end
  end.

Ltac bal_bounds :=
  repeat match goal with
  | Hn : nonneg_map ?m, _ : context [default 0 (?m !! ?k)] |- _ =>
      lazymatch goal with
      | _ : default 0 (m !! k) <= gsum m |- _ => fail
      | _ => pose proof (gsum_lookup_le m k Hn)
      end
  end.

Ltac ids_insert Hids :=
  let id := fresh "id" in let md := fresh "md" in
  intros id md; rewrite lookup_insert; case_decide;
  [intros _; lia | intros Hid; apply Hids in Hid; lia].

Lemma inv_exec e c s u s' :
  inv s -> valid_call e c = true -> exec e c s = Ok (u, s') -> inv s'.
Proof.
  intros [Hnn Hsum Hmax Hids Hent Hret] Hv Hex.
  unfold valid_call in Hv.
  destruct c; tok_split Hex; injection Hex as <- <-; guards;
    unfold is_uint256 in *.
  all: bal_bounds.
  all: split; cbn; try done; try ids_insert Hids; bal;
    rewrite ?(unchecked_sub_exact (totalSupply s)) by lia; try done; lia.
Qed.

Lemma inv_step e c s : inv s -> valid_call e c = true -> inv (step e c s).
Proof.
  intros Hs Hv. unfold step.
  destruct (transact_cases (exec e c) s) as [(u&s'&Hex&->)|(err&_&->)];
    [eapply inv_exec; eauto | exact Hs].
Qed.

Lemma reachable_inv deployer s : reachable deployer s -> inv s.
Proof.
  induction 1; [apply inv_init | by apply inv_step].
Qed.

Lemma ledger_reachable_reachable deployer s :
  ledger_reachable deployer s -> reachable deployer s.
Proof. induction 1; [constructor | by constructor]. Qed.


Lemma minted_snoc l ev :
  fold_right (fun ev acc => minted_amount ev + acc) 0 (l ++ [ev]) =
  fold_right (fun ev acc => minted_amount ev + acc) 0 l + minted_amount ev.
Proof. induction l as [|x l IH]; simpl; lia. Qed.

(** Every call of the ledger proper keeps the books balanced. *)
Lemma conservation_exec e c s u s' :
  inv s -> valid_call e c = true -> ledger_call c = true ->
  exec e c s = Ok (u, s') ->
  sum_balances s + totalRetired s = total_minted s ->
  sum_balances s' + totalRetired s' = total_minted s'.
Proof.
  intros [Hnn Hsum Hmax Hids Hent Hret] Hv Hl Hex.
  unfold valid_call in Hv. unfold sum_balances, total_minted.
  destruct c; try discriminate Hl; tok_split Hex; injection Hex as <- <-;
    guards; unfold is_uint256 in *.
  all: bal_bounds.
  all: cbn; rewrite ?minted_snoc; cbn; bal; lia.
Qed.

(** C1. In every state reachable from the constructor's state by
    [mintCredits], [retireCredits] and balance transfers ([transfer],
    [transferFrom], with [approve]), the balances of all principals plus
    [totalRetired] add up to the sum of all amounts ever minted. *)
Theorem supply_conservation deployer s :
  ledger_reachable deployer s ->
  sum_balances s + totalRetired s = total_minted s.
Proof.
  induction 1 as [|s e c Hs IH Hv Hl].
  - unfold sum_balances, total_minted. simpl. rewrite (@gsum_empty N _ _). reflexivity.
  - unfold step.
    destruct (transact_cases (exec e c) s) as [(u&s'&Hex&->)|(err&_&->)];
      [|exact IH].
    eapply conservation_exec; eauto.
    eapply reachable_inv, ledger_reachable_reachable, Hs.
Qed.

(** *** Retirement flags *)

Lemma retired_has_id s id :
  inv s -> isRetired (metadata s id) = true -> id < nextCreditId s.
Proof.
  intros Hs. unfold metadata.
  destruct (creditMetadata s !! id) as [md|] eqn:Hid; simpl; [|discriminate].
  intros _. eapply inv_ids; eauto.
Qed.

Lemma retired_exec e c s u s' id :
  inv s -> exec e c s = Ok (u, s') ->
  isRetired (metadata s id) = true -> isRetired (metadata s' id) = true.
Proof.
  intros Hs Hex Hr. pose proof (retired_has_id s id Hs Hr) as Hlt.
  unfold metadata in *.
  destruct c; tok_split Hex; injection Hex as <- <-; cbn; try exact Hr.
  - rewrite lookup_insert_ne by lia. exact Hr.
  - rewrite lookup_insert. case_decide; [reflexivity | exact Hr].
Qed.

Lemma retired_step e c s id :
  inv s -> isRetired (metadata s id) = true ->
  isRetired (metadata (step e c s) id) = true.
Proof.
  intros Hs Hr. unfold step.
  destruct (transact_cases (exec e c) s) as [(u&s'&Hex&->)|(err&_&->)];
    [eapply retired_exec; eauto | exact Hr].
Qed.

Lemma inv_run tr s : inv s -> valid_trace tr -> inv (run tr s).
Proof.
  intros Hs Htr. revert s Hs.
  induction Htr as [|[e c] tr Hv _ IH]; intros s Hs; simpl; [exact Hs|].
  apply IH, inv_step; assumption.
Qed.

Lemma retired_run tr s id :
  inv s -> valid_trace tr -> isRetired (metadata s id) = true ->
  isRetired (metadata (run tr s) id) = true.
Proof.
  intros Hs Htr. revert s Hs.
  induction Htr as [|[e c] tr Hv _ IH]; intros s Hs Hr; simpl; [exact Hr|].
  apply IH; [by apply inv_step | by apply retired_step].
Qed.

Lemma rises_retired tr s id :
  inv s -> valid_trace tr -> isRetired (metadata s id) = true ->
  rises (flag_history id tr s) = 0%nat.
Proof.
  intros Hs Htr. revert s Hs.
  induction Htr as [|[e c] tr Hv _ IH]; intros s Hs Hr; simpl.
  - rewrite Hr. reflexivity.
  - rewrite Hr. apply IH; [by apply inv_step | by apply retired_step].
Qed.

Lemma rises_at_most_once tr s id :
  inv s -> valid_trace tr -> (rises (flag_history id tr s) <= 1)%nat.
Proof.
  intros Hs Htr. revert s Hs.
  induction Htr as [|[e c] tr Hv Htr IH]; intros s Hs.
  - simpl. destruct (isRetired _); simpl; lia.
  - destruct (isRetired (metadata s id)) eqn:Hr.
    + rewrite rises_retired; [lia|assumption|by constructor|assumption].
    + pose proof (inv_step e c s Hs Hv) as Hs'.
      specialize (IH _ Hs').
      change (flag_history id ((e, c) :: tr) s)
        with (isRetired (metadata s id) :: flag_history id tr (step e c s)).
      rewrite Hr.
      destruct (isRetired (metadata (step e c s) id)) eqn:Hr'.
      * pose proof (rises_retired tr _ id Hs' Htr Hr') as H0.
        destruct tr; simpl in *; rewrite Hr' in *; simpl in *; lia.
      * destruct tr; simpl in *; rewrite Hr' in *; simpl in *; lia.
Qed.

(** What [retireCredits] answers on a credit that is already retired:
    the balance guard is evaluated first. *)
Lemma retire_retired e amount id s :
  inv s -> isRetired (metadata s id) = true ->
  retireCredits e amount id s =
  Err (Revert (if amount <=? balanceOf s (msg_sender e)
               then "Credits already retired" else "Insufficient balance")).
Proof.
  intros Hs Hr. pose proof (retired_has_id s id Hs Hr) as Hlt.
  pose proof (inv_entered s Hs) as Hent.
  apply Z.ltb_lt in Hlt.
  unfold metadata in Hr. tok_unfold.
  rewrite Hent. tok_simpl.
  destruct (amount <=? _); tok_simpl; [|reflexivity].
  rewrite Hlt. tok_simpl. rewrite Hr. reflexivity.
Qed.

Lemma scenario_valid : valid_trace scenario.
Proof. repeat constructor. Qed.

Lemma scenario_reachable : reachable 1 after_scenario.
Proof.
  unfold after_scenario, scenario, run. simpl fold_left.
  repeat (apply reach_step; [|reflexivity]). apply reach_init.
Qed.

Lemma scenario_ledger_reachable : ledger_reachable 1 after_scenario.
Proof.
  unfold after_scenario, scenario, run. simpl fold_left.
  repeat (apply lreach_step; [|reflexivity|reflexivity]). apply lreach_init.
Qed.

Lemma supply_conservation_witness :
  ledger_reachable 1 after_scenario /\
  sum_balances after_scenario + totalRetired after_scenario =
  total_minted after_scenario.
Proof.
  split; [exact scenario_ledger_reachable|].
  apply (supply_conservation 1 after_scenario), scenario_ledger_reachable.
Defined.

(** On a retired credit, a caller whose balance does not cover the amount
    is told so: the balance guard of [retireCredits] is evaluated before
    the retirement guard. *)
Lemma retire_retired_insufficient_balance :
  reachable 1 after_scenario /\
  isRetired (metadata after_scenario 0) = true /\
  retireCredits (env_of 3) 1 0 after_scenario =
  Err (Revert "Insufficient balance").
Proof.
  split; [exact scenario_reachable|]. split; vm_compute; reflexivity.
Qed.


(** C2 (as amended). A retirement flag goes from unset to set at most once
    along any run of the ledger.  On a credit that is already retired,
    [retireCredits] always aborts and the transaction leaves the whole state
    as it was; the reason given is "Credits already retired" when the
    caller's balance covers the amount and "Insufficient balance" otherwise.
    No later call clears the flag. *)
Theorem retired_flag_set_once deployer s tr id :
  reachable deployer s -> valid_trace tr ->
  (rises (flag_history id tr s) <= 1)%nat /\
  (isRetired (metadata s id) = true ->
   (forall e amount,
      retireCredits e amount id s =
      Err (Revert (if amount <=? balanceOf s (msg_sender e)
                   then "Credits already retired"
                   else "Insufficient balance"))) /\
   (forall e amount, step e (RetireCredits amount id) s = s) /\
   isRetired (metadata (run tr s) id) = true).
Proof.
  intros Hs Htr. apply reachable_inv in Hs.
  split; [by apply rises_at_most_once|].
  intros Hr. split; [|split].
  - intros e amount. by apply retire_retired.
  - intros e amount. unfold step, exec.
    eapply transact_err. by apply retire_retired.
  - by apply retired_run.
Qed.

Lemma retired_flag_set_once_witness :
  reachable 1 after_scenario /\ valid_trace scenario /\
  isRetired (metadata after_scenario 0) = true /\
  (rises (flag_history 0 scenario after_scenario) <= 1)%nat /\
  retireCredits (env_of 2) 1 0 after_scenario =
    Err (Revert (if 1 <=? balanceOf after_scenario (msg_sender (env_of 2))
                 then "Credits already retired"
                 else "Insufficient balance")) /\
  step (env_of 2) (RetireCredits 1 0) after_scenario = after_scenario /\
  isRetired (metadata (run scenario after_scenario) 0) = true.
Proof.
  assert (reachable 1 after_scenario) as Hr.
  { unfold after_scenario, scenario, run. simpl fold_left.
    repeat (apply reach_step; [|reflexivity]). apply reach_init. }
  assert (valid_trace scenario) as Hv by (repeat constructor).
  assert (isRetired (metadata after_scenario 0) = true) as Hf
    by (vm_compute; reflexivity).
  destruct (retired_flag_set_once 1 after_scenario scenario 0 Hr Hv)
    as [Hrise Hrest].
  destruct (Hrest Hf) as (Hret & Hstep & Hkeep).
  split; [exact Hr|]. split; [exact Hv|]. split; [exact Hf|].
  split; [exact Hrise|]. split; [apply Hret|]. split; [apply Hstep|].
  exact Hkeep.
Defined.

(** *** What the marketplace relies on *)

Lemma balance_range s a : inv s -> 0 <= balanceOf s a <= MAX_UINT256.
Proof.
  intros [Hnn Hsum Hmax _ _ _]. unfold balanceOf.
  pose proof (gsum_lookup_le (balances s) a Hnn).
  pose proof (lookup_default_nonneg (balances s) a Hnn). lia.
Qed.

Lemma balances_move (b : gmap address Z) from to v a :
  nonneg_map b -> gsum b <= MAX_UINT256 ->
  0 <= v <= default 0 (b !! from) ->
  default 0 (credit to v (debit from v b) !! a) =
  default 0 (b !! a) - (if decide (a = from) then v else 0)
                     + (if decide (a = to) then v else 0).
Proof.
  intros Hnn Hmax Hv.
  destruct (debit_facts b from v Hnn Hmax Hv) as (Hnn1 & Hs1 & Hl1).
  destruct (credit_facts (debit from v b) to v Hnn1) as (_ & _ & Hl2);
    [lia|lia|].
  rewrite Hl2, Hl1. reflexivity.
Qed.

(** A transfer that returns moved [v] units from the sender to [to]. *)
Lemma transfer_ok e to v s b s' :
  inv s -> is_uint256 v -> is_uint256 (block_timestamp e) ->
  transfer e to v s = Ok (b, s') ->
  b = true /\ inv s' /\ msg_sender e ≠ 0%N /\ to ≠ 0%N /\
  v <= balanceOf s (msg_sender e) /\
  (forall a,
     balanceOf s' a =
     balanceOf s a - (if decide (a = msg_sender e) then v else 0)
                   + (if decide (a = to) then v else 0)) /\
  allowances s' = allowances s.
Proof.
  intros Hs Hv Ht Hex.
  assert (exec e (Transfer to v) s = Ok (tt, s')) as Hexec.
  { unfold exec. sol_unfold. destruct (transfer e to v s) as [[? ?]|];
      [injection Hex as <- <-; reflexivity | discriminate]. }
  assert (inv s') as Hs'.
  { eapply inv_exec; [exact Hs| |exact Hexec].
    unfold valid_call. apply uint256b_spec in Hv, Ht. by rewrite Hv, Ht. }
  destruct Hs as [Hnn Hsum Hmax _ _ _].
  unfold is_uint256 in Hv.
  tok_split Hex. injection Hex as <- <-. guards.
  split; [reflexivity|]. split; [exact Hs'|].
  split; [exact G|]. split; [exact G0|]. split; [exact G1|].
  split; [|reflexivity].
  intros a. unfold balanceOf. cbn.
  apply balances_move; [done|lia|lia].
Qed.

Lemma transfer_succeeds e to v s :
  inv s -> 0 <= v -> msg_sender e ≠ 0%N -> to ≠ 0%N ->
  v <= balanceOf s (msg_sender e) ->
  exists s', transfer e to v s = Ok (true, s').
Proof.
  intros Hs Hv Hf Ht Hle. apply N.eqb_neq in Hf, Ht. apply Z.ltb_ge in Hle.
  unfold balanceOf in Hle. tok_unfold.
  rewrite Hf, Ht. tok_simpl. rewrite Hle. tok_simpl. eauto.
Qed.

(** A [transferFrom] that returns moved [v] units from [from] to [to], and
    touched no allowance but the one [from] gave to the sender. *)
Lemma transferFrom_ok e from to v s b s' :
  inv s -> is_uint256 v -> is_uint256 (block_timestamp e) ->
  transferFrom e from to v s = Ok (b, s') ->
  b = true /\ inv s' /\ from ≠ 0%N /\ to ≠ 0%N /\
  v <= balanceOf s from /\
  (forall a,
     balanceOf s' a =
     balanceOf s a - (if decide (a = from) then v else 0)
                   + (if decide (a = to) then v else 0)) /\
  (forall o sp, o ≠ from -> allowance s' o sp = allowance s o sp).
Proof.
  intros Hs Hv Ht Hex.
  assert (exec e (TransferFrom from to v) s = Ok (tt, s')) as Hexec.
  { unfold exec. sol_unfold. destruct (transferFrom e from to v s) as [[? ?]|];
      [injection Hex as <- <-; reflexivity | discriminate]. }
  assert (inv s') as Hs'.
  { eapply inv_exec; [exact Hs| |exact Hexec].
    unfold valid_call. apply uint256b_spec in Hv, Ht. by rewrite Hv, Ht. }
  destruct Hs as [Hnn Hsum Hmax _ _ _].
  unfold is_uint256 in Hv.
  tok_split Hex; injection Hex as <- <-; guards.
  all: split; [reflexivity|]; split; [exact Hs'|].
  all: do 3 (split; [assumption|]).
  all: split;
    [intros a; unfold balanceOf; cbn; apply balances_move; [done|lia|lia]|].
  all: intros o sp Ho; unfold allowance; cbn;
    rewrite ?lookup_insert_ne by congruence; reflexivity.
Qed.

(** A call of the ledger by someone else neither lowers the balance of an
    account that has given no allowance, nor gives an allowance in its
    name. *)
Lemma foreign_exec e c s u s' a :
  inv s -> valid_call e c = true -> msg_sender e ≠ a ->
  (forall sp, allowance s a sp = 0) ->
  exec e c s = Ok (u, s') ->
  balanceOf s a <= balanceOf s' a /\ (forall sp, allowance s' a sp = 0).
Proof.
  intros Hs Hv Hne Hal Hex.
  destruct Hs as [Hnn Hsum Hmax _ _ _].
  unfold valid_call in Hv.
  destruct c; tok_split Hex; injection Hex as <- <-; guards;
    unfold is_uint256 in *.
  all: bal_bounds.
  all: unfold balanceOf, allowance in *; cbn.
  all: pose proof (Hal (msg_sender e)) as Hal0.
  all: split;
    [ bal;
      repeat match goal with
             | Hk : forall k, default 0 (_ !! k) = _ |- _ =>
                 rewrite Hk; clear Hk
             end;
      repeat case_decide; subst; try congruence; lia
    | intros sp; specialize (Hal sp); try exact Hal ].
  all: rewrite lookup_insert; case_decide as Heq; [|exact Hal].
  all: injection Heq as Ha Hsp; subst; simpl.
  all: try congruence.
  all: rewrite unchecked_sub_exact; unfold MAX_UINT256 in *; lia.
Qed.

(** The inherited [burn] is not one of the operations of the conservation
    law: it takes units out of a balance without retiring them. *)
Lemma burn_is_not_retirement :
  let s := step (env_of 2) (Burn 1) after_scenario in
  reachable 1 s /\
  sum_balances s + totalRetired s = 9 /\ total_minted s = 10.
Proof.
  split.
  { apply reach_step; [exact scenario_reachable | reflexivity]. }
  split; vm_compute; reflexivity.
Qed.

End TokenProofs.
(** ** The ledger: issuance, retirement and what stays fixed *)

Module TokenMore.
Import Token TokenProofs.

Record books (s : State) : Prop := {
  b_next : 0 <= nextCreditId s;
  b_lower : forall id md, creditMetadata s !! id = Some md -> 0 <= id;
  b_dense : forall id,
    0 <= id < nextCreditId s -> is_Some (creditMetadata s !! id);
  b_count : nextCreditId s = mint_count s;
  b_projects : gsum (projectCredits s) = total_minted s;
  b_burns : sum_balances s + totalRetired s <= total_minted s;
  b_retired_log : totalRetired s = total_retired_logged s;
  b_retired_max : totalRetired s <= MAX_UINT256
}.

Lemma retired_snoc l ev :
  fold_right (fun ev acc => retired_amount ev + acc) 0 (l ++ [ev]) =
  fold_right (fun ev acc => retired_amount ev + acc) 0 l + retired_amount ev.
Proof. induction l as [|x l IH]; simpl; lia. Qed.

Lemma mints_snoc (l : list Event) ev :
  Z.of_nat (length (filter (fun ev => is_mint ev = true) (l ++ [ev]))) =
  Z.of_nat (length (filter (fun ev => is_mint ev = true) l)) +
  (if is_mint ev then 1 else 0).
Proof.
  rewrite filter_app, length_app, Nat2Z.inj_add. f_equal.
  destruct ev; reflexivity.
Qed.

Lemma books_init deployer : books (init deployer).
Proof.
  split; cbn; try done; try lia.
Qed.

Lemma books_exec e c s u s' :
  inv s -> books s -> valid_call e c = true -> exec e c s = Ok (u, s') ->
  books s'.
Proof.
  intros [Hnn Hsum Hmax Hids Hent Hret]
    [Hnext Hlower Hdense Hcount Hproj Hburn Hlog Hrmax] Hv Hex.
  unfold valid_call in Hv.
  unfold sum_balances, total_minted, total_retired_logged, mint_count in *.
  destruct c; tok_split Hex; injection Hex as <- <-; guards;
    unfold is_uint256 in *.
  all: bal_bounds.
  all: split;
    unfold sum_balances, total_minted, total_retired_logged, mint_count;
    cbn; rewrite ?minted_snoc, ?retired_snoc, ?mints_snoc; cbn; try done; try lia.
  all: try (intros id Hid; rewrite lookup_insert; case_decide;
            [done|apply Hdense; lia]).
  all: try (intros id md; rewrite lookup_insert; case_decide;
            [intros _; lia|apply Hlower]).
  all: try (rewrite gsum_insert; lia).
  all: bal; try lia.
Qed.

Record retirements (s : State) : Prop := {
  r_lists : forall u id,
    id ∈ getUserRetiredCredits s u <->
    isRetired (metadata s id) = true /\ retiredBy (metadata s id) = u;
  r_nodup : forall u, NoDup (getUserRetiredCredits s u)
}.

Lemma retirements_init deployer : retirements (init deployer).
Proof.
  split.
  - intros u id. unfold getUserRetiredCredits, metadata. cbn.
    rewrite !lookup_empty. cbn. split; [intros H; inversion H | intros [H _]; discriminate H].
  - intros u. unfold getUserRetiredCredits. cbn. rewrite lookup_empty. constructor.
Qed.

Lemma retirements_exec e c s u s' :
  inv s -> retirements s -> valid_call e c = true ->
  exec e c s = Ok (u, s') -> retirements s'.
Proof.
  intros Hs [Hl Hn] Hv Hex.
  assert (forall id, isRetired (metadata s id) = true -> id < nextCreditId s)
    as Hid by (intros; by apply retired_has_id).
  unfold valid_call in Hv.
  unfold getUserRetiredCredits, metadata in Hl, Hn, Hid.
  destruct c; tok_split Hex; injection Hex as <- <-; guards;
    unfold is_uint256 in *.
  all: split; tok_simpl; try assumption.
  - (* mintCredits: the fresh credit is in nobody's list *)
    intros a id. rewrite Hl, lookup_insert. case_decide; [subst|reflexivity].
    cbn. split; [intros [Hr _]; apply Hid in Hr; lia | intros [Hr _]; discriminate Hr].
  - (* retireCredits *)
    intros a id. rewrite !lookup_insert.
    destruct (decide (creditId = id)) as [->|Hne], (decide (msg_sender e = a)) as [->|Hna]; cbn.
    + rewrite elem_of_app, list_elem_of_singleton. intuition (subst; congruence).
    + rewrite Hl. rewrite G2. intuition (subst; congruence).
    + rewrite elem_of_app, list_elem_of_singleton, Hl. intuition (subst; congruence).
    + apply Hl.
  - intros a. rewrite lookup_insert. case_decide; [subst; cbn|apply Hn].
    apply NoDup_app. split; [apply Hn|]. split; [|apply NoDup_singleton].
    intros x Hx ->%list_elem_of_singleton. apply Hl in Hx as [Hx _].
    rewrite Hx in G2. discriminate G2.
Qed.

Lemma books_step e c s :
  inv s -> books s -> valid_call e c = true -> books (step e c s).
Proof.
  intros Hs Hb Hv. unfold step.
  destruct (transact_cases (exec e c) s) as [(u&s'&Hex&->)|(err&_&->)];
    [eapply books_exec; eauto | exact Hb].
Qed.

Lemma retirements_step e c s :
  inv s -> retirements s -> valid_call e c = true -> retirements (step e c s).
Proof.
  intros Hs Hb Hv. unfold step.
  destruct (transact_cases (exec e c) s) as [(u&s'&Hex&->)|(err&_&->)];
    [eapply retirements_exec; eauto | exact Hb].
Qed.

Lemma reachable_books deployer s : reachable deployer s -> books s.
Proof.
  induction 1 as [|s e c Hs IH Hv]; [apply books_init|].
  apply books_step; [eapply reachable_inv; eauto | exact IH | exact Hv].
Qed.

Lemma reachable_retirements deployer s :
  reachable deployer s -> retirements s.
Proof.
  induction 1 as [|s e c Hs IH Hv]; [apply retirements_init|].
  apply retirements_step; [eapply reachable_inv; eauto | exact IH | exact Hv].
Qed.

Lemma name_given (name : string) :
  name ≠ EmptyString <-> (0 <? String.length name)%nat = true.
Proof. destruct name; cbn; split; congruence. Qed.

(** *** Issuance *)

Lemma mint_ok e to amount pn pt loc v s :
  inv s -> msg_sender e ∈ minters s -> 0 < amount -> pn ≠ EmptyString ->
  v <= block_timestamp e -> to ≠ 0%N ->
  nextCreditId s + 1 <= MAX_UINT256 ->
  getProjectCredits s pn + amount <= MAX_UINT256 ->
  totalSupply s + amount <= MAX_UINT256 ->
  exists s',
    mintCredits e to amount pn pt loc v s = Ok (nextCreditId s, s') /\
    nextCreditId s' = nextCreditId s + 1 /\
    totalSupply s' = totalSupply s + amount /\
    (forall a, balanceOf s' a =
               balanceOf s a + if decide (a = to) then amount else 0) /\
    getProjectCredits s' pn = getProjectCredits s pn + amount /\
    (forall id, metadata s' id =
       if decide (id = nextCreditId s)
       then {| projectName := pn; projectType := pt; location := loc;
               vintage := v; timestamp := block_timestamp e;
               isRetired := false; retiredBy := 0%N; retiredAt := 0 |}
       else metadata s id) /\
    totalRetired s' = totalRetired s /\
    events s' = events s ++ [CreditsMinted to amount (nextCreditId s) pn pt].
Proof.
  intros [Hnn Hsum Hmax Hids Hent Hret] Hm Ha Hn Hv Ht Hid Hp Hts.
  apply name_given in Hn. unfold getProjectCredits in Hp.
  destruct (mintCredits e to amount pn pt loc v s) as [[r s']|err] eqn:Hex.
  - unfold mintCredits in Hex. tok_split Hex. injection Hex as <- <-.
    eexists. split; [reflexivity|]. tok_simpl. repeat split.
    + intros a. bal. rewrite H1. reflexivity.
    + by rewrite lookup_insert_eq.
    + intros id. rewrite lookup_insert. repeat case_decide; subst; cbn; congruence.
  - exfalso. unfold mintCredits in Hex. tok_split Hex; guards;
      congruence || lia.
Qed.

Lemma mint_needs e to amount pn pt loc v s r :
  inv s -> mintCredits e to amount pn pt loc v s = Ok r ->
  msg_sender e ∈ minters s /\ 0 < amount /\ pn ≠ EmptyString /\
  v <= block_timestamp e /\ to ≠ 0%N /\
  nextCreditId s + 1 <= MAX_UINT256 /\
  getProjectCredits s pn + amount <= MAX_UINT256 /\
  totalSupply s + amount <= MAX_UINT256.
Proof.
  intros [Hnn Hsum Hmax Hids Hent Hret] Hex. rewrite name_given.
  unfold getProjectCredits.
  unfold mintCredits in Hex. tok_split Hex. guards. repeat split; assumption.
Qed.

(** *** Retirement *)

Lemma retire_ok e amount id s :
  inv s -> msg_sender e ≠ 0%N -> 0 <= amount <= balanceOf s (msg_sender e) ->
  id < nextCreditId s -> isRetired (metadata s id) = false ->
  totalRetired s + amount <= MAX_UINT256 ->
  exists s',
    retireCredits e amount id s = Ok (tt, s') /\
    (forall a, balanceOf s' a =
               balanceOf s a - if decide (a = msg_sender e) then amount else 0) /\
    totalSupply s' = totalSupply s - amount /\
    totalRetired s' = totalRetired s + amount /\
    (forall i, metadata s' i =
       if decide (i = id)
       then mark_retired (msg_sender e) (block_timestamp e) (metadata s id)
       else metadata s i) /\
    (forall a, getUserRetiredCredits s' a =
       if decide (a = msg_sender e)
       then getUserRetiredCredits s a ++ [id]
       else getUserRetiredCredits s a) /\
    nextCreditId s' = nextCreditId s /\
    events s' = events s ++
      [CreditsRetired (msg_sender e) amount id (block_timestamp e)].
Proof.
  intros [Hnn Hsum Hmax Hids Hent Hret] Hsnd Ham Hid Hunr Hroom.
  unfold balanceOf in Ham. unfold metadata in Hunr.
  destruct (retireCredits e amount id s) as [[[] s']|err] eqn:Hex.
  - unfold retireCredits in Hex. tok_split Hex. injection Hex as <-.
    eexists. split; [reflexivity|]. tok_simpl. bal_bounds. repeat split.
    + intros a. bal. rewrite H2. reflexivity.
    + rewrite unchecked_sub_exact by lia. reflexivity.
    + intros i. rewrite lookup_insert. repeat case_decide; subst; cbn; congruence.
    + intros a. rewrite lookup_insert. repeat case_decide; subst; cbn; congruence.
  - exfalso. unfold retireCredits in Hex. tok_split Hex; guards;
      congruence || lia.
Qed.

Lemma retire_needs e amount id s r :
  inv s -> retireCredits e amount id s = Ok r ->
  msg_sender e ≠ 0%N /\ amount <= balanceOf s (msg_sender e) /\
  id < nextCreditId s /\ isRetired (metadata s id) = false /\
  totalRetired s + amount <= MAX_UINT256.
Proof.
  intros [Hnn Hsum Hmax Hids Hent Hret] Hex.
  unfold balanceOf, metadata.
  unfold retireCredits in Hex. tok_split Hex. guards. repeat split; assumption.
Qed.

(** *** What no call changes *)

Lemma description_exec e c s u s' id :
  inv s -> id < nextCreditId s -> exec e c s = Ok (u, s') ->
  description (metadata s' id) = description (metadata s id) /\
  id < nextCreditId s'.
Proof.
  intros [Hnn Hsum Hmax Hids Hent Hret] Hid Hex. unfold metadata.
  destruct c; tok_split Hex; injection Hex as <- <-; cbn; try done.
  - rewrite lookup_insert_ne by lia. split; [reflexivity|lia].
  - rewrite lookup_insert. case_decide; subst; done.
Qed.

Lemma description_run tr s id :
  inv s -> valid_trace tr -> id < nextCreditId s ->
  description (metadata (run tr s) id) = description (metadata s id).
Proof.
  intros Hs Htr. revert s Hs.
  induction Htr as [|[e c] tr Hv _ IH]; intros s Hs Hid; [reflexivity|].
  change (run ((e, c) :: tr) s) with (run tr (step e c s)).
  assert (description (metadata (step e c s) id) = description (metadata s id)
          /\ id < nextCreditId (step e c s)) as [Hd Hid'].
  { unfold step.
    destruct (transact_cases (exec e c) s) as [(u&s'&Hex&->)|(err&_&->)];
      [eapply description_exec; eauto | done]. }
  rewrite IH; [exact Hd | by apply inv_step | exact Hid'].
Qed.

Lemma frozen_exec e c s u s' id :
  inv s -> isRetired (metadata s id) = true -> exec e c s = Ok (u, s') ->
  metadata s' id = metadata s id.
Proof.
  intros Hs Hr Hex. pose proof (retired_has_id s id Hs Hr) as Hlt.
  unfold metadata in *.
  destruct c; tok_split Hex; injection Hex as <- <-; cbn; try reflexivity.
  - rewrite lookup_insert_ne by lia. reflexivity.
  - rewrite lookup_insert. case_decide; [subst|reflexivity].
    guards. congruence.
Qed.

Lemma frozen_run tr s id :
  inv s -> valid_trace tr -> isRetired (metadata s id) = true ->
  metadata (run tr s) id = metadata s id.
Proof.
  intros Hs Htr. revert s Hs.
  induction Htr as [|[e c] tr Hv _ IH]; intros s Hs Hr; [reflexivity|].
  change (run ((e, c) :: tr) s) with (run tr (step e c s)).
  assert (metadata (step e c s) id = metadata s id) as Hm.
  { unfold step.
    destruct (transact_cases (exec e c) s) as [(u&s'&Hex&->)|(err&_&->)];
      [eapply frozen_exec; eauto | done]. }
  rewrite IH; [exact Hm | by apply inv_step | by rewrite Hm].
Qed.

Lemma after_issuance_reachable : reachable 1 after_issuance.
Proof. apply reach_step; [apply reach_init | reflexivity]. Qed.

(** X1. Issuance.  A holder of the minter role who calls [mintCredits] with
    a positive amount, a project name, a vintage that is not in the future
    and a recipient other than the zero address is given the next credit
    id, provided the counters have room.  The recipient's balance, the
    total supply and the project's total grow by the amount; the new
    credit's metadata is what was passed in, not retired; no other balance
    and no other credit is touched. *)
Theorem mintCredits_issues deployer e to amount pn pt loc v s :
  reachable deployer s -> msg_sender e ∈ minters s ->
  0 < amount -> pn ≠ EmptyString -> v <= block_timestamp e -> to ≠ 0%N ->
  nextCreditId s + 1 <= MAX_UINT256 ->
  getProjectCredits s pn + amount <= MAX_UINT256 ->
  totalSupply s + amount <= MAX_UINT256 ->
  exists s',
    mintCredits e to amount pn pt loc v s = Ok (nextCreditId s, s') /\
    getCreditMetadata s' (nextCreditId s) =
      Ok {| projectName := pn; projectType := pt; location := loc;
            vintage := v; timestamp := block_timestamp e;
            isRetired := false; retiredBy := 0%N; retiredAt := 0 |} /\
    isRetired' s' (nextCreditId s) = Ok false /\
    balanceOf s' to = balanceOf s to + amount /\
    (forall a, a ≠ to -> balanceOf s' a = balanceOf s a) /\
    totalSupply s' = totalSupply s + amount /\
    getProjectCredits s' pn = getProjectCredits s pn + amount /\
    (forall id, id ≠ nextCreditId s -> metadata s' id = metadata s id) /\
    totalRetired s' = totalRetired s.
Proof.
  intros Hs Hm Ha Hn Hv Ht Hid Hp Hts. apply reachable_inv in Hs.
  destruct (mint_ok e to amount pn pt loc v s Hs Hm Ha Hn Hv Ht Hid Hp Hts)
    as (s' & Hex & Hnext & Hsup & Hbal & Hproj & Hmeta & Hret & _).
  exists s'. split; [exact Hex|].
  assert (metadata s' (nextCreditId s) =
          {| projectName := pn; projectType := pt; location := loc;
             vintage := v; timestamp := block_timestamp e;
             isRetired := false; retiredBy := 0%N; retiredAt := 0 |}) as Hnew.
  { rewrite Hmeta. by rewrite decide_True. }
  assert ((nextCreditId s <? nextCreditId s') = true) as Hlt
    by (apply Z.ltb_lt; lia).
  unfold getCreditMetadata, isRetired'. rewrite Hlt, Hnew. cbn.
  repeat split; try assumption.
  - rewrite Hbal. by rewrite decide_True.
  - intros a Ha'. rewrite Hbal. rewrite decide_False by exact Ha'. lia.
  - intros id Hne. rewrite Hmeta. by rewrite decide_False.
Qed.

Lemma mintCredits_issues_witness :
  exists s',
    mintCredits (env_of 1) 2 10 "ProjectX" "Forestry" "BR" 1600000000
                (init 1) = Ok (0, s') /\
    balanceOf s' 2 = 10 /\ totalSupply s' = 10 /\
    isRetired' s' 0 = Ok false.
Proof.
  destruct (mintCredits_issues 1 (env_of 1) 2 10 "ProjectX" "Forestry" "BR"
              1600000000 (init 1))
    as (s' & Hex & _ & Hr & Hb & _ & Hs & _).
  - apply reach_init.
  - vm_compute. reflexivity.
  - lia.
  - discriminate.
  - by vm_compute.
  - discriminate.
  - by vm_compute.
  - by vm_compute.
  - by vm_compute.
  - exists s'. repeat split; assumption.
Defined.

(** X2. [mintCredits] returns exactly when the caller holds the minter
    role, the amount is positive, the project name is not empty, the
    vintage is not after the block's time, the recipient is not the zero
    address, and the credit counter, the project's total and the total
    supply have room for the addition. *)
Theorem mintCredits_succeeds_iff deployer e to amount pn pt loc v s :
  reachable deployer s ->
  (exists r, mintCredits e to amount pn pt loc v s = Ok r) <->
  (msg_sender e ∈ minters s /\ 0 < amount /\ pn ≠ EmptyString /\
   v <= block_timestamp e /\ to ≠ 0%N /\
   nextCreditId s + 1 <= MAX_UINT256 /\
   getProjectCredits s pn + amount <= MAX_UINT256 /\
   totalSupply s + amount <= MAX_UINT256).
Proof.
  intros Hs. apply reachable_inv in Hs. split.
  - intros [r Hex]. eapply mint_needs; eauto.
  - intros (Hm & Ha & Hn & Hv & Ht & Hid & Hp & Hts).
    destruct (mint_ok e to amount pn pt loc v s Hs Hm Ha Hn Hv Ht Hid Hp Hts)
      as (s' & Hex & _).
    eauto.
Qed.

Lemma mintCredits_succeeds_iff_witness :
  ~ exists r, mintCredits (env_of 2) 2 10 "ProjectX" "Forestry" "BR"
                          1600000000 after_issuance = Ok r.
Proof.
  intros Hex.
  apply (mintCredits_succeeds_iff 1 (env_of 2) 2 10 "ProjectX" "Forestry"
           "BR" 1600000000 after_issuance after_issuance_reachable) in Hex.
  destruct Hex as [Hm _]. vm_compute in Hm. discriminate Hm.
Defined.

(** X3. Credit ids are issuance numbers.  In every reachable state the next
    credit id is the number of issuances so far, metadata is stored for
    exactly the ids below it, and [getCreditMetadata] and [isRetired]
    answer "Invalid credit ID" for exactly the ids never issued. *)
Theorem credit_ids_are_issuance_numbers deployer s :
  reachable deployer s ->
  nextCreditId s = mint_count s /\
  (forall id, is_Some (creditMetadata s !! id) <-> 0 <= id < mint_count s) /\
  (forall id,
     (mint_count s <= id <->
      getCreditMetadata s id = Err (Revert "Invalid credit ID")) /\
     (mint_count s <= id <->
      isRetired' s id = Err (Revert "Invalid credit ID"))).
Proof.
  intros Hs. pose proof (reachable_inv _ _ Hs) as Hi.
  destruct (reachable_books _ _ Hs) as [Hnext Hlower Hdense Hcount _ _ _ _].
  split; [exact Hcount|]. rewrite <- Hcount. split.
  - intros id. split; [|apply Hdense].
    intros [md Hmd]. split; [eapply Hlower | eapply inv_ids]; eauto.
  - intros id. unfold getCreditMetadata, isRetired'.
    destruct (id <? nextCreditId s) eqn:Hlt; guards;
      split; (split; [lia || reflexivity | intros; discriminate || lia]).
Qed.

Lemma credit_ids_are_issuance_numbers_witness :
  nextCreditId after_scenario = 1 /\
  getCreditMetadata after_scenario 1 = Err (Revert "Invalid credit ID").
Proof.
  destruct (credit_ids_are_issuance_numbers 1 after_scenario
              scenario_reachable) as (Hn & _ & Hv).
  split; [rewrite Hn; reflexivity|].
  apply (Hv 1). by vm_compute.
Defined.

(** X4. The per-project totals add up to all that was ever minted: in every
    reachable state, whatever was burnt or retired since, the sum of
    [projectCredits] over all project names is the sum of the amounts of
    the issuance records. *)
Theorem project_credits_add_up deployer s :
  reachable deployer s -> gsum (projectCredits s) = total_minted s.
Proof.
  intros Hs. apply (b_projects s), (reachable_books deployer), Hs.
Qed.

Lemma project_credits_add_up_witness :
  getProjectCredits after_scenario "ProjectX" = 10 /\
  gsum (projectCredits after_scenario) = total_minted after_scenario.
Proof.
  split; [by vm_compute|].
  apply (project_credits_add_up 1 after_scenario scenario_reachable).
Defined.

(** X5. With the inherited [burn] and [burnFrom] entry points included, the
    books still never show more than was issued: in every reachable state
    the total supply is the sum of all balances, the balances and the
    retired total together do not exceed the amounts minted, and the
    retired total is the sum of the amounts of the retirement records. *)
Theorem circulation_bounded_by_issuance deployer s :
  reachable deployer s ->
  totalSupply s = sum_balances s /\
  sum_balances s + totalRetired s <= total_minted s /\
  totalRetired s = total_retired_logged s.
Proof.
  intros Hs. pose proof (reachable_inv _ _ Hs) as Hi.
  destruct (reachable_books _ _ Hs) as [_ _ _ _ _ Hburn Hlog _].
  split; [symmetry; apply (inv_supply s Hi)|]. split; assumption.
Qed.

Lemma circulation_bounded_by_issuance_witness :
  totalSupply after_scenario = 5 /\
  totalSupply after_scenario = sum_balances after_scenario /\
  sum_balances after_scenario + totalRetired after_scenario <=
    total_minted after_scenario /\
  totalRetired after_scenario = total_retired_logged after_scenario.
Proof.
  split; [by vm_compute|].
  apply (circulation_bounded_by_issuance 1 after_scenario scenario_reachable).
Defined.

(** X6. The description of a credit is fixed at issuance: project name,
    project type, location, vintage and issuance time of an issued credit
    are the same after any run of calls.  (A [MetadataUpdated] event is
    declared, and no function emits it.) *)
Theorem description_immutable deployer s tr id :
  reachable deployer s -> valid_trace tr -> id < nextCreditId s ->
  description (metadata (run tr s) id) = description (metadata s id).
Proof.
  intros Hs Htr Hid. apply description_run; [|assumption..].
  eapply reachable_inv, Hs.
Qed.

Lemma description_immutable_witness :
  description (metadata (run scenario after_scenario) 0) =
  ("ProjectX", "Forestry", "BR", 1600000000, 1700000000).
Proof.
  rewrite (description_immutable 1 after_scenario scenario 0
             scenario_reachable scenario_valid); by vm_compute.
Defined.

(** X7. A retirement is final: once a credit is retired, its whole
    metadata record, with who retired it and when, is the same after any
    run of calls. *)
Theorem retirement_record_final deployer s tr id :
  reachable deployer s -> valid_trace tr ->
  isRetired (metadata s id) = true ->
  metadata (run tr s) id = metadata s id.
Proof.
  intros Hs Htr Hr. apply frozen_run; [|assumption..].
  eapply reachable_inv, Hs.
Qed.

Lemma retirement_record_final_witness :
  retiredBy (metadata (run scenario after_scenario) 0) = 2%N /\
  retiredAt (metadata (run scenario after_scenario) 0) = 1700000000.
Proof.
  rewrite (retirement_record_final 1 after_scenario scenario 0
             scenario_reachable scenario_valid); by vm_compute.
Defined.

(** X8. Retirement.  A caller other than the zero address whose balance
    covers the amount retires an issued, unretired credit, provided the
    retired total has room: the caller's balance and the total supply
    drop by the amount, the retired total grows by it, the credit is
    marked retired by the caller at the block's time, the credit id is
    appended to the caller's list, and nothing else moves. *)
Theorem retireCredits_retires deployer e amount id s :
  reachable deployer s -> msg_sender e ≠ 0%N ->
  0 <= amount <= balanceOf s (msg_sender e) ->
  id < nextCreditId s -> isRetired (metadata s id) = false ->
  totalRetired s + amount <= MAX_UINT256 ->
  exists s',
    retireCredits e amount id s = Ok (tt, s') /\
    balanceOf s' (msg_sender e) = balanceOf s (msg_sender e) - amount /\
    (forall a, a ≠ msg_sender e -> balanceOf s' a = balanceOf s a) /\
    totalSupply s' = totalSupply s - amount /\
    totalRetired s' = totalRetired s + amount /\
    metadata s' id =
      mark_retired (msg_sender e) (block_timestamp e) (metadata s id) /\
    (forall i, i ≠ id -> metadata s' i = metadata s i) /\
    getUserRetiredCredits s' (msg_sender e) =
      getUserRetiredCredits s (msg_sender e) ++ [id] /\
    (forall a, a ≠ msg_sender e ->
       getUserRetiredCredits s' a = getUserRetiredCredits s a).
Proof.
  intros Hs Hsnd Ham Hid Hunr Hroom. apply reachable_inv in Hs.
  destruct (retire_ok e amount id s Hs Hsnd Ham Hid Hunr Hroom)
    as (s' & Hex & Hbal & Hsup & Hret & Hmeta & Hlist & _).
  exists s'. split; [exact Hex|]. repeat split; try assumption.
  - rewrite Hbal. by rewrite decide_True.
  - intros a Ha. rewrite Hbal. rewrite decide_False by exact Ha. lia.
  - rewrite Hmeta. by rewrite decide_True.
  - intros i Hi. rewrite Hmeta. by rewrite decide_False.
  - rewrite Hlist. by rewrite decide_True.
  - intros a Ha. rewrite Hlist. by rewrite decide_False.
Qed.

Lemma retireCredits_retires_witness :
  exists s',
    retireCredits (env_of 2) 5 0 after_issuance = Ok (tt, s') /\
    balanceOf s' 2 = 5 /\ totalRetired s' = 5 /\
    getUserRetiredCredits s' 2 = [0].
Proof.
  destruct (retireCredits_retires 1 (env_of 2) 5 0 after_issuance)
    as (s' & Hex & Hb & _ & _ & Hr & _ & _ & Hl & _).
  - exact after_issuance_reachable.
  - discriminate.
  - by vm_compute.
  - by vm_compute.
  - by vm_compute.
  - by vm_compute.
  - exists s'. split; [exact Hex|]. split; [exact Hb|]. split; [exact Hr|].
    exact Hl.
Defined.

(** X9. [retireCredits] returns exactly when the caller is not the zero
    address, the caller's balance covers the amount, the credit was issued
    and is not retired, and the retired total has room for the amount.
    The credit need not be one the caller's units came from. *)
Theorem retireCredits_succeeds_iff deployer e amount id s :
  reachable deployer s -> 0 <= amount ->
  (exists r, retireCredits e amount id s = Ok r) <->
  (msg_sender e ≠ 0%N /\ amount <= balanceOf s (msg_sender e) /\
   id < nextCreditId s /\ isRetired (metadata s id) = false /\
   totalRetired s + amount <= MAX_UINT256).
Proof.
  intros Hs Ha. apply reachable_inv in Hs. split.
  - intros [r Hex]. eapply retire_needs; eauto.
  - intros (Hsnd & Hbal & Hid & Hunr & Hroom).
    destruct (retire_ok e amount id s Hs Hsnd (conj Ha Hbal) Hid Hunr Hroom)
      as (s' & Hex & _).
    eauto.
Qed.

Lemma retireCredits_succeeds_iff_witness :
  exists r, retireCredits (env_of 2) 5 0 after_issuance = Ok r.
Proof.
  apply (retireCredits_succeeds_iff 1 (env_of 2) 5 0 after_issuance
           after_issuance_reachable); [lia|].
  repeat split; by vm_compute.
Defined.

(** X10. Retiring nothing retires the credit.  Any caller other than the
    zero address, whatever its balance, can call [retireCredits] with
    amount 0 on an issued, unretired credit: the call returns, no balance
    and no total moves, the credit is marked retired by that caller, and
    from then on every [retireCredits] on that credit aborts. *)
Theorem zero_retirement_blocks_credit deployer e id s :
  reachable deployer s -> valid_call e (RetireCredits 0 id) = true ->
  msg_sender e ≠ 0%N -> id < nextCreditId s ->
  isRetired (metadata s id) = false ->
  let s' := step e (RetireCredits 0 id) s in
  isRetired (metadata s' id) = true /\
  retiredBy (metadata s' id) = msg_sender e /\
  (forall a, balanceOf s' a = balanceOf s a) /\
  totalSupply s' = totalSupply s /\ totalRetired s' = totalRetired s /\
  forall tr e2 amount, valid_trace tr ->
    is_Err (retireCredits e2 amount id (run tr s')).
Proof.
  intros Hs Hv Hsnd Hid Hunr s'. pose proof (reachable_inv _ _ Hs) as Hi.
  pose proof (balance_range s (msg_sender e) Hi) as Hb.
  pose proof (inv_retired s Hi) as Hr0.
  assert (totalRetired s + 0 <= MAX_UINT256) as Hroom.
  { pose proof (b_retired_max s (reachable_books _ _ Hs)). lia. }
  destruct (retire_ok e 0 id s Hi Hsnd (conj (Z.le_refl 0) (proj1 Hb))
              Hid Hunr Hroom)
    as (s1 & Hex & Hbal & Hsup & Hret & Hmeta & _).
  assert (s' = s1) as ->.
  { unfold s', step, exec. by apply transact_ok in Hex. }
  assert (isRetired (metadata s1 id) = true) as Hnow.
  { rewrite Hmeta. by rewrite decide_True. }
  split; [exact Hnow|]. split; [rewrite Hmeta; by rewrite decide_True|].
  split; [intros a; rewrite Hbal; case_decide; lia|].
  split; [lia|]. split; [lia|].
  intros tr e2 amount Htr.
  assert (inv s1) as Hi1 by (eapply (inv_exec e (RetireCredits 0 id)); eauto).
  rewrite retire_retired;
    [exact I | by apply inv_run | by apply retired_run].
Qed.

Lemma zero_retirement_blocks_credit_witness :
  let s' := step (env_of 3) (RetireCredits 0 0) after_issuance in
  balanceOf after_issuance 3 = 0 /\
  retiredBy (metadata s' 0) = 3%N /\
  is_Err (retireCredits (env_of 2) 5 0 s').
Proof.
  intros s'.
  destruct (zero_retirement_blocks_credit 1 (env_of 3) 0 after_issuance)
    as (_ & Hby & _ & _ & _ & Hblock).
  - exact after_issuance_reachable.
  - reflexivity.
  - discriminate.
  - by vm_compute.
  - by vm_compute.
  - split; [by vm_compute|]. split; [exact Hby|].
    apply (Hblock [] (env_of 2) 5). constructor.
Defined.

(** X11. The per-user lists of retired credits are exact: in every
    reachable state a credit id is in a user's list exactly when the
    credit is retired and was retired by that user, and no list holds an
    id twice. *)
Theorem retired_lists_exact deployer s :
  reachable deployer s ->
  (forall a id,
     id ∈ getUserRetiredCredits s a <->
     isRetired (metadata s id) = true /\ retiredBy (metadata s id) = a) /\
  (forall a, NoDup (getUserRetiredCredits s a)).
Proof.
  intros Hs. destruct (reachable_retirements _ _ Hs) as [Hl Hn].
  split; assumption.
Qed.

Lemma retired_lists_exact_witness :
  0 ∈ getUserRetiredCredits after_scenario 2 /\
  NoDup (getUserRetiredCredits after_scenario 2).
Proof.
  destruct (retired_lists_exact 1 after_scenario scenario_reachable)
    as [Hl Hn].
  split; [|apply Hn]. apply Hl. split; by vm_compute.
Defined.

(** *** What the marketplace relies on when it takes credits in escrow *)

Lemma transferFrom_succeeds e from to v s :
  inv s -> 0 <= v -> msg_sender e ≠ 0%N -> from ≠ 0%N -> to ≠ 0%N ->
  v <= balanceOf s from -> v <= allowance s from (msg_sender e) ->
  exists s', transferFrom e from to v s = Ok (true, s').
Proof.
  intros [Hnn Hsum Hmax Hids Hent Hret] Hv Hsnd Hfrom Hto Hbal Hall.
  unfold balanceOf, allowance in *.
  destruct (transferFrom e from to v s) as [[b s']|err] eqn:Hex.
  - tok_split Hex; injection Hex as <- <-; eauto.
  - exfalso. tok_split Hex; guards; congruence || lia.
Qed.
End TokenMore.


(** ** The registry *)

Module RegistryProofs.
Import Registry.

Ltac reg_simpl_in H :=
  cbv beta zeta delta [project issuer registered projectsOf log] in H;
  cbn beta iota delta
    [admins verifiers projects issuers issuerProjects isRegisteredIssuer
     nextProjectId totalProjects totalVerifiedProjects events
     set_projects set_issuers set_issuerProjects set_isRegisteredIssuer
     set_nextProjectId set_totalProjects set_totalVerifiedProjects
     negb fst snd] in H.

Ltac reg_simpl :=
  cbv beta zeta delta [project issuer registered projectsOf log];
  cbn beta iota delta
    [admins verifiers projects issuers issuerProjects isRegisteredIssuer
     nextProjectId totalProjects totalVerifiedProjects events
     set_projects set_issuers set_issuerProjects set_isRegisteredIssuer
     set_nextProjectId set_totalProjects set_totalVerifiedProjects
     negb fst snd].

Ltac reg_unfold_in H :=
  cbv beta iota zeta delta
    [exec registerIssuer verifyIssuer registerProject verifyProject
     recordCreditsIssued deactivateProject onlyVerifier onlyAdmin emit
     mbind mret M_bind M_ret bind ret fail get gets modify
     require revert_if checked_add checked_sub checked_mul] in H;
  reg_simpl_in H.

Ltac reg_unfold :=
  cbv beta iota zeta delta
    [exec registerIssuer verifyIssuer registerProject verifyProject
     recordCreditsIssued deactivateProject onlyVerifier onlyAdmin emit
     mbind mret M_bind M_ret bind ret fail get gets modify
     require revert_if checked_add checked_sub checked_mul];
  reg_simpl.

Ltac reg_split H :=
  reg_unfold_in H;
  repeat (match type of H with
          | context [if ?c then _ else _] =>
              let E := fresh "G" in
              destruct c eqn:E; cbv beta iota zeta in H; reg_simpl_in H
          end);
  try discriminate H.

(** The invariant of the registry: project identifiers are dense below
    [nextProjectId], and the counter of verified projects counts them. *)
Record rinv (s : State) : Prop := {
  rinv_ids : forall id p, projects s !! id = Some p -> id < nextProjectId s;
  rinv_count : totalVerifiedProjects s = verified_count s
}.

Lemma rinv_init deployer : rinv (init deployer).
Proof.
  split; [intros id p; simpl; by rewrite lookup_empty | reflexivity].
Qed.

Lemma count_insert (m : gmap Z Project.t) id p :
  gsum ((fun p => if Project.isVerified p then 1 else 0) <$> <[id := p]> m) =
  gsum ((fun p => if Project.isVerified p then 1 else 0) <$> m)
  - (if Project.isVerified (default Project.empty (m !! id)) then 1 else 0)
  + (if Project.isVerified p then 1 else 0).
Proof.
  rewrite fmap_insert, gsum_insert, lookup_fmap.
  destruct (m !! id); reflexivity.
Qed.

Lemma rinv_exec e c s u s' : rinv s -> exec e c s = Ok (u, s') -> rinv s'.
Proof.
  intros [Hids Hcnt] Hex.
  destruct c; reg_split Hex; injection Hex as <- <-; guards.
  all: split; cbn;
    [ try exact Hids;
      let id := fresh "id" in let p := fresh "p" in
      intros id p; rewrite lookup_insert; case_decide;
      [intros _; lia | intros Hid; apply Hids in Hid; lia]
    | ].
  all: unfold verified_count in *; cbn; rewrite ?count_insert; cbn;
    try exact Hcnt.
  - (* registerProject: the slot at [nextProjectId] was never written *)
    destruct (projects s !! nextProjectId s) as [p|] eqn:Hp; cbn; [|lia].
    apply Hids in Hp. lia.
  - (* verifyProject *)
    rewrite G1. lia.
  - destruct (Project.isVerified _); lia.
  - destruct (Project.isVerified _); lia.
Qed.

Lemma rinv_step e c s : rinv s -> rinv (step e c s).
Proof.
  intros Hs. unfold step.
  destruct (transact_cases (exec e c) s) as [(u&s'&Hex&->)|(err&_&->)];
    [eapply rinv_exec; eauto | exact Hs].
Qed.

Lemma reachable_rinv deployer s : reachable deployer s -> rinv s.
Proof. induction 1; [apply rinv_init | by apply rinv_step]. Qed.

Lemma verified_has_id s id :
  rinv s -> Project.isVerified (project s id) = true -> id < nextProjectId s.
Proof.
  intros Hs. unfold project.
  destruct (projects s !! id) as [p|] eqn:Hid; simpl; [|discriminate].
  intros _. eapply rinv_ids; eauto.
Qed.

(** [verifyProject] by a verifier on a project that is verified already. *)
Lemma verifyProject_again e id s :
  rinv s -> msg_sender e ∈ verifiers s ->
  Project.isVerified (project s id) = true ->
  verifyProject e id s = Err (Revert "Already verified").
Proof.
  intros Hs Hv Hp. pose proof (verified_has_id s id Hs Hp) as Hlt.
  apply Z.ltb_lt in Hlt. apply (bool_decide_eq_true_2 _) in Hv.
  unfold project in Hp. reg_unfold.
  rewrite Hv. reg_simpl. rewrite Hlt. reg_simpl. rewrite Hp. reflexivity.
Qed.

(** [verifyIssuer] by a verifier on an issuer that is verified already:
    the call returns, and all it does is emit [IssuerVerified] again. *)
Lemma verifyIssuer_again e a s :
  msg_sender e ∈ verifiers s -> registered s a = true ->
  Issuer.isVerified (issuer s a) = true ->
  verifyIssuer e a s = Ok (tt, log (IssuerVerified a) s).
Proof.
  intros Hv Hr Hi. apply (bool_decide_eq_true_2 _) in Hv.
  unfold registered, issuer in *. reg_unfold.
  rewrite Hv. reg_simpl. rewrite Hr. reg_simpl.
  destruct (issuers s !! a) as [i|] eqn:Ha; simpl in Hi; [|discriminate].
  simpl. rewrite insert_id; [reflexivity|].
  rewrite Ha. destruct i; simpl in *. by rewrite Hi.
Qed.

(** A caller without the verifier role is turned away before either
    verification looks at the project or the issuer. *)
Lemma verify_unauthorized :
  reachable 1 after_scenario /\
  Project.isVerified (project after_scenario 0) = true /\
  registered after_scenario 2 = true /\
  Issuer.isVerified (issuer after_scenario 2) = true /\
  verifyProject (env_of 3) 0 after_scenario =
    Err (Custom "AccessControlUnauthorizedAccount") /\
  verifyIssuer (env_of 3) 2 after_scenario =
    Err (Custom "AccessControlUnauthorizedAccount").
Proof.
  split; [unfold after_scenario; repeat apply reach_step; apply reach_init|].
  repeat (match goal with |- _ /\ _ => split end); vm_compute; reflexivity.
Qed.

(** C7 (as amended). For a caller that holds the verifier role: calling
    [verifyProject] on a project that is already verified aborts with
    "Already verified" and the transaction leaves the state, hence
    [totalVerifiedProjects], as it was; that counter equals the number of
    verified projects in every reachable state, so no project is counted
    twice.  Calling [verifyIssuer] on a registered issuer that is already
    verified returns; the storage, hence the issuer's record, is what it
    was before, and only a further [IssuerVerified] event is logged. *)
Theorem verify_again deployer s e :
  reachable deployer s -> msg_sender e ∈ verifiers s ->
  totalVerifiedProjects s = verified_count s /\
  (forall id,
     Project.isVerified (project s id) = true ->
     verifyProject e id s = Err (Revert "Already verified") /\
     step e (VerifyProject id) s = s) /\
  (forall a,
     registered s a = true -> Issuer.isVerified (issuer s a) = true ->
     verifyIssuer e a s = Ok (tt, log (IssuerVerified a) s) /\
     issuer (step e (VerifyIssuer a) s) a = issuer s a /\
     totalVerifiedProjects (step e (VerifyIssuer a) s) =
       totalVerifiedProjects s).
Proof.
  intros Hs Hv. apply reachable_rinv in Hs.
  split; [apply rinv_count, Hs|]. split.
  - intros id Hp. pose proof (verifyProject_again e id s Hs Hv Hp) as Hex.
    split; [exact Hex|]. unfold step, exec. eapply transact_err, Hex.
  - intros a Hr Hi. pose proof (verifyIssuer_again e a s Hv Hr Hi) as Hex.
    split; [exact Hex|]. unfold step, exec.
    rewrite (transact_ok _ _ _ _ Hex). split; reflexivity.
Qed.

Lemma verify_again_witness :
  reachable 1 after_scenario /\
  msg_sender (env_of 1) ∈ verifiers after_scenario /\
  Project.isVerified (project after_scenario 0) = true /\
  registered after_scenario 2 = true /\
  Issuer.isVerified (issuer after_scenario 2) = true /\
  totalVerifiedProjects after_scenario = verified_count after_scenario /\
  verifyProject (env_of 1) 0 after_scenario =
    Err (Revert "Already verified") /\
  step (env_of 1) (VerifyProject 0) after_scenario = after_scenario /\
  verifyIssuer (env_of 1) 2 after_scenario =
    Ok (tt, log (IssuerVerified 2) after_scenario).
Proof.
  assert (reachable 1 after_scenario) as Hr.
  { unfold after_scenario. repeat apply reach_step. apply reach_init. }
  assert (msg_sender (env_of 1) ∈ verifiers after_scenario) as Hv.
  { apply (bool_decide_eq_true_1 _). vm_compute. reflexivity. }
  assert (Project.isVerified (project after_scenario 0) = true) as Hp
    by (vm_compute; reflexivity).
  assert (registered after_scenario 2 = true) as Hg
    by (vm_compute; reflexivity).
  assert (Issuer.isVerified (issuer after_scenario 2) = true) as Hi
    by (vm_compute; reflexivity).
  destruct (verify_again 1 after_scenario (env_of 1) Hr Hv)
    as (Hcount & Hproj & Hiss).
  destruct (Hproj 0 Hp) as [Hp1 Hp2].
  destruct (Hiss 2%N Hg Hi) as (Hi1 & _).
  repeat (match goal with |- _ /\ _ => split end); assumption.
Defined.

End RegistryProofs.
(** ** The registry: counters, lists and what stays fixed *)

Module RegistryMore.
Import Registry RegistryProofs.

Record rbooks (s : State) : Prop := {
  rb_next : 0 <= nextProjectId s <= MAX_UINT256;
  rb_total : totalProjects s = nextProjectId s;
  rb_lower : forall id p, projects s !! id = Some p -> 0 <= id;
  rb_dense : forall id,
    0 <= id < nextProjectId s -> is_Some (projects s !! id);
  rb_split : verified_count s + unverified_count s = totalProjects s;
  rb_unregistered : forall a,
    registered s a = false ->
    issuers s !! a = None /\ issuerProjects s !! a = None;
  rb_active : forall a,
    registered s a = true ->
    Issuer.isActive (issuer s a) = true /\
    Issuer.issuerAddress (issuer s a) = a;
  rb_counted : forall a,
    Issuer.projectsRegistered (issuer s a) =
    Z.of_nat (length (projectsOf s a));
  rb_owned : forall a id,
    id ∈ projectsOf s a <->
    0 <= id < nextProjectId s /\ Project.owner (project s id) = a;
  rb_nodup : forall a, NoDup (projectsOf s a);
  rb_issued : forall id,
    Project.totalCreditsIssued (project s id) = total_issued_logged s id
}.

Lemma uncount_insert (m : gmap Z Project.t) id p :
  gsum ((fun p => if Project.isVerified p then 0 else 1) <$> <[id := p]> m) =
  gsum ((fun p => if Project.isVerified p then 0 else 1) <$> m)
  - match m !! id with
    | Some q => if Project.isVerified q then 0 else 1
    | None => 0
    end
  + (if Project.isVerified p then 0 else 1).
Proof.
  rewrite fmap_insert, gsum_insert, lookup_fmap.
  destruct (m !! id); reflexivity.
Qed.

Lemma count_insert' (m : gmap Z Project.t) id p :
  gsum ((fun p => if Project.isVerified p then 1 else 0) <$> <[id := p]> m) =
  gsum ((fun p => if Project.isVerified p then 1 else 0) <$> m)
  - match m !! id with
    | Some q => if Project.isVerified q then 1 else 0
    | None => 0
    end
  + (if Project.isVerified p then 1 else 0).
Proof.
  rewrite fmap_insert, gsum_insert, lookup_fmap.
  destruct (m !! id); reflexivity.
Qed.

Lemma both_counts_insert (m : gmap Z Project.t) id p :
  gsum ((fun p => if Project.isVerified p then 1 else 0) <$> <[id := p]> m) +
  gsum ((fun p => if Project.isVerified p then 0 else 1) <$> <[id := p]> m) =
  gsum ((fun p => if Project.isVerified p then 1 else 0) <$> m) +
  gsum ((fun p => if Project.isVerified p then 0 else 1) <$> m) +
  (if m !! id is Some _ then 0 else 1).
Proof.
  rewrite count_insert', uncount_insert.
  destruct (m !! id) as [q|]; [destruct (Project.isVerified q)|];
    destruct (Project.isVerified p); lia.
Qed.

Lemma issued_snoc id l ev :
  fold_right (fun ev acc => issued_amount id ev + acc) 0 (l ++ [ev]) =
  fold_right (fun ev acc => issued_amount id ev + acc) 0 l +
  issued_amount id ev.
Proof. induction l as [|x l IH]; simpl; lia. Qed.

Lemma rbooks_init deployer : rbooks (init deployer).
Proof.
  split; unfold verified_count, unverified_count, registered, issuer,
    projectsOf, project, total_issued_logged; cbn; try done.
  - intros id Hid. lia.
  - intros a id. rewrite lookup_empty. cbn.
    split; [intros H; inversion H | intros [? _]; lia].
  - intros a. rewrite lookup_empty. constructor.
Qed.

Lemma rbooks_exec e c s u s' :
  rinv s -> rbooks s -> valid_call e c = true ->
  exec e c s = Ok (u, s') -> rbooks s'.
Proof.
  intros [Hids _]
    [Hnext Htot Hlow Hdense Hsplit Hunreg Hact Hcnt Hown Hnd Hiss] Hv Hex.
  unfold valid_call in Hv.
  unfold verified_count, unverified_count, registered, issuer,
    projectsOf, project, total_issued_logged in *.
  destruct c; reg_split Hex; injection Hex as <- <-; guards;
    unfold is_uint256 in *.
  all: split; unfold verified_count, unverified_count, registered, issuer,
    projectsOf, project, total_issued_logged; cbn; try done; try lia.
  (* the slots written are slots of registered projects *)
  all: try solve [intros id0 p; rewrite lookup_insert; case_decide;
                  [intros _; lia | apply Hlow]].
  all: try solve [intros id0 Hid0; rewrite lookup_insert; case_decide;
                  [done | apply Hdense; lia]].
  (* the two counts *)
  all: try solve [
    rewrite both_counts_insert;
    match goal with
    | |- context [projects ?s0 !! ?k] =>
        let Hq := fresh "Hq" in
        destruct (projects s0 !! k) as [q|] eqn:Hq;
        [ try (apply Hids in Hq); lia
        | try lia; destruct (Hdense k) as [q Hq']; [lia | congruence] ]
    end].
  (* ownership *)
  all: try solve [intros a id0; rewrite Hown, lookup_insert; case_decide;
                  subst; cbn; reflexivity].
  (* the amounts recorded *)
  all: try solve [intros id0; rewrite issued_snoc, ?lookup_insert;
                  repeat case_decide; subst; cbn; rewrite <- ?Hiss;
                  cbn; try rewrite decide_True by done;
                  try rewrite decide_False by done; try lia;
                  try (match goal with
                       | |- context [projects ?s0 !! nextProjectId ?s0] =>
                           destruct (projects s0 !! nextProjectId s0)
                             as [q|] eqn:Hq;
                           [apply Hids in Hq; lia | cbn; lia]
                       end)].
  (* the issuers *)
  all: try solve [intros a; rewrite ?lookup_insert; repeat case_decide;
                  subst; cbn; intros Ha; try done; try congruence;
                  solve [apply Hunreg; exact Ha | apply Hact; exact Ha]].
  all: try solve [intros a; rewrite ?lookup_insert; repeat case_decide;
                  subst; cbn; try apply Hcnt; try congruence;
                  try (destruct (Hunreg _ ltac:(eassumption)) as [_ ->];
                       reflexivity);
                  rewrite length_app, Nat2Z.inj_add, <- Hcnt; cbn; lia].
  - (* registerProject: one more unverified project *)
    rewrite both_counts_insert.
    destruct (projects s !! nextProjectId s) as [q|] eqn:Hq;
      [apply Hids in Hq|]; lia.
  - (* ... in the list of its owner, and in no other list *)
    assert (forall a, nextProjectId s ∉ default [] (issuerProjects s !! a))
      as Hfresh by (intros a [? _]%Hown; lia).
    intros a id0. rewrite !lookup_insert.
    destruct (decide (msg_sender e = a)) as [<-|Ha],
             (decide (nextProjectId s = id0)) as [<-|Hi]; cbn.
    + rewrite elem_of_app, list_elem_of_singleton. intuition lia.
    + rewrite elem_of_app, list_elem_of_singleton, Hown. intuition lia.
    + split; [intros []%Hfresh | intros [_ ?]; congruence].
    + rewrite Hown. intuition lia.
  - intros a. rewrite lookup_insert. case_decide; [subst; cbn|apply Hnd].
    apply NoDup_app. split; [apply Hnd|]. split; [|apply NoDup_singleton].
    intros x Hx ->%list_elem_of_singleton. apply Hown in Hx. lia.
Qed.

Lemma rbooks_step e c s :
  rinv s -> rbooks s -> valid_call e c = true -> rbooks (step e c s).
Proof.
  intros Hi Hb Hv. unfold step.
  destruct (transact_cases (exec e c) s) as [(u&s'&Hex&->)|(err&_&->)];
    [eapply rbooks_exec; eauto | exact Hb].
Qed.

Lemma abi_reachable_reachable deployer s :
  abi_reachable deployer s -> reachable deployer s.
Proof. induction 1; [constructor | by constructor]. Qed.

Lemma abi_reachable_rinv deployer s : abi_reachable deployer s -> rinv s.
Proof. intros Hs. eapply reachable_rinv, abi_reachable_reachable, Hs. Qed.

Lemma abi_reachable_rbooks deployer s : abi_reachable deployer s -> rbooks s.
Proof.
  induction 1 as [|s e c Hs IH Hv]; [apply rbooks_init|].
  apply rbooks_step; [eapply abi_reachable_rinv; eauto | exact IH | exact Hv].
Qed.

Lemma abi_reachable_run deployer tr s :
  abi_reachable deployer s -> valid_trace tr ->
  abi_reachable deployer (run tr s).
Proof.
  intros Hs Htr. revert s Hs.
  induction Htr as [|[e c] tr Hv _ IH]; intros s Hs; simpl; [exact Hs|].
  apply IH. by constructor.
Qed.

Lemma after_registration_reachable : abi_reachable 1 after_registration.
Proof. repeat (apply areach_step; [|reflexivity]). apply areach_init. Qed.

Lemma after_scenario_reachable : abi_reachable 1 after_scenario.
Proof. repeat (apply areach_step; [|reflexivity]). apply areach_init. Qed.

Lemma unverified_nonneg (m : gmap Z Project.t) :
  nonneg_map ((fun p => if Project.isVerified p then 0 else 1) <$> m).
Proof.
  intros k v. rewrite lookup_fmap.
  destruct (m !! k) as [p|]; cbn; [|discriminate].
  intros [= <-]. destruct (Project.isVerified p); lia.
Qed.

Lemma verified_nonneg (m : gmap Z Project.t) :
  nonneg_map ((fun p => if Project.isVerified p then 1 else 0) <$> m).
Proof.
  intros k v. rewrite lookup_fmap.
  destruct (m !! k) as [p|]; cbn; [|discriminate].
  intros [= <-]. destruct (Project.isVerified p); lia.
Qed.

(** X12. The counters of the registry agree with its storage.  In every
    state reached by well-formed transactions, [totalProjects] is the next
    project id, a project is stored for exactly the ids below it,
    [totalVerifiedProjects] is the number of stored projects whose verified
    flag is set, and together with the number of unverified ones it makes
    up [totalProjects]. *)
Theorem project_counters_agree deployer s :
  abi_reachable deployer s ->
  totalProjects s = nextProjectId s /\
  (forall id, is_Some (projects s !! id) <-> 0 <= id < nextProjectId s) /\
  totalVerifiedProjects s = verified_count s /\
  verified_count s + unverified_count s = totalProjects s /\
  0 <= totalVerifiedProjects s <= totalProjects s.
Proof.
  intros Hs. destruct (abi_reachable_rinv _ _ Hs) as [Hids Hcount].
  destruct (abi_reachable_rbooks _ _ Hs)
    as [Hnext Htot Hlow Hdense Hsplit _ _ _ _ _ _].
  pose proof (gsum_nonneg _ (unverified_nonneg (projects s))) as Hu.
  pose proof (gsum_nonneg _ (verified_nonneg (projects s))) as Hv.
  fold (unverified_count s) in Hu. fold (verified_count s) in Hv.
  split; [exact Htot|]. split; [|split; [exact Hcount|split; [exact Hsplit|lia]]].
  intros id. split; [|apply Hdense].
  intros [p Hp]. split; [eapply Hlow | eapply Hids]; eauto.
Qed.

Lemma project_counters_agree_witness :
  totalProjects after_scenario = 1 /\
  totalVerifiedProjects after_scenario = verified_count after_scenario /\
  0 <= totalVerifiedProjects after_scenario <= totalProjects after_scenario.
Proof.
  destruct (project_counters_agree 1 after_scenario after_scenario_reachable)
    as (Ht & _ & Hc & _ & Hle).
  split; [by vm_compute|]. split; assumption.
Defined.

(** X13. The per-issuer project lists are exact.  In every state reached by
    well-formed transactions, an issuer's [projectsRegistered] counter is
    the length of its project list, no list holds an id twice, and a
    registered project id is in an account's list exactly when that
    account is the project's owner. *)
Theorem issuer_project_lists_exact deployer s a :
  abi_reachable deployer s ->
  Issuer.projectsRegistered (issuer s a) =
    Z.of_nat (length (getIssuerProjects s a)) /\
  NoDup (getIssuerProjects s a) /\
  (forall id, id ∈ getIssuerProjects s a <->
              0 <= id < nextProjectId s /\ Project.owner (project s id) = a).
Proof.
  intros Hs. destruct (abi_reachable_rbooks _ _ Hs)
    as [_ _ _ _ _ _ _ Hcnt Hown Hnd _].
  unfold getIssuerProjects. split; [apply Hcnt|]. split; [apply Hnd|].
  intros id. apply Hown.
Qed.

Lemma issuer_project_lists_exact_witness :
  getIssuerProjects after_scenario 2 = [0] /\
  Issuer.projectsRegistered (issuer after_scenario 2) =
    Z.of_nat (length (getIssuerProjects after_scenario 2)) /\
  (0 ∈ getIssuerProjects after_scenario 2 <->
   0 <= 0 < nextProjectId after_scenario /\
   Project.owner (project after_scenario 0) = 2%N).
Proof.
  destruct (issuer_project_lists_exact 1 after_scenario 2
              after_scenario_reachable) as (Hc & _ & Ho).
  split; [by vm_compute|]. split; [exact Hc|apply Ho].
Defined.

(** X14. The credits recorded for a project are those of the log: in every
    state reached by well-formed transactions, a project's
    [totalCreditsIssued] is the sum of the amounts of the [CreditsIssued]
    records that name it. *)
Theorem credits_issued_match_records deployer s id :
  abi_reachable deployer s ->
  Project.totalCreditsIssued (project s id) = total_issued_logged s id.
Proof.
  intros Hs. apply (rb_issued s), (abi_reachable_rbooks deployer), Hs.
Qed.

Lemma after_recording_reachable : abi_reachable 1 after_recording.
Proof.
  repeat (apply areach_step; [|reflexivity]). apply areach_init.
Qed.

Lemma after_deactivation_reachable : abi_reachable 1 after_deactivation.
Proof.
  apply areach_step; [apply after_recording_reachable | reflexivity].
Qed.

Lemma credits_issued_match_records_witness :
  Project.totalCreditsIssued (project after_recording 0) = 150 /\
  Project.totalCreditsIssued (project after_recording 0) =
    total_issued_logged after_recording 0.
Proof.
  split; [by vm_compute|].
  apply (credits_issued_match_records 1 after_recording 0
           after_recording_reachable).
Defined.

(** *** What registration fixes, and what never comes back *)

Lemma project_exec e c s u s' id :
  rinv s -> id < nextProjectId s -> valid_call e c = true ->
  exec e c s = Ok (u, s') ->
  id < nextProjectId s' /\
  project_description (project s' id) = project_description (project s id) /\
  (Project.isVerified (project s id) = true ->
   Project.isVerified (project s' id) = true) /\
  (Project.isActive (project s id) = false ->
   Project.isActive (project s' id) = false /\
   Project.totalCreditsIssued (project s' id) =
     Project.totalCreditsIssued (project s id)) /\
  Project.totalCreditsIssued (project s id) <=
    Project.totalCreditsIssued (project s' id).
Proof.
  intros [Hids _] Hid Hv Hex. unfold valid_call in Hv. unfold project in *.
  destruct c; reg_split Hex; injection Hex as <- <-; guards;
    unfold is_uint256 in *; cbn; rewrite ?lookup_insert;
    repeat case_decide; subst; cbn;
    repeat split; try done; try lia; try congruence.
Qed.

Lemma project_step e c s id :
  rinv s -> id < nextProjectId s -> valid_call e c = true ->
  id < nextProjectId (step e c s) /\
  project_description (project (step e c s) id) =
    project_description (project s id) /\
  (Project.isVerified (project s id) = true ->
   Project.isVerified (project (step e c s) id) = true) /\
  (Project.isActive (project s id) = false ->
   Project.isActive (project (step e c s) id) = false /\
   Project.totalCreditsIssued (project (step e c s) id) =
     Project.totalCreditsIssued (project s id)) /\
  Project.totalCreditsIssued (project s id) <=
    Project.totalCreditsIssued (project (step e c s) id).
Proof.
  intros Hs Hid Hv. unfold step.
  destruct (transact_cases (exec e c) s) as [(u&s'&Hex&->)|(err&_&->)];
    [eapply project_exec; eauto | repeat split; done || lia].
Qed.

Lemma project_run tr s id :
  rinv s -> id < nextProjectId s -> valid_trace tr ->
  project_description (project (run tr s) id) =
    project_description (project s id) /\
  (Project.isVerified (project s id) = true ->
   Project.isVerified (project (run tr s) id) = true) /\
  (Project.isActive (project s id) = false ->
   Project.isActive (project (run tr s) id) = false /\
   Project.totalCreditsIssued (project (run tr s) id) =
     Project.totalCreditsIssued (project s id)) /\
  Project.totalCreditsIssued (project s id) <=
    Project.totalCreditsIssued (project (run tr s) id).
Proof.
  intros Hs Hid Htr. revert s Hs Hid.
  induction Htr as [|[e c] tr Hv _ IH]; intros s Hs Hid;
    [repeat split; done || lia|].
  change (run ((e, c) :: tr) s) with (run tr (step e c s)).
  destruct (project_step e c s id Hs Hid Hv) as (Hid' & Hd & Hver & Hina & Hle).
  destruct (IH (step e c s) (rinv_step e c s Hs) Hid')
    as (Hd' & Hver' & Hina' & Hle').
  split; [congruence|]. split; [auto|]. split; [|lia].
  intros Hoff. destruct (Hina Hoff) as [Hoff1 Heq1].
  destruct (Hina' Hoff1) as [Hoff2 Heq2]. split; [exact Hoff2|congruence].
Qed.

(** X15. What registration fixes of a project stays fixed, and its flags
    move one way only.  For a registered project, after any run of
    well-formed transactions: name, type, location, owner, registration
    time and metadata URI are unchanged; a verified project is still
    verified; a deactivated project is still inactive; and the credits
    recorded for it have not decreased. *)
Theorem project_record_monotone deployer s tr id :
  abi_reachable deployer s -> valid_trace tr -> id < nextProjectId s ->
  project_description (project (run tr s) id) =
    project_description (project s id) /\
  (Project.isVerified (project s id) = true ->
   Project.isVerified (project (run tr s) id) = true) /\
  (Project.isActive (project s id) = false ->
   Project.isActive (project (run tr s) id) = false) /\
  Project.totalCreditsIssued (project s id) <=
    Project.totalCreditsIssued (project (run tr s) id).
Proof.
  intros Hs Htr Hid.
  destruct (project_run tr s id (abi_reachable_rinv _ _ Hs) Hid Htr)
    as (Hd & Hv & Ha & Hle).
  split; [exact Hd|]. split; [exact Hv|]. split; [|exact Hle].
  intros Hoff. apply Ha, Hoff.
Qed.

Lemma project_record_monotone_witness :
  let tr := [(env_of 1, RecordCreditsIssued 0 100);
             (env_of 1, DeactivateProject 0)] in
  Project.owner (project (run tr after_scenario) 0) = 2%N /\
  Project.isVerified (project (run tr after_scenario) 0) = true.
Proof.
  intros tr.
  destruct (project_record_monotone 1 after_scenario tr 0) as (Hd & Hv & _).
  - exact after_scenario_reachable.
  - repeat constructor.
  - by vm_compute.
  - split; [|apply Hv; by vm_compute].
    apply (f_equal (fun d => d.1.1.2)) in Hd. exact Hd.
Defined.

(** X16. Deactivation is final.  Once a registered project is inactive,
    then after any run of well-formed transactions [recordCreditsIssued]
    for it aborts, with "Project not active" when the caller is an admin,
    and the credits recorded for it are what they were. *)
Theorem deactivated_project_takes_no_credits deployer s tr id :
  abi_reachable deployer s -> valid_trace tr -> id < nextProjectId s ->
  Project.isActive (project s id) = false ->
  Project.totalCreditsIssued (project (run tr s) id) =
    Project.totalCreditsIssued (project s id) /\
  forall e amount,
    is_Err (recordCreditsIssued e id amount (run tr s)) /\
    (msg_sender e ∈ admins (run tr s) ->
     recordCreditsIssued e id amount (run tr s) =
       Err (Revert "Project not active")).
Proof.
  intros Hs Htr Hid Hoff.
  pose proof (abi_reachable_rinv _ _ Hs) as Hi.
  destruct (project_run tr s id Hi Hid Htr) as (_ & _ & Hina & _).
  destruct (Hina Hoff) as [Hoff' Heq]. split; [exact Heq|].
  assert (id < nextProjectId (run tr s)) as Hid'.
  { clear -Hi Hid Htr. revert s Hi Hid.
    induction Htr as [|[e c] tr Hv _ IH]; intros s Hi Hid; [exact Hid|].
    change (run ((e, c) :: tr) s) with (run tr (step e c s)).
    apply IH; [by apply rinv_step|].
    by destruct (project_step e c s id Hi Hid Hv) as [? _]. }
  apply Z.ltb_lt in Hid'. unfold project in Hoff'.
  intros e amount. reg_unfold.
  destruct (bool_decide (msg_sender e ∈ admins (run tr s))) eqn:Hadm; cbn.
  - rewrite Hid'. reg_simpl. rewrite Hoff'. cbn. split; [exact I|reflexivity].
  - split; [exact I|]. intros Hin. apply bool_decide_eq_false in Hadm. done.
Qed.

Lemma deactivated_project_takes_no_credits_witness :
  let tr := [(env_of 1, VerifyIssuer 2);
             (env_of 2, RegisterProject "ProjectY" "Solar" "IN" "ipfs://y")] in
  Project.totalCreditsIssued (project after_deactivation 0) = 150 /\
  Project.totalCreditsIssued (project (run tr after_deactivation) 0) =
    Project.totalCreditsIssued (project after_deactivation 0) /\
  recordCreditsIssued (env_of 1) 0 7 (run tr after_deactivation) =
    Err (Revert "Project not active").
Proof.
  intros tr.
  destruct (deactivated_project_takes_no_credits 1 after_deactivation tr 0)
    as [Hsame Hrej].
  - exact after_deactivation_reachable.
  - repeat constructor.
  - by vm_compute.
  - by vm_compute.
  - split; [by vm_compute|]. split; [exact Hsame|].
    apply (Hrej (env_of 1) 7). by vm_compute.
Defined.

(** *** Registering and verifying *)

Lemma name_nonempty (name : string) :
  name ≠ EmptyString <-> (0 <? String.length name)%nat = true.
Proof. destruct name; cbn; split; congruence. Qed.

Lemma bounded_nodup_length (l : list Z) n :
  0 <= n -> NoDup l -> (forall x, x ∈ l -> 0 <= x < n) ->
  Z.of_nat (length l) <= n.
Proof.
  intros Hn Hnd Hin.
  assert (l ⊆+ seqZ 0 n) as Hsub.
  { apply NoDup_submseteq; [exact Hnd|].
    intros x Hx. apply elem_of_seqZ. specialize (Hin x Hx). lia. }
  apply submseteq_length in Hsub. rewrite length_seqZ in Hsub. lia.
Qed.

Lemma registerProject_ok e name ptype loc uri s :
  rinv s -> rbooks s -> registered s (msg_sender e) = true ->
  name ≠ EmptyString -> nextProjectId s + 1 <= MAX_UINT256 ->
  exists s',
    registerProject e name ptype loc uri s = Ok (nextProjectId s, s') /\
    (forall id, project s' id =
       if decide (id = nextProjectId s)
       then {| Project.name := name; Project.projectType := ptype;
               Project.location := loc; Project.owner := msg_sender e;
               Project.registeredAt := block_timestamp e;
               Project.isVerified := false; Project.isActive := true;
               Project.totalCreditsIssued := 0;
               Project.metadataURI := uri |}
       else project s id) /\
    (forall a, projectsOf s' a =
       if decide (a = msg_sender e)
       then projectsOf s a ++ [nextProjectId s]
       else projectsOf s a) /\
    nextProjectId s' = nextProjectId s + 1 /\
    totalProjects s' = totalProjects s + 1 /\
    totalVerifiedProjects s' = totalVerifiedProjects s.
Proof.
  intros [Hids _] [Hnext Htot _ _ _ _ Hact Hcnt Hown Hnd _] Hreg Hn Hroom.
  apply name_nonempty in Hn.
  destruct (Hact _ Hreg) as [Hon _].
  pose proof (bounded_nodup_length _ (nextProjectId s) (proj1 Hnext)
                (Hnd (msg_sender e))) as Hlen.
  specialize (Hcnt (msg_sender e)).
  assert (Issuer.projectsRegistered (issuer s (msg_sender e)) + 1
          <= MAX_UINT256) as Hc.
  { rewrite Hcnt. etransitivity; [|exact Hroom].
    apply Z.add_le_mono_r, Hlen. intros x Hx. by apply Hown in Hx as [? _]. }
  unfold registered, issuer, projectsOf in *.
  destruct (registerProject e name ptype loc uri s) as [[r s']|err] eqn:Hex.
  - unfold registerProject in Hex. reg_split Hex. injection Hex as <- <-.
    eexists. split; [reflexivity|]. unfold project, projectsOf. cbn.
    repeat split.
    + intros id. rewrite lookup_insert. repeat case_decide; subst; cbn; congruence.
    + intros a. rewrite lookup_insert. repeat case_decide; subst; cbn; congruence.
  - exfalso. unfold registerProject in Hex. reg_split Hex; guards;
      congruence || lia.
Qed.

(** X17. A registered issuer can always register a project.  In every
    state reached by well-formed transactions, [registerProject] called by
    a registered issuer with a name that is not empty returns the next
    project id, unless that counter is at its maximum: the issuer is
    active (no function deactivates an issuer) and its project counter has
    room.  The project is stored as passed in, owned by the caller,
    active, unverified and with no credits recorded; its id is appended to
    the caller's list; no other project is touched. *)
Theorem registerProject_registers deployer e name ptype loc uri s :
  abi_reachable deployer s -> registered s (msg_sender e) = true ->
  name ≠ EmptyString -> nextProjectId s + 1 <= MAX_UINT256 ->
  exists s',
    registerProject e name ptype loc uri s = Ok (nextProjectId s, s') /\
    getProject s' (nextProjectId s) =
      Ok {| Project.name := name; Project.projectType := ptype;
            Project.location := loc; Project.owner := msg_sender e;
            Project.registeredAt := block_timestamp e;
            Project.isVerified := false; Project.isActive := true;
            Project.totalCreditsIssued := 0; Project.metadataURI := uri |} /\
    isProjectVerified s' (nextProjectId s) = Ok false /\
    getIssuerProjects s' (msg_sender e) =
      getIssuerProjects s (msg_sender e) ++ [nextProjectId s] /\
    nextProjectId s' = nextProjectId s + 1 /\
    totalProjects s' = totalProjects s + 1 /\
    totalVerifiedProjects s' = totalVerifiedProjects s /\
    (forall id, id ≠ nextProjectId s -> project s' id = project s id).
Proof.
  intros Hs Hreg Hn Hroom.
  destruct (registerProject_ok e name ptype loc uri s
              (abi_reachable_rinv _ _ Hs) (abi_reachable_rbooks _ _ Hs)
              Hreg Hn Hroom)
    as (s' & Hex & Hproj & Hlist & Hnext & Htot & Hver).
  exists s'. split; [exact Hex|].
  assert ((nextProjectId s <? nextProjectId s') = true) as Hlt
    by (apply Z.ltb_lt; lia).
  unfold getProject, isProjectVerified, getIssuerProjects.
  rewrite Hlt, Hproj, Hlist, !decide_True by reflexivity. cbn.
  repeat split; try assumption.
  intros id Hne. rewrite Hproj. by rewrite decide_False.
Qed.

Lemma registerProject_registers_witness :
  exists s',
    registerProject (env_of 2) "ProjectY" "Solar" "IN" "ipfs://y"
                    after_scenario = Ok (1, s') /\
    getIssuerProjects s' 2 = [0; 1] /\ isProjectVerified s' 1 = Ok false.
Proof.
  destruct (registerProject_registers 1 (env_of 2) "ProjectY" "Solar" "IN"
              "ipfs://y" after_scenario)
    as (s' & Hex & _ & Hv & Hl & _).
  - exact after_scenario_reachable.
  - by vm_compute.
  - discriminate.
  - by vm_compute.
  - exists s'. split; [exact Hex|]. split; [exact Hl | exact Hv].
Defined.

Lemma verifyProject_ok e id s :
  rinv s -> rbooks s -> msg_sender e ∈ verifiers s ->
  0 <= id < nextProjectId s -> Project.isVerified (project s id) = false ->
  exists s',
    verifyProject e id s = Ok (tt, s') /\
    (forall j, project s' j =
       if decide (j = id) then Project.set_isVerified true (project s id)
       else project s j) /\
    totalVerifiedProjects s' = totalVerifiedProjects s + 1 /\
    nextProjectId s' = nextProjectId s /\
    totalProjects s' = totalProjects s /\
    events s' = events s ++ [ProjectVerified id (msg_sender e)].
Proof.
  intros [Hids Hcount] [Hnext Htot _ Hdense Hsplit _ _ _ _ _ _] Hver Hid Hunv.
  assert (totalVerifiedProjects s + 1 <= MAX_UINT256) as Hroom.
  { (* the project is one of the unverified ones *)
    pose proof (gsum_lookup_le _ id (unverified_nonneg (projects s))) as Hle.
    rewrite lookup_fmap in Hle. fold (unverified_count s) in Hle.
    destruct (Hdense id Hid) as [p Hp]. unfold project in Hunv.
    rewrite Hp in Hle, Hunv. cbn in Hle, Hunv. rewrite Hunv in Hle. lia. }
  unfold project in *.
  destruct (verifyProject e id s) as [[[] s']|err] eqn:Hex.
  - unfold verifyProject in Hex. reg_split Hex. injection Hex as <-.
    eexists. split; [reflexivity|]. unfold project. cbn. repeat split.
    intros j. rewrite lookup_insert. repeat case_decide; subst; cbn; congruence.
  - exfalso. unfold verifyProject in Hex. reg_split Hex; guards;
      congruence || lia.
Qed.

(** X18. A verifier can always verify a registered, unverified project.  In
    every state reached by well-formed transactions the call returns: the
    counter of verified projects cannot overflow, and the project need not
    be active.  The project's verified flag is set, the counter grows by
    one, and nothing else about any project changes. *)
Theorem verifyProject_verifies deployer e id s :
  abi_reachable deployer s -> msg_sender e ∈ verifiers s ->
  0 <= id < nextProjectId s -> Project.isVerified (project s id) = false ->
  exists s',
    verifyProject e id s = Ok (tt, s') /\
    isProjectVerified s' id = Ok true /\
    project s' id = Project.set_isVerified true (project s id) /\
    (forall j, j ≠ id -> project s' j = project s j) /\
    totalVerifiedProjects s' = totalVerifiedProjects s + 1 /\
    totalProjects s' = totalProjects s.
Proof.
  intros Hs Hver Hid Hunv.
  destruct (verifyProject_ok e id s (abi_reachable_rinv _ _ Hs)
              (abi_reachable_rbooks _ _ Hs) Hver Hid Hunv)
    as (s' & Hex & Hproj & Hcnt & Hnext & Htot & _).
  exists s'. split; [exact Hex|].
  assert ((id <? nextProjectId s') = true) as Hlt by (apply Z.ltb_lt; lia).
  unfold isProjectVerified. rewrite Hlt, Hproj, decide_True by reflexivity.
  repeat split; try assumption.
  intros j Hne. rewrite Hproj. by rewrite decide_False.
Qed.

Lemma verifyProject_verifies_witness :
  exists s',
    verifyProject (env_of 1) 0 after_registration = Ok (tt, s') /\
    isProjectVerified s' 0 = Ok true /\ totalVerifiedProjects s' = 1.
Proof.
  destruct (verifyProject_verifies 1 (env_of 1) 0 after_registration)
    as (s' & Hex & Hv & _ & _ & Hc & _).
  - exact after_registration_reachable.
  - by vm_compute.
  - by vm_compute.
  - by vm_compute.
  - exists s'. split; [exact Hex|]. split; [exact Hv | exact Hc].
Defined.

Lemma issuer_exec e c s u s' a :
  registered s a = true -> exec e c s = Ok (u, s') ->
  registered s' a = true /\
  issuer_description (issuer s' a) = issuer_description (issuer s a) /\
  (Issuer.isVerified (issuer s a) = true ->
   Issuer.isVerified (issuer s' a) = true).
Proof.
  intros Hreg Hex. unfold registered, issuer in *.
  destruct c; reg_split Hex; injection Hex as <- <-; guards; cbn;
    rewrite ?lookup_insert; repeat case_decide; subst; cbn;
    repeat split; try done; try congruence.
Qed.

Lemma issuer_run tr s a :
  registered s a = true ->
  registered (run tr s) a = true /\
  issuer_description (issuer (run tr s) a) = issuer_description (issuer s a) /\
  (Issuer.isVerified (issuer s a) = true ->
   Issuer.isVerified (issuer (run tr s) a) = true).
Proof.
  revert s. induction tr as [|[e c] tr IH]; intros s Hreg; [done|].
  change (run ((e, c) :: tr) s) with (run tr (step e c s)).
  assert (registered (step e c s) a = true /\
          issuer_description (issuer (step e c s) a) =
            issuer_description (issuer s a) /\
          (Issuer.isVerified (issuer s a) = true ->
           Issuer.isVerified (issuer (step e c s) a) = true))
    as (Hreg' & Hd & Hv).
  { unfold step.
    destruct (transact_cases (exec e c) s) as [(u&s'&Hex&->)|(err&_&->)];
      [eapply issuer_exec; eauto | done]. }
  destruct (IH _ Hreg') as (Hreg'' & Hd' & Hv').
  split; [exact Hreg''|]. split; [congruence|auto].
Qed.

(** X19. Registration of an issuer is permanent.  Once an account is a
    registered issuer then, after any run of well-formed transactions, it
    still is, its name, address and registration time are unchanged, it is
    active, a verification it had is kept, and [registerIssuer] called by
    it aborts with "Already registered": no function removes, renames or
    deactivates an issuer. *)
Theorem issuer_registration_permanent deployer s tr a :
  abi_reachable deployer s -> valid_trace tr -> registered s a = true ->
  let s' := run tr s in
  registered s' a = true /\
  issuer_description (issuer s' a) = issuer_description (issuer s a) /\
  Issuer.isActive (issuer s' a) = true /\
  (Issuer.isVerified (issuer s a) = true ->
   Issuer.isVerified (issuer s' a) = true) /\
  forall e name,
    msg_sender e = a ->
    registerIssuer e name s' = Err (Revert "Already registered").
Proof.
  intros Hs Htr Hreg s'.
  destruct (issuer_run tr s a Hreg) as (Hreg' & Hd & Hv). fold s' in Hreg', Hd, Hv.
  pose proof (abi_reachable_rbooks _ _ (abi_reachable_run _ _ _ Hs Htr)) as Hb.
  fold s' in Hb. destruct (rb_active s' Hb a Hreg') as [Hon _].
  split; [exact Hreg'|]. split; [exact Hd|]. split; [exact Hon|].
  split; [exact Hv|].
  intros e name <-. unfold registered in Hreg'. reg_unfold.
  rewrite Hreg'. reflexivity.
Qed.

Lemma issuer_registration_permanent_witness :
  let tr := [(env_of 1, DeactivateProject 0);
             (env_of 2, RegisterProject "ProjectY" "Solar" "IN" "ipfs://y")] in
  Issuer.isActive (issuer (run tr after_scenario) 2) = true /\
  registerIssuer (env_of 2) "Again" (run tr after_scenario) =
    Err (Revert "Already registered").
Proof.
  intros tr.
  destruct (issuer_registration_permanent 1 after_scenario tr 2)
    as (_ & _ & Hon & _ & Hrej).
  - exact after_scenario_reachable.
  - repeat constructor.
  - by vm_compute.
  - split; [exact Hon | by apply Hrej].
Defined.
End RegistryMore.


(** ** The marketplace *)

Module MarketProofs.
Import Marketplace.

Ltac mk_simpl_in H :=
  cbv beta zeta delta
    [listing getUserListings getUserTrades on_store set_carbonToken
     set_balance log_call log] in H;
  cbn beta iota delta
    [this store carbonToken balance calls
     owner entered listings userListings userTrades nextListingId
     platformFee totalVolume totalTrades events
     set_entered set_listings set_userListings set_userTrades
     set_nextListingId set_platformFee set_totalVolume set_totalTrades
     msg_sender msg_value block_timestamp accepts
     negb fst snd] in H;
  rewrite ?lookup_insert_eq in H;
  cbn beta iota delta
    [from_option Datatypes.id Listing.seller Listing.amount Listing.pricePerCredit
     Listing.isActive Listing.createdAt Listing.creditId
     Listing.projectName Listing.set_amount Listing.set_isActive
     Listing.set_pricePerCredit] in H.

Ltac mk_simpl :=
  cbv beta zeta delta
    [listing getUserListings getUserTrades on_store set_carbonToken
     set_balance log_call log];
  cbn beta iota delta
    [this store carbonToken balance calls
     owner entered listings userListings userTrades nextListingId
     platformFee totalVolume totalTrades events
     set_entered set_listings set_userListings set_userTrades
     set_nextListingId set_platformFee set_totalVolume set_totalTrades
     msg_sender msg_value block_timestamp accepts
     negb fst snd];
  rewrite ?lookup_insert_eq;
  cbn beta iota delta
    [from_option Datatypes.id Listing.seller Listing.amount Listing.pricePerCredit
     Listing.isActive Listing.createdAt Listing.creditId
     Listing.projectName Listing.set_amount Listing.set_isActive
     Listing.set_pricePerCredit].

Ltac mk_unfold_in H :=
  cbv beta iota zeta delta
    [exec createListing buyCredits cancelListing updateListingPrice
     updatePlatformFee withdrawFees ledger_call price_math
     onlyOwner nonReentrant payable token_call send_value emit
     mbind mret M_bind M_ret bind ret fail get gets modify
     require revert_if checked_add checked_sub checked_mul] in H;
  mk_simpl_in H.

Ltac mk_unfold :=
  cbv beta iota zeta delta
    [exec createListing buyCredits cancelListing updateListingPrice
     updatePlatformFee withdrawFees ledger_call price_math
     onlyOwner nonReentrant payable token_call send_value emit
     mbind mret M_bind M_ret bind ret fail get gets modify
     require revert_if checked_add checked_sub checked_mul];
  mk_simpl.

(* case analysis on every guard of a call that returned; a call of the
   ledger is kept as one step *)
Ltac mk_split H :=
  mk_unfold_in H;
  repeat (match type of H with
          | context [match Token.transfer ?e ?to ?v ?t with _ => _ end] =>
              let E := fresh "T" in
              destruct (Token.transfer e to v t) as [[? ?]|?] eqn:E;
              cbv beta iota zeta in H; mk_simpl_in H
          | context [match Token.transferFrom ?e ?f ?to ?v ?t
                     with _ => _ end] =>
              let E := fresh "T" in
              destruct (Token.transferFrom e f to v t) as [[? ?]|?] eqn:E;
              cbv beta iota zeta in H; mk_simpl_in H
          | context [match Token.exec ?e ?c ?t with _ => _ end] =>
              let E := fresh "T" in
              destruct (Token.exec e c t) as [[? ?]|?] eqn:E;
              cbv beta iota zeta in H; mk_simpl_in H
          | context [if ?c then _ else _] =>
              let E := fresh "G" in
              destruct c eqn:E; cbv beta iota zeta in H; mk_simpl_in H
          end);
  try discriminate H.

(** The invariant of the marketplace and its ledger between
    transactions. *)
Record winv (w : World) : Prop := {
  w_token : TokenProofs.inv (carbonToken w);
  w_self : this w ≠ 0%N;
  w_unlocked : entered (store w) = false;
  w_ids : forall id l,
    listings (store w) !! id = Some l -> id < nextListingId (store w);
  w_amounts : nonneg_map (Listing.amount <$> listings (store w));
  (* the contract holds the credits its listings promise *)
  w_escrow : listed w <= Token.balanceOf (carbonToken w) (this w);
  (* and never lets anyone else spend them *)
  w_noallow : forall sp, Token.allowance (carbonToken w) (this w) sp = 0;
  w_sellers : forall id l,
    listings (store w) !! id = Some l ->
    Listing.seller l ≠ 0%N /\ Listing.seller l ≠ this w;
  w_prices : forall id l,
    listings (store w) !! id = Some l -> 0 <= Listing.pricePerCredit l;
  w_fee : 0 <= platformFee (store w) <= 500;
  w_balance : 0 <= balance w;
  w_volume : totalVolume (store w) <= MAX_UINT256
}.

Lemma winv_init self deployer tokenDeployer :
  self ≠ 0%N -> winv (init self deployer tokenDeployer).
Proof.
  intros Hself. split; simpl; try done.
Qed.

(* an invariant on all listings after one slot was written *)
Ltac listing_insert Hl :=
  let id := fresh "id" in let l := fresh "l" in let Hid := fresh "Hid" in
  intros id l; rewrite lookup_insert; case_decide;
  [intros [= <-]; cbn | intros Hid; apply Hl in Hid].

Lemma listed_insert (m : gmap Z Listing.t) id l :
  gsum (Listing.amount <$> <[id := l]> m) =
  gsum (Listing.amount <$> m)
  - Listing.amount (default Listing.empty (m !! id)) + Listing.amount l.
Proof.
  rewrite fmap_insert, gsum_insert, lookup_fmap.
  destruct (m !! id); reflexivity.
Qed.

Lemma amounts_insert (m : gmap Z Listing.t) id l :
  nonneg_map (Listing.amount <$> m) -> 0 <= Listing.amount l ->
  nonneg_map (Listing.amount <$> <[id := l]> m).
Proof. intros Hm Hl. rewrite fmap_insert. by apply nonneg_map_insert. Qed.

Lemma amount_nonneg (m : gmap Z Listing.t) id :
  nonneg_map (Listing.amount <$> m) ->
  0 <= Listing.amount (default Listing.empty (m !! id)).
Proof.
  intros Hm. destruct (m !! id) as [l|] eqn:Hid; simpl; [|lia].
  apply (Hm id). rewrite lookup_fmap, Hid. reflexivity.
Qed.

Lemma winv_exec e c w u w' :
  winv w -> valid_call e c w = true -> exec e c w = Ok (u, w') -> winv w'.
Proof.
  intros [Htok Hself Hunl Hids Hamt Hesc Hnoal Hsell Hprice Hfee Hbal Hvol] Hv Hex.
  unfold valid_call in Hv.
  destruct c; mk_split Hex; injection Hex as <- <-; guards.
  all: try match goal with
    | Hact : Listing.isActive (default Listing.empty (?m !! ?i)) = true |- _ =>
        let L := fresh "L" in let HL := fresh "HL" in
        destruct (m !! i) as [L|] eqn:HL; [|discriminate Hact];
        cbn [from_option Datatypes.id] in *;
        pose proof (Hids _ _ HL); pose proof (Hsell _ _ HL) as [? ?];
        pose proof (Hprice _ _ HL);
        pose proof (Hamt i (Listing.amount L)
                      ltac:(rewrite lookup_fmap, HL; reflexivity));
        pose proof (gsum_lookup_le _ i Hamt) as Hamax;
        rewrite lookup_fmap, HL in Hamax; cbn in Hamax;
        pose proof (TokenProofs.balance_range _ (this w) Htok);
        pose proof (listed_insert m i) as Hli; rewrite HL in Hli;
        cbn [from_option Datatypes.id] in Hli
    end.
  all: try (eapply TokenProofs.transfer_ok in T
      as (_ & Hs' & Hfrom & Hto & Hle & Hbalf & Hallf); [|assumption || (unfold is_uint256, listed in *; lia)..]).
  1: { (* createListing *)
    eapply TokenProofs.transferFrom_ok in T
      as (_ & Hs' & Hfrom & Hto & Hle & Hbalf & Hallf); [|assumption..].
    unfold is_uint256, listed in *.
    split; unfold listed; mk_simpl.
    + exact Hs'.
    + exact Hself.
    + reflexivity.
    + listing_insert Hids; lia.
    + apply amounts_insert; [exact Hamt|cbn; lia].
    + rewrite listed_insert, Hbalf. cbn.
      destruct (listings (store w) !! nextListingId (store w)) as [l|] eqn:Hl.
      { apply Hids in Hl. lia. }
      cbn. repeat case_decide; try congruence; lia.
    + intros sp. rewrite Hallf; [apply Hnoal | congruence].
    + listing_insert Hsell; [split; congruence | exact Hid].
    + listing_insert Hprice; lia.
    + exact Hfee.
    + exact Hbal.
    + exact Hvol. }
  all: unfold is_uint256 in *.
  all: try (mk_simpl_in Hbalf; mk_simpl_in Hle; mk_simpl_in Hfrom).
  all: try (destruct (TokenProofs.foreign_exec _ _ _ _ _ (this w) Htok
                        ltac:(eassumption) ltac:(eassumption) Hnoal T)
              as [Hkeep Hnoal'];
            pose proof (TokenProofs.inv_exec _ _ _ _ _ Htok
                          ltac:(eassumption) T) as Hs').
  all: split; unfold listed in *; mk_simpl; rewrite ?insert_insert_eq;
    try assumption; try reflexivity.
  all: try (listing_insert Hids; lia).
  all: try (apply amounts_insert; [exact Hamt | cbn; lia]).
  all: try (listing_insert Hsell; [split; assumption | exact Hid]).
  all: try (listing_insert Hprice; [lia | exact Hid]).
  all: try (intros sp; unfold Token.allowance in *; rewrite Hallf;
            apply Hnoal).
  all: try (rewrite ?Hli, ?Hbalf; cbn;
            repeat case_decide; try congruence; lia).
  all: try lia.
Qed.

Lemma winv_step e c w :
  winv w -> valid_call e c w = true -> winv (step e c w).
Proof.
  intros Hw Hv. unfold step.
  destruct (transact_cases (exec e c) w) as [(u&w'&Hex&->)|(err&_&->)];
    [eapply winv_exec; eauto | exact Hw].
Qed.

Lemma reachable_winv w : reachable w -> winv w.
Proof. induction 1; [by apply winv_init | by apply winv_step]. Qed.

Lemma winv_run tr w : winv w -> valid_trace tr w -> winv (run tr w).
Proof.
  revert w. induction tr as [|[e c] tr IH]; intros w Hw Htr; [exact Hw|].
  destruct Htr as [Hv Htr]. apply IH; [by apply winv_step | exact Htr].
Qed.

Lemma reachable_run tr w :
  reachable w -> valid_trace tr w -> reachable (run tr w).
Proof.
  revert w. induction tr as [|[e c] tr IH]; intros w Hw Htr; [exact Hw|].
  destruct Htr as [Hv Htr]. apply IH; [by apply reach_step | exact Htr].
Qed.

(** A listing that exists and is inactive is never written again. *)
Lemma inactive_exec e c w u w' id l :
  winv w -> exec e c w = Ok (u, w') ->
  listings (store w) !! id = Some l -> Listing.isActive l = false ->
  listings (store w') !! id = Some l.
Proof.
  intros Hw Hex Hl Hin. pose proof (w_ids w Hw id l Hl) as Hlt.
  destruct c; mk_split Hex; injection Hex as <- <-; guards; mk_simpl;
    try exact Hl.
  all: rewrite ?insert_insert_eq, lookup_insert_ne; [exact Hl|].
  all: intros Heq; try lia; subst; rewrite Hl in *; cbn in *; congruence.
Qed.

Lemma inactive_step e c w id l :
  winv w -> listings (store w) !! id = Some l ->
  Listing.isActive l = false ->
  listings (store (step e c w)) !! id = Some l.
Proof.
  intros Hw Hl Hin. unfold step.
  destruct (transact_cases (exec e c) w) as [(u&w'&Hex&->)|(err&_&->)];
    [eapply inactive_exec; eauto | exact Hl].
Qed.

Lemma inactive_run tr w id l :
  winv w -> valid_trace tr w ->
  listings (store w) !! id = Some l -> Listing.isActive l = false ->
  listings (store (run tr w)) !! id = Some l.
Proof.
  revert w. induction tr as [|[e c] tr IH]; intros w Hw Htr Hl Hin;
    [exact Hl|].
  destruct Htr as [Hv Htr].
  apply IH; [by apply winv_step | exact Htr | by apply inactive_step | exact Hin].
Qed.

(** *** The scenario *)

Lemma listing_trace_valid : valid_trace listing_trace (init 100 1 1).
Proof. vm_compute. tauto. Qed.

Lemma with_listing_reachable : reachable with_listing.
Proof.
  apply reachable_run; [by constructor | exact listing_trace_valid].
Qed.

Lemma after_sale_reachable : reachable after_sale.
Proof. apply reach_step; [exact with_listing_reachable | reflexivity]. Qed.

(** *** [updateListingPrice] *)

(** C8. Called by the seller of an active listing with a positive price,
    [updateListingPrice] writes the new price into the listing and logs
    [ListingUpdated]; the remaining amount and the active flag of the
    listing, every other listing, the ledger (hence the credits held in
    escrow), the value held and every other storage field are as before.
    Called by anyone else, on an inactive listing, or with price 0, it
    aborts, and the transaction leaves the state as it was. *)
Theorem updateListingPrice_frame e listingId newPrice w :
  let L := listing w listingId in
  (Listing.seller L = msg_sender e -> Listing.isActive L = true ->
   0 < newPrice ->
   let w' := step e (UpdateListingPrice listingId newPrice) w in
   updateListingPrice e listingId newPrice w =
     Ok (tt, on_store (fun s =>
               log (ListingUpdated listingId (Listing.amount L) newPrice)
                   (set_listings
                      <[listingId := Listing.set_pricePerCredit newPrice L]>
                      s)) w) /\
   listing w' listingId = Listing.set_pricePerCredit newPrice L /\
   Listing.amount (listing w' listingId) = Listing.amount L /\
   Listing.isActive (listing w' listingId) = true /\
   (forall j, j ≠ listingId -> listing w' j = listing w j) /\
   carbonToken w' = carbonToken w /\
   Token.balanceOf (carbonToken w') (this w') =
     Token.balanceOf (carbonToken w) (this w) /\
   balance w' = balance w /\ calls w' = calls w) /\
  (Listing.seller L ≠ msg_sender e \/ Listing.isActive L = false \/
   newPrice <= 0 ->
   is_Err (updateListingPrice e listingId newPrice w) /\
   step e (UpdateListingPrice listingId newPrice) w = w).
Proof.
  intros L. split.
  - intros Hs Ha Hp.
    assert (updateListingPrice e listingId newPrice w =
      Ok (tt, on_store (fun s =>
               log (ListingUpdated listingId (Listing.amount L) newPrice)
                   (set_listings
                      <[listingId := Listing.set_pricePerCredit newPrice L]>
                      s)) w)) as Hex.
    { subst L. unfold listing in *. apply N.eqb_eq in Hs.
      apply Z.ltb_lt in Hp. mk_unfold.
      rewrite Hs. mk_simpl. rewrite Ha. mk_simpl. rewrite Hp. mk_simpl.
      reflexivity. }
    cbv zeta. unfold step, exec. rewrite (transact_ok _ _ _ _ Hex).
    split; [exact Hex|]. unfold listing. cbn.
    rewrite lookup_insert_eq. cbn. repeat split; try assumption.
    intros j Hj. by rewrite lookup_insert_ne.
  - intros Hc.
    assert (is_Err (updateListingPrice e listingId newPrice w)) as Herr.
    { subst L. unfold listing in *. mk_unfold.
      destruct (N.eqb_spec
        (Listing.seller (default Listing.empty
           (listings (store w) !! listingId))) (msg_sender e)) as [Hs|Hs];
        mk_simpl; [|exact I].
      destruct (Listing.isActive _) eqn:Ha; mk_simpl; [|exact I].
      destruct (Z.ltb_spec 0 newPrice) as [Hp|Hp]; mk_simpl; [|exact I].
      destruct Hc as [Hc|[Hc|Hc]]; [congruence|congruence|lia]. }
    split; [exact Herr|]. unfold step, exec.
    destruct (updateListingPrice e listingId newPrice w) as [[? ?]|err] eqn:Hex;
      [destruct Herr | eapply transact_err, Hex].
Qed.

(** *** [buyCredits] *)

(** Everything a purchase that returned has done. *)
Lemma buy_facts e listingId amount w u w' :
  winv w -> valid_call e (BuyCredits listingId amount) w = true ->
  buyCredits e listingId amount w = Ok (u, w') ->
  let L := listing w listingId in
  let tp := totalPrice_of w listingId amount in
  let fee := fee_of w listingId amount in
  let sa := sellerAmount_of w listingId amount in
  let payout :=
    {| recipient := Listing.seller L; sent := sa;
       seen := seen_during w w'; seen_token := carbonToken w' |} in
  let refund :=
    {| recipient := msg_sender e; sent := msg_value e - tp;
       seen := seen_during w w'; seen_token := carbonToken w' |} in
  (Listing.isActive L = true /\ 0 < amount <= Listing.amount L /\
   msg_sender e ≠ Listing.seller L /\ tp <= msg_value e /\
   amount * Listing.pricePerCredit L <= MAX_UINT256) /\
  (0 <= fee <= tp /\ accepts e (Listing.seller L) = true) /\
  listings (store w') = <[listingId := sold_from amount L]> (listings (store w)) /\
  Token.balanceOf (carbonToken w') (msg_sender e) =
    Token.balanceOf (carbonToken w) (msg_sender e) + amount /\
  calls w' = calls w ++ payout :: (if tp <? msg_value e then [refund] else []) /\
  balance w' = balance w + fee /\
  userTrades (store w') =
    <[Listing.seller L :=
        getUserTrades w (Listing.seller L) ++ [trade_of e w listingId amount]]>
      (<[msg_sender e :=
           getUserTrades w (msg_sender e) ++ [trade_of e w listingId amount]]>
         (userTrades (store w))) /\
  totalVolume (store w') = totalVolume (store w) + tp /\
  totalTrades (store w') = totalTrades (store w) + 1 /\
  events (store w') =
    events (store w) ++
    [ListingSold listingId (msg_sender e) (Listing.seller L) amount tp] /\
  entered (store w') = false.
Proof.
  intros [Htok Hself Hunl Hids Hamt Hesc Hnoal Hsell Hprice Hfee Hbal Hvol] Hv Hex.
  unfold valid_call in Hv.
  unfold trade_of, sellerAmount_of, fee_of, totalPrice_of, seen_during,
    sold_from, listing, getUserTrades.
  mk_split Hex; injection Hex as <- <-; guards.
  all: match goal with
    | Hact : Listing.isActive (default Listing.empty (?m !! ?i)) = true |- _ =>
        let L := fresh "L" in let HL := fresh "HL" in
        destruct (m !! i) as [L|] eqn:HL; [|discriminate Hact];
        cbn [from_option Datatypes.id] in *;
        pose proof (Hprice _ _ HL);
        pose proof (gsum_lookup_le _ i Hamt) as Hamax;
        rewrite lookup_fmap, HL in Hamax; cbn in Hamax;
        pose proof (TokenProofs.balance_range _ (this w) Htok)
    end.
  all: eapply TokenProofs.transfer_ok in T
      as (_ & Hs' & Hfrom & Hto & Hle & Hbalf & Hallf);
      [|assumption || (unfold is_uint256, listed in *; lia)..].
  all: mk_simpl_in Hbalf.
  all: pose proof (Hbalf (msg_sender e)) as Hbuyer.
  all: assert (0 <= (amount * Listing.pricePerCredit L) `div` 10 ^ 18)
         as Htp by (apply Z.div_pos; [nia|lia]).
  all: assert (0 <= ((amount * Listing.pricePerCredit L) `div` 10 ^ 18 *
                     platformFee (store w)) `div` 10000)
         as Hfee0 by (apply Z.div_pos; [nia|lia]).
  all: cbv zeta; mk_simpl; rewrite ?insert_insert_eq, ?G8.
  all: rewrite ?(lookup_insert_ne _ (msg_sender e)) by congruence.
  all: try rewrite (proj2 (Z.ltb_lt _ _) G11).
  all: try rewrite (proj2 (Z.ltb_ge _ _) G11).
  all: unfold set_listings, set_entered; mk_simpl;
    rewrite ?insert_insert_eq, <- ?app_assoc; cbn [app].
  all: repeat split; try assumption; try reflexivity; try lia.
  all: rewrite Hbuyer; repeat case_decide; try congruence; lia.
Qed.

(** How a purchase that passes the listing guards ends. *)
Lemma buy_cases e listingId amount w :
  winv w -> valid_call e (BuyCredits listingId amount) w = true ->
  let L := listing w listingId in
  let tp := totalPrice_of w listingId amount in
  let sa := sellerAmount_of w listingId amount in
  Listing.isActive L = true -> 0 < amount <= Listing.amount L ->
  msg_sender e ≠ Listing.seller L ->
  amount * Listing.pricePerCredit L <= MAX_UINT256 ->
  match buyCredits e listingId amount w with
  | Ok (_, w') =>
      tp <= msg_value e /\ accepts e (Listing.seller L) = true /\
      (tp < msg_value e -> accepts e (msg_sender e) = true) /\
      totalVolume (store w) + tp <= MAX_UINT256 /\
      totalTrades (store w) + 1 <= MAX_UINT256
  | Err err =>
      (err = Revert "Insufficient payment" /\ msg_value e < tp) \/
      (tp <= msg_value e /\
       ((err = Revert "Seller payment failed" /\
         accepts e (Listing.seller L) = false) \/
        (err = Revert "Refund failed" /\ tp < msg_value e /\
         accepts e (msg_sender e) = false) \/
        (err = Panic 17 /\
         (MAX_UINT256 < totalVolume (store w) + tp \/
          MAX_UINT256 < totalTrades (store w) + 1))))
  end.
Proof.
  intros [Htok Hself Hunl Hids Hamt Hesc Hnoal Hsell Hprice Hfee Hbal Hvol] Hv.
  unfold valid_call in Hv.
  unfold sellerAmount_of, fee_of, totalPrice_of, listing.
  cbv zeta. intros Hact Ham Hne Hprod.
  destruct (listings (store w) !! listingId) as [L|] eqn:HL;
    [|discriminate Hact].
  cbn [from_option Datatypes.id] in *.
  pose proof (Hprice _ _ HL).
  pose proof (gsum_lookup_le _ listingId Hamt) as Hamax.
  rewrite lookup_fmap, HL in Hamax; cbn in Hamax.
  pose proof (TokenProofs.balance_range _ (this w) Htok).
  assert (0 <= (amount * Listing.pricePerCredit L) `div` 10 ^ 18)
    as Htp by (apply Z.div_pos; [nia|lia]).
  assert (10 ^ 18 * ((amount * Listing.pricePerCredit L) `div` 10 ^ 18)
          <= amount * Listing.pricePerCredit L)
    as Htpu by (apply Z.mul_div_le; lia).
  assert (0 <= ((amount * Listing.pricePerCredit L) `div` 10 ^ 18 *
                platformFee (store w)) `div` 10000)
    as Hfee0 by (apply Z.div_pos; [nia|lia]).
  assert (((amount * Listing.pricePerCredit L) `div` 10 ^ 18 *
                platformFee (store w)) `div` 10000
          <= (amount * Listing.pricePerCredit L) `div` 10 ^ 18)
    as Hfee1 by (apply Z.div_le_upper_bound; [lia|nia]).
  assert ((amount * Listing.pricePerCredit L) `div` 10 ^ 18 *
          platformFee (store w) <= MAX_UINT256) as Hfeeu.
  { etransitivity; [|exact Hprod]. etransitivity; [|exact Htpu].
    rewrite Z.mul_comm. apply Z.mul_le_mono_nonneg_r; lia. }
  guards.
  destruct (TokenProofs.transfer_succeeds
              {| msg_sender := this w; msg_value := 0;
                 block_timestamp := block_timestamp e;
                 accepts := accepts e |}
              (msg_sender e) amount (carbonToken w))
    as [t' Ht']; [exact Htok|lia|exact Hself|assumption|
                  unfold listed in *; cbn; lia|].
  destruct (buyCredits e listingId amount w) as [[u w']|err] eqn:Hex;
    mk_split Hex; rewrite ?HL in *; cbn [from_option Datatypes.id] in *;
    guards; try congruence; try lia.
  all: try (injection Hex as <-).
  all: try (repeat split; try assumption; try lia; intros; assumption).
  all: try (left; split; [reflexivity|lia]).
  all: try (right; split; [lia|]; right; right; split; [reflexivity|lia]).
  all: repeat match goal with
       | Hb : (_ && _) = false |- _ =>
           apply andb_false_iff in Hb as [Hb|Hb]; guards
       end; try lia.
  all: try (right; split; [lia|]; left; split; [reflexivity|assumption]).
  all: try (right; split; [lia|]; right; left;
            split; [reflexivity|split; [lia|assumption]]).
Qed.

Lemma new_calls_app w w' l : calls w' = calls w ++ l -> new_calls w w' = l.
Proof. unfold new_calls. intros ->. apply drop_app_length. Qed.

Lemma step_buy_ok e listingId amount w u w' :
  buyCredits e listingId amount w = Ok (u, w') ->
  step e (BuyCredits listingId amount) w = w'.
Proof. intros Hex. unfold step, exec. eapply transact_ok, Hex. Qed.

(** While the lock is held, the guarded entry points turn every caller
    away. *)
Lemma locked_rejects e w :
  entered (store w) = true ->
  (forall a p c n,
     createListing e a p c n w = Err (Custom "ReentrancyGuardReentrantCall")) /\
  (forall i a,
     buyCredits e i a w = Err (Custom "ReentrancyGuardReentrantCall")) /\
  (forall i,
     cancelListing e i w = Err (Custom "ReentrancyGuardReentrantCall")).
Proof.
  intros Hl. repeat split; intros; mk_unfold; rewrite Hl; reflexivity.
Qed.

(** In the scenario the seller is paid while the trade is still
    unrecorded: the storage the seller finds has no trade, no volume and
    no history, and the purchase ends with one trade of volume 1000 in the
    histories of buyer and seller. *)
Lemma payout_precedes_trade_record :
  reachable with_listing /\
  buyCredits (env_of 3 1000 everyone) 0 500 with_listing =
    Ok (tt, after_sale) /\
  map (fun c => (recipient c, sent c, totalTrades (seen c),
                 totalVolume (seen c), userTrades (seen c)))
      (new_calls with_listing after_sale) = [(2%N, 998, 0, 0, ∅)] /\
  totalTrades (store after_sale) = 1 /\
  totalVolume (store after_sale) = 1000 /\
  length (getUserTrades after_sale 3) = 1%nat /\
  length (getUserTrades after_sale 2) = 1%nat.
Proof.
  split; [exact with_listing_reachable|].
  repeat (match goal with |- _ /\ _ => split end); vm_compute; reflexivity.
Qed.

(** While the lock is held, no call changes what the lock protects: the
    lock itself, the trade histories, the two counters of trades, the
    numbering and the lists of listings, and of every listing the seller,
    the amount remaining and the active flag.  (A price, the fee rate, the
    value held and the ledger can change: [updateListingPrice],
    [updatePlatformFee] and [withdrawFees] take no lock.) *)
Lemma locked_frame_step e c x :
  entered (store x) = true ->
  let x' := step e c x in
  entered (store x') = true /\
  userTrades (store x') = userTrades (store x) /\
  totalVolume (store x') = totalVolume (store x) /\
  totalTrades (store x') = totalTrades (store x) /\
  nextListingId (store x') = nextListingId (store x) /\
  userListings (store x') = userListings (store x) /\
  forall id,
    Listing.seller (listing x' id) = Listing.seller (listing x id) /\
    Listing.amount (listing x' id) = Listing.amount (listing x id) /\
    Listing.isActive (listing x' id) = Listing.isActive (listing x id).
Proof.
  intros Hl x'. subst x'. unfold step.
  destruct (transact_cases (exec e c) x) as [(u&x'&Hex&->)|(err&_&->)];
    [|repeat split; assumption || reflexivity].
  destruct c; mk_split Hex; try congruence; injection Hex as <- <-.
  all: unfold listing; mk_simpl; repeat split; try assumption;
    try reflexivity.
  all: rewrite lookup_insert; case_decide; subst; reflexivity.
Qed.

Lemma locked_frame_run tr x :
  entered (store x) = true ->
  let x' := run tr x in
  entered (store x') = true /\
  userTrades (store x') = userTrades (store x) /\
  totalVolume (store x') = totalVolume (store x) /\
  totalTrades (store x') = totalTrades (store x) /\
  nextListingId (store x') = nextListingId (store x) /\
  userListings (store x') = userListings (store x) /\
  forall id,
    Listing.seller (listing x' id) = Listing.seller (listing x id) /\
    Listing.amount (listing x' id) = Listing.amount (listing x id) /\
    Listing.isActive (listing x' id) = Listing.isActive (listing x id).
Proof.
  revert x. induction tr as [|[e c] tr IH]; intros x Hl;
    [repeat split; assumption || reflexivity|].
  change (run ((e, c) :: tr) x) with (run tr (step e c x)).
  destruct (locked_frame_step e c x Hl) as (Hl1 & Ht1 & Hv1 & Hc1 & Hn1 & Hu1 & Hi1).
  destruct (IH (step e c x) Hl1) as (Hl2 & Ht2 & Hv2 & Hc2 & Hn2 & Hu2 & Hi2).
  cbv zeta.
  split; [exact Hl2|]. split; [congruence|]. split; [congruence|].
  split; [congruence|]. split; [congruence|]. split; [congruence|].
  intros id. destruct (Hi1 id) as (? & ? & ?), (Hi2 id) as (? & ? & ?).
  repeat split; congruence.
Qed.

(** C3 (as amended). In every purchase that returns, the first value
    transfer is the payout to the seller: when control passes to the
    seller, the listing has been decremented (and deactivated at zero) and
    the credits are with the buyer, while the trade is in no history yet
    and [totalVolume] and [totalTrades] are what they were.  At every value
    transfer of the purchase, the refund included, the reentrancy lock is
    held, the listing holds the decremented amount, and that bookkeeping is
    still to come; the lock keeps all of this from any call made
    meanwhile.  Only after the transfers is the trade appended to the
    histories of buyer and seller and are the two counters incremented. *)
Theorem transfers_during_purchase e listingId amount w u w' :
  reachable w -> valid_call e (BuyCredits listingId amount) w = true ->
  buyCredits e listingId amount w = Ok (u, w') ->
  let L := listing w listingId in
  let seller := Listing.seller L in
  let tp := totalPrice_of w listingId amount in
  let trade := trade_of e w listingId amount in
  (* the payout comes first: what the seller finds *)
  (exists payout rest,
     new_calls w w' = payout :: rest /\
     recipient payout = seller /\
     sent payout = sellerAmount_of w listingId amount /\
     listings (seen payout) =
       <[listingId := sold_from amount L]> (listings (store w)) /\
     Token.balanceOf (seen_token payout) (msg_sender e) =
       Token.balanceOf (carbonToken w) (msg_sender e) + amount /\
     (tp < msg_value e ->
      Exists (fun c => recipient c = msg_sender e /\
                       sent c = msg_value e - tp) rest)) /\
  (* at every value transfer: done, and still to be done *)
  Forall (fun c =>
    entered (seen c) = true /\
    Listing.amount (default Listing.empty (listings (seen c) !! listingId)) =
      Listing.amount L - amount /\
    Listing.isActive (default Listing.empty (listings (seen c) !! listingId)) =
      negb (Listing.amount L - amount =? 0) /\
    userTrades (seen c) = userTrades (store w) /\
    totalVolume (seen c) = totalVolume (store w) /\
    totalTrades (seen c) = totalTrades (store w))
    (new_calls w w') /\
  (* what the lock keeps from every call made while it is held *)
  (forall x tr,
     entered (store x) = true ->
     entered (store (run tr x)) = true /\
     userTrades (store (run tr x)) = userTrades (store x) /\
     totalVolume (store (run tr x)) = totalVolume (store x) /\
     totalTrades (store (run tr x)) = totalTrades (store x) /\
     Listing.amount (listing (run tr x) listingId) =
       Listing.amount (listing x listingId) /\
     Listing.isActive (listing (run tr x) listingId) =
       Listing.isActive (listing x listingId)) /\
  (* after the transfers *)
  getUserTrades w' (msg_sender e) = getUserTrades w (msg_sender e) ++ [trade] /\
  getUserTrades w' seller = getUserTrades w seller ++ [trade] /\
  totalVolume (store w') = totalVolume (store w) + tp /\
  totalTrades (store w') = totalTrades (store w) + 1 /\
  Listing.amount (listing w' listingId) = Listing.amount L - amount /\
  entered (store w') = false.
Proof.
  intros Hw Hv Hex. apply reachable_winv in Hw.
  destruct (buy_facts _ _ _ _ _ _ Hw Hv Hex)
    as ((Hact & Ham & Hne & Hpay & Hprod) & (Hfee & Hacc) & Hlist & Hbuyer &
        Hcalls & Hbal & Htrades & Hvol & Hcount & Hev & Hlock).
  cbv zeta. rewrite (new_calls_app _ _ _ Hcalls).
  assert (forall l : Listing.t,
            Listing.isActive l = true ->
            Listing.amount (sold_from amount l) = Listing.amount l - amount /\
            Listing.isActive (sold_from amount l) =
              negb (Listing.amount l - amount =? 0)) as Hsold.
  { intros l Hl. unfold sold_from. cbn.
    destruct (Listing.amount l - amount =? 0); cbn; auto. }
  destruct (Hsold _ Hact) as [Hsa Hsf].
  split; [|split; [|split]].
  - eexists _, _. split; [reflexivity|]. cbn [recipient sent seen seen_token].
    split; [reflexivity|]. split; [reflexivity|].
    split; [unfold seen_during; cbn; exact Hlist|].
    split; [exact Hbuyer|].
    intros Hover. apply Z.ltb_lt in Hover. rewrite Hover.
    constructor. cbn. split; reflexivity.
  - assert (forall c, seen c = seen_during w w' ->
              entered (seen c) = true /\
              Listing.amount
                (default Listing.empty (listings (seen c) !! listingId)) =
                Listing.amount (listing w listingId) - amount /\
              Listing.isActive
                (default Listing.empty (listings (seen c) !! listingId)) =
                negb (Listing.amount (listing w listingId) - amount =? 0) /\
              userTrades (seen c) = userTrades (store w) /\
              totalVolume (seen c) = totalVolume (store w) /\
              totalTrades (seen c) = totalTrades (store w)) as Hseen.
    { intros c ->. unfold seen_during. cbn. rewrite Hlist, lookup_insert_eq.
      cbn. repeat split; assumption. }
    destruct (_ <? _); repeat constructor; apply Hseen; reflexivity.
  - intros x tr Hl.
    destruct (locked_frame_run tr x Hl) as (H1 & H2 & H3 & H4 & _ & _ & H5).
    destruct (H5 listingId) as (_ & H6 & H7).
    repeat split; assumption.
  - split.
    { unfold getUserTrades at 1. rewrite Htrades.
      rewrite lookup_insert_ne by congruence.
      rewrite lookup_insert_eq. reflexivity. }
    split.
    { unfold getUserTrades at 1. rewrite Htrades.
      rewrite lookup_insert_eq. reflexivity. }
    split; [exact Hvol|]. split; [exact Hcount|]. split; [|exact Hlock].
    unfold listing at 1. rewrite Hlist, lookup_insert_eq. exact Hsa.
Qed.

Lemma odd_trace_valid : valid_trace odd_trace (init 100 1 1).
Proof. vm_compute. tauto. Qed.

Lemma with_odd_listing_reachable : reachable with_odd_listing.
Proof.
  apply reachable_run; [by constructor | exact odd_trace_valid].
Qed.

(** One unit bought at 1.5 * 10^18 wei per credit: the exact price is one
    and a half wei; the buyer is charged 1 wei, of which the seller is sent
    all, the fee division leaving the platform nothing; the half wei that
    the price division leaves over is charged to no one and paid to no
    one. *)
Lemma price_remainder_dropped :
  reachable with_odd_listing /\
  buyCredits (env_of 3 1 everyone) 0 1 with_odd_listing =
    Ok (tt, after_odd_sale) /\
  1 * Listing.pricePerCredit (listing with_odd_listing 0) = 15 * 10 ^ 17 /\
  (1 * Listing.pricePerCredit (listing with_odd_listing 0)) mod 10 ^ 18 =
    5 * 10 ^ 17 /\
  totalPrice_of with_odd_listing 0 1 = 1 /\
  fee_of with_odd_listing 0 1 = 0 /\
  map (fun c => (recipient c, sent c))
      (new_calls with_odd_listing after_odd_sale) = [(2%N, 1)] /\
  (fee_of with_odd_listing 0 1 + sellerAmount_of with_odd_listing 0 1)
    * 10 ^ 18 <
    1 * Listing.pricePerCredit (listing with_odd_listing 0).
Proof.
  split; [exact with_odd_listing_reachable|].
  repeat (match goal with |- _ /\ _ => split end); vm_compute; reflexivity.
Qed.

(** C4 (as amended). In every purchase that returns, the payment covers
    the total price, and the seller is sent the total price less the fee:
    fee and proceeds add up to the total price exactly, neither is
    negative, and the remainder of the fee division is on the seller's
    side.  What exceeds the total price is sent back to the buyer, so of
    the payment the function sends out all but the fee.  The remainder of
    the price division [amount * pricePerCredit / 10^18] is in neither
    amount: it is less than one wei, and it is charged to no one and paid
    to no one. *)
Theorem fee_split_exact e listingId amount w u w' :
  reachable w -> valid_call e (BuyCredits listingId amount) w = true ->
  buyCredits e listingId amount w = Ok (u, w') ->
  let L := listing w listingId in
  let tp := totalPrice_of w listingId amount in
  let fee := fee_of w listingId amount in
  let sa := sellerAmount_of w listingId amount in
  let bps := platformFee (store w) in
  (* what the function sends *)
  (exists payout rest,
     new_calls w w' = payout :: rest /\
     recipient payout = Listing.seller L /\ sent payout = tp - fee /\
     (tp < msg_value e ->
      Exists (fun c => recipient c = msg_sender e /\
                       sent c = msg_value e - tp) rest)) /\
  tp <= msg_value e /\
  (* the fee division *)
  fee + sa = tp /\ 0 <= fee /\ 0 <= sa /\
  10000 * fee = tp * bps - (tp * bps) mod 10000 /\
  10000 * sa = tp * (10000 - bps) + (tp * bps) mod 10000 /\
  (* the price division *)
  (fee + sa) * 10 ^ 18 =
    amount * Listing.pricePerCredit L
    - (amount * Listing.pricePerCredit L) mod 10 ^ 18 /\
  0 <= (amount * Listing.pricePerCredit L) mod 10 ^ 18 < 10 ^ 18 /\
  (* the books *)
  Trade.totalPrice (trade_of e w listingId amount) = tp /\
  totalVolume (store w') = totalVolume (store w) + tp.
Proof.
  intros Hw Hv Hex. apply reachable_winv in Hw.
  destruct (buy_facts _ _ _ _ _ _ Hw Hv Hex)
    as ((Hact & Ham & Hne & Hpay & Hprod) & (Hfee & Hacc) & Hlist & Hbuyer &
        Hcalls & Hbal & Htrades & Hvol & Hcount & Hev & Hlock).
  cbv zeta. rewrite (new_calls_app _ _ _ Hcalls).
  split.
  { eexists _, _. split; [reflexivity|]. cbn [recipient sent].
    split; [reflexivity|]. split; [reflexivity|].
    intros Hover. apply Z.ltb_lt in Hover. rewrite Hover.
    constructor. cbn. split; reflexivity. }
  split; [exact Hpay|].
  unfold sellerAmount_of, fee_of in *.
  set (tp := totalPrice_of w listingId amount) in *.
  pose proof (Z.div_mod (tp * platformFee (store w)) 10000 ltac:(lia)).
  pose proof (Z.div_mod (amount * Listing.pricePerCredit (listing w listingId))
                (10 ^ 18) ltac:(lia)) as Hdiv.
  pose proof (Z.mod_pos_bound
                (amount * Listing.pricePerCredit (listing w listingId))
                (10 ^ 18) ltac:(lia)).
  assert (tp = amount * Listing.pricePerCredit (listing w listingId)
               / 10 ^ 18) as Htp by reflexivity.
  repeat (match goal with |- _ /\ _ => split end);
    try lia; try reflexivity; try exact Hvol.
Qed.

(** With the payment equal to the total price, a purchase still aborts
    when the seller's account rejects the payout. *)
Lemma exact_payment_seller_rejects :
  reachable with_listing /\
  Listing.isActive (listing with_listing 0) = true /\
  0 < 500 <= Listing.amount (listing with_listing 0) /\
  3%N ≠ Listing.seller (listing with_listing 0) /\
  totalPrice_of with_listing 0 500 = 1000 /\
  buyCredits (env_of 3 1000 (all_but 2)) 0 500 with_listing =
    Err (Revert "Seller payment failed").
Proof.
  split; [exact with_listing_reachable|].
  repeat (match goal with |- _ /\ _ => split end); vm_compute; (reflexivity || discriminate).
Qed.

(** C5 (as amended). For a purchase of [0 < amount <= remaining] from an
    active listing by someone other than the seller, whose product
    [amount * pricePerCredit] fits in a [uint256]: the call aborts with
    "Insufficient payment" exactly when the payment is below the total
    price.  With the payment equal to the total price it returns, and sends
    no refund, whenever the seller's account accepts the payout and the two
    counters have room; one below the total price aborts with
    "Insufficient payment".  Whenever the call aborts, the transaction
    leaves the state as it was. *)
Theorem insufficient_payment_boundary e listingId amount w :
  reachable w -> valid_call e (BuyCredits listingId amount) w = true ->
  let L := listing w listingId in
  let tp := totalPrice_of w listingId amount in
  Listing.isActive L = true -> 0 < amount <= Listing.amount L ->
  msg_sender e ≠ Listing.seller L ->
  amount * Listing.pricePerCredit L <= MAX_UINT256 ->
  (buyCredits e listingId amount w = Err (Revert "Insufficient payment")
   <-> msg_value e < tp) /\
  (msg_value e = tp -> accepts e (Listing.seller L) = true ->
   totalVolume (store w) + tp <= MAX_UINT256 ->
   totalTrades (store w) + 1 <= MAX_UINT256 ->
   exists w',
     buyCredits e listingId amount w = Ok (tt, w') /\
     map (fun c => (recipient c, sent c)) (new_calls w w') =
       [(Listing.seller L, sellerAmount_of w listingId amount)]) /\
  (1 <= tp -> msg_value e = tp - 1 ->
   buyCredits e listingId amount w = Err (Revert "Insufficient payment")) /\
  (forall err,
     buyCredits e listingId amount w = Err err ->
     step e (BuyCredits listingId amount) w = w).
Proof.
  intros Hw Hv L tp Hact Ham Hne Hprod.
  pose proof (reachable_winv _ Hw) as Hinv.
  pose proof (buy_cases e listingId amount w Hinv Hv Hact Ham Hne Hprod)
    as Hcases. cbv zeta in Hcases. fold L tp in Hcases.
  assert (buyCredits e listingId amount w = Err (Revert "Insufficient payment")
          <-> msg_value e < tp) as Hiff.
  { destruct (buyCredits e listingId amount w) as [[[] w']|err] eqn:Hex.
    - split; [discriminate|]. lia.
    - destruct Hcases as [[-> Hlt]|[Hge Hc]]; [tauto|].
      split; [|lia]. intros [= ->].
      destruct Hc as [[Hc _]|[[Hc _]|[Hc _]]]; discriminate Hc. }
  split; [exact Hiff|]. split; [|split].
  - intros Hpay Hacc Hvol Hcnt.
    destruct (buyCredits e listingId amount w) as [[[] w']|err] eqn:Hex.
    + exists w'. split; [reflexivity|].
      pose proof (buy_facts _ _ _ _ _ _ Hinv Hv Hex) as Hf.
      cbv zeta in Hf. destruct Hf as (_ & _ & _ & _ & Hcalls & _).
      rewrite (new_calls_app _ _ _ Hcalls). fold tp.
      destruct (Z.ltb_spec tp (msg_value e)); [lia|reflexivity].
    + exfalso.
      destruct Hcases as [[_ Hlt]|[_ [[_ Hc]|[(_ & Hc & _)|[_ Hc]]]]];
        try lia; congruence.
  - intros Htp Hpay. apply Hiff. lia.
  - intros err Hex. unfold step, exec. eapply transact_err, Hex.
Qed.

(** A purchase priced at zero still aborts when nothing is bought or when
    the seller's account rejects the (empty) payout. *)
Lemma zero_price_purchase_aborts :
  reachable with_cheap_listing /\
  Listing.isActive (listing with_cheap_listing 0) = true /\
  0 * Listing.pricePerCredit (listing with_cheap_listing 0) < 10 ^ 18 /\
  500 * Listing.pricePerCredit (listing with_cheap_listing 0) < 10 ^ 18 /\
  buyCredits (env_of 3 0 everyone) 0 0 with_cheap_listing =
    Err (Revert "Amount must be greater than 0") /\
  buyCredits (env_of 3 0 (all_but 2)) 0 500 with_cheap_listing =
    Err (Revert "Seller payment failed").
Proof.
  split.
  { apply reachable_run; [by constructor|]. vm_compute. tauto. }
  repeat (match goal with |- _ /\ _ => split end); vm_compute; reflexivity.
Qed.

(** C9 (as amended). For a purchase of [0 < amount <= remaining] from an
    active listing by someone other than the seller with
    [amount * pricePerCredit < 10^18]: the total price, the fee and the
    seller's proceeds are all 0; sent without payment, the call returns
    whenever the seller's account accepts the payout of 0 and the trade
    counter has room.  The payout is the first value transfer and carries
    no value; when it is made the buyer holds [amount] more credits and
    the listing holds [amount] fewer; and a trade of [amount] credits with
    total price 0 ends up in the histories of buyer and seller, with
    [totalVolume] unchanged. *)
Theorem zero_price_purchase e listingId amount w :
  reachable w -> valid_call e (BuyCredits listingId amount) w = true ->
  let L := listing w listingId in
  Listing.isActive L = true -> 0 < amount <= Listing.amount L ->
  msg_sender e ≠ Listing.seller L ->
  amount * Listing.pricePerCredit L < 10 ^ 18 ->
  msg_value e = 0 -> accepts e (Listing.seller L) = true ->
  totalTrades (store w) + 1 <= MAX_UINT256 ->
  totalPrice_of w listingId amount = 0 /\
  fee_of w listingId amount = 0 /\
  sellerAmount_of w listingId amount = 0 /\
  exists w',
    buyCredits e listingId amount w = Ok (tt, w') /\
    (exists payout rest,
       new_calls w w' = payout :: rest /\
       recipient payout = Listing.seller L /\ sent payout = 0 /\
       Token.balanceOf (seen_token payout) (msg_sender e) =
         Token.balanceOf (carbonToken w) (msg_sender e) + amount /\
       Listing.amount
         (default Listing.empty (listings (seen payout) !! listingId)) =
         Listing.amount L - amount) /\
    Trade.totalPrice (trade_of e w listingId amount) = 0 /\
    Trade.amount (trade_of e w listingId amount) = amount /\
    getUserTrades w' (msg_sender e) =
      getUserTrades w (msg_sender e) ++ [trade_of e w listingId amount] /\
    getUserTrades w' (Listing.seller L) =
      getUserTrades w (Listing.seller L) ++ [trade_of e w listingId amount] /\
    totalVolume (store w') = totalVolume (store w) /\
    totalTrades (store w') = totalTrades (store w) + 1.
Proof.
  intros Hw Hv L Hact Ham Hne Hsmall Hpay Hacc Hcnt.
  pose proof (reachable_winv _ Hw) as Hinv.
  assert (0 <= Listing.pricePerCredit L) as Hp.
  { subst L. unfold listing in *.
    destruct (listings (store w) !! listingId) as [l|] eqn:Hl;
      [|discriminate Hact].
    eapply (w_prices w Hinv), Hl. }
  assert (totalPrice_of w listingId amount = 0) as Htp.
  { unfold totalPrice_of. fold L. apply Z.div_small. nia. }
  assert (fee_of w listingId amount = 0) as Hfee.
  { unfold fee_of. rewrite Htp. reflexivity. }
  assert (sellerAmount_of w listingId amount = 0) as Hsa.
  { unfold sellerAmount_of. rewrite Htp, Hfee. reflexivity. }
  split; [exact Htp|]. split; [exact Hfee|]. split; [exact Hsa|].
  assert (amount * Listing.pricePerCredit L <= MAX_UINT256) as Hprod.
  { unfold MAX_UINT256. lia. }
  pose proof (buy_cases e listingId amount w Hinv Hv Hact Ham Hne Hprod)
    as Hcases. cbv zeta in Hcases. fold L in Hcases.
  rewrite Htp in Hcases. pose proof (w_volume w Hinv) as Hvol.
  destruct (buyCredits e listingId amount w) as [[[] w']|err] eqn:Hex.
  - exists w'. split; [reflexivity|].
    pose proof (buy_facts _ _ _ _ _ _ Hinv Hv Hex) as Hf.
    cbv zeta in Hf. fold L in Hf.
    destruct Hf as ((_ & _ & _ & _ & _) & _ & Hlist & Hbuyer & Hcalls & _ &
                    Htrades & Hvol' & Hcount & _).
    rewrite Htp, Hsa, Hpay in Hcalls.
    split.
    { rewrite (new_calls_app _ _ _ Hcalls). eexists _, _.
      split; [reflexivity|]. cbn [recipient sent seen seen_token].
      split; [reflexivity|]. split; [reflexivity|]. split; [exact Hbuyer|].
      unfold seen_during. cbn. rewrite Hlist, lookup_insert_eq.
      unfold sold_from. cbn.
      destruct (Listing.amount L - amount =? 0); reflexivity. }
    split; [exact Htp|]. split; [reflexivity|]. split.
    { unfold getUserTrades at 1. rewrite Htrades.
      rewrite lookup_insert_ne by congruence.
      rewrite lookup_insert_eq. reflexivity. }
    split.
    { unfold getUserTrades at 1. rewrite Htrades.
      rewrite lookup_insert_eq. reflexivity. }
    split; [lia | exact Hcount].
  - exfalso.
    destruct Hcases as [[_ Hlt]|[_ [[_ Hc]|[(_ & Hc & _)|[_ Hc]]]]];
      try lia; congruence.
Qed.

(** *** [cancelListing] *)

Lemma cancel_not_owner e listingId w :
  entered (store w) = false ->
  Listing.seller (listing w listingId) ≠ msg_sender e ->
  cancelListing e listingId w = Err (Revert "Not listing owner").
Proof.
  intros Hl Hne. apply N.eqb_neq in Hne. unfold listing in Hne.
  mk_unfold. rewrite Hl. mk_simpl. rewrite Hne. reflexivity.
Qed.

Lemma cancel_inactive e listingId w :
  entered (store w) = false ->
  Listing.seller (listing w listingId) = msg_sender e ->
  Listing.isActive (listing w listingId) = false ->
  cancelListing e listingId w = Err (Revert "Listing not active").
Proof.
  intros Hl Hs Ha. apply N.eqb_eq in Hs. unfold listing in Hs, Ha.
  mk_unfold. rewrite Hl. mk_simpl. rewrite Hs. mk_simpl. rewrite Ha.
  reflexivity.
Qed.

(** What a cancellation by the seller of an active listing does. *)
Lemma cancel_facts e listingId w :
  winv w -> valid_call e (CancelListing listingId) w = true ->
  let L := listing w listingId in
  Listing.isActive L = true -> Listing.seller L = msg_sender e ->
  exists w',
    cancelListing e listingId w = Ok (tt, w') /\
    Token.balanceOf (carbonToken w') (msg_sender e) =
      Token.balanceOf (carbonToken w) (msg_sender e) + Listing.amount L /\
    listings (store w') !! listingId =
      Some (Listing.set_amount 0 (Listing.set_isActive false L)).
Proof.
  intros Hw Hv L Hact Hsel. subst L. unfold listing in *.
  pose proof Hw as [Htok Hself Hunl Hids Hamt Hesc Hnoal Hsell Hprice Hfee
                    Hbal Hvol].
  unfold valid_call in Hv.
  destruct (listings (store w) !! listingId) as [L|] eqn:HL;
    [|discriminate Hact].
  cbn [from_option Datatypes.id] in *.
  pose proof (gsum_lookup_le _ listingId Hamt) as Hamax.
  rewrite lookup_fmap, HL in Hamax; cbn in Hamax.
  pose proof (Hamt listingId (Listing.amount L)
                ltac:(rewrite lookup_fmap, HL; reflexivity)) as Hage.
  pose proof (TokenProofs.balance_range _ (this w) Htok).
  guards.
  destruct (TokenProofs.transfer_succeeds
              {| msg_sender := this w; msg_value := 0;
                 block_timestamp := block_timestamp e;
                 accepts := accepts e |}
              (msg_sender e) (Listing.amount L) (carbonToken w))
    as [t' Ht']; [exact Htok|lia|exact Hself|assumption|
                  unfold listed in *; cbn; lia|].
  destruct (cancelListing e listingId w) as [[[] w']|err] eqn:Hex;
    mk_split Hex; rewrite ?HL in *; cbn [from_option Datatypes.id] in *;
    guards; try congruence.
  injection Hex as <-. eexists. split; [reflexivity|].
  eapply TokenProofs.transfer_ok in T
      as (_ & Hs' & Hfrom & Hto & Hle & Hbalf & Hallf);
      [|assumption || (unfold is_uint256, listed in *; lia)..].
  mk_simpl_in Hbalf. mk_simpl.
  split; [|reflexivity].
  rewrite Hbalf. repeat case_decide; try congruence; lia.
Qed.

(** C6. For every active listing, with [r] units remaining: cancelled by
    its seller, the seller's ledger balance grows by exactly [r] and the
    listing is inactive with nothing remaining, and stays so whatever is
    called afterwards; a second cancellation by the seller aborts with
    "Listing not active".  Called by anyone other than the seller,
    [cancelListing] aborts and the transaction leaves the state as it
    was. *)
Theorem cancelListing_releases e listingId w :
  reachable w -> valid_call e (CancelListing listingId) w = true ->
  let L := listing w listingId in
  Listing.isActive L = true ->
  (Listing.seller L = msg_sender e ->
   exists w',
     cancelListing e listingId w = Ok (tt, w') /\
     Token.balanceOf (carbonToken w') (msg_sender e) =
       Token.balanceOf (carbonToken w) (msg_sender e) + Listing.amount L /\
     listing w' listingId =
       Listing.set_amount 0 (Listing.set_isActive false L) /\
     (forall e2, msg_sender e2 = msg_sender e ->
        cancelListing e2 listingId w' = Err (Revert "Listing not active")) /\
     (forall tr, valid_trace tr w' ->
        listing (run tr w') listingId =
          Listing.set_amount 0 (Listing.set_isActive false L))) /\
  (Listing.seller L ≠ msg_sender e ->
   cancelListing e listingId w = Err (Revert "Not listing owner") /\
   step e (CancelListing listingId) w = w).
Proof.
  intros Hw Hv L Hact. pose proof (reachable_winv _ Hw) as Hinv. split.
  - intros Hsel.
    destruct (cancel_facts e listingId w Hinv Hv Hact Hsel)
      as (w' & Hex & Hbal & Hl).
    assert (winv w') as Hinv'.
    { eapply winv_exec; [exact Hinv|exact Hv|exact Hex]. }
    exists w'. split; [exact Hex|]. split; [exact Hbal|].
    assert (listing w' listingId =
            Listing.set_amount 0 (Listing.set_isActive false L)) as Hl'.
    { unfold listing at 1. rewrite Hl. reflexivity. }
    split; [exact Hl'|]. split.
    + intros e2 He2. apply cancel_inactive.
      * apply (w_unlocked w' Hinv').
      * rewrite Hl'. cbn. congruence.
      * rewrite Hl'. reflexivity.
    + intros tr Htr. unfold listing at 1.
      rewrite (inactive_run tr w' listingId _ Hinv' Htr Hl); reflexivity.
  - intros Hne.
    pose proof (cancel_not_owner e listingId w (w_unlocked w Hinv) Hne) as Hex.
    split; [exact Hex|]. unfold step, exec. eapply transact_err, Hex.
Qed.

(** *** [withdrawFees] *)

(** The owner's account rejecting the transfer makes a withdrawal abort
    although the contract holds value. *)
Lemma withdraw_rejected :
  reachable after_sale /\
  owner (store after_sale) = 1%N /\ balance after_sale = 2 /\
  withdrawFees (env_of 1 0 (all_but 1)) after_sale =
    Err (Revert "Withdrawal failed").
Proof.
  split; [exact after_sale_reachable|].
  repeat (match goal with |- _ /\ _ => split end); vm_compute; reflexivity.
Qed.

(** C10 (as amended). [withdrawFees] aborts for every caller but the
    owner.  Called by the owner, it aborts with "No fees to withdraw" when
    the contract holds no value and with "Withdrawal failed" when the
    owner's account rejects the transfer, and in no other case; whenever
    it aborts, the transaction leaves the state as it was.  Otherwise its
    one value transfer sends the owner the whole value the contract holds,
    which no counter of accrued fees limits; the function takes no lock
    and has written nothing when control passes to the owner. *)
Theorem withdrawFees_sweeps e w :
  reachable w ->
  (msg_sender e ≠ owner (store w) ->
   withdrawFees e w = Err (Custom "OwnableUnauthorizedAccount")) /\
  (msg_sender e = owner (store w) ->
   (balance w = 0 -> withdrawFees e w = Err (Revert "No fees to withdraw")) /\
   (balance w ≠ 0 -> accepts e (owner (store w)) = false ->
    withdrawFees e w = Err (Revert "Withdrawal failed")) /\
   (balance w ≠ 0 -> accepts e (owner (store w)) = true ->
    exists w' rest,
      withdrawFees e w = Ok (tt, w') /\
      new_calls w w' =
        {| recipient := owner (store w); sent := balance w;
           seen := store w; seen_token := carbonToken w |} :: rest /\
      entered (store w) = false) /\
   (is_Err (withdrawFees e w) <->
    balance w = 0 \/ accepts e (owner (store w)) = false)) /\
  (is_Err (withdrawFees e w) -> step e WithdrawFees w = w).
Proof.
  intros Hw. pose proof (reachable_winv _ Hw) as Hi.
  pose proof (w_balance w Hi) as Hbal. split; [|split].
  - intros Hne. apply N.eqb_neq in Hne.
    mk_unfold. rewrite Hne. reflexivity.
  - intros Heq. apply N.eqb_eq in Heq.
    assert (withdrawFees e w =
     (if balance w =? 0 then Err (Revert "No fees to withdraw")
      else if accepts e (owner (store w)) then
        Ok (tt, set_balance 0
                  (log_call {| recipient := owner (store w);
                               sent := balance w; seen := store w;
                               seen_token := carbonToken w |} w))
      else Err (Revert "Withdrawal failed"))) as Hex.
    { mk_unfold. rewrite Heq. mk_simpl.
      destruct (Z.eqb_spec (balance w) 0) as [H0|H0].
      - rewrite H0. reflexivity.
      - destruct (Z.ltb_spec 0 (balance w)); [|lia]. mk_simpl.
        rewrite Z.leb_refl, andb_true_r.
        destruct (accepts e (owner (store w))); mk_simpl; [|reflexivity].
        rewrite Z.sub_diag. reflexivity. }
    rewrite Hex. split; [|split; [|split]].
    + intros ->. reflexivity.
    + intros H0 ->. destruct (Z.eqb_spec (balance w) 0); [lia|reflexivity].
    + intros H0 ->. destruct (Z.eqb_spec (balance w) 0); [lia|].
      eexists _, nil. split; [reflexivity|].
      split; [|apply (w_unlocked w Hi)].
      apply new_calls_app. reflexivity.
    + destruct (Z.eqb_spec (balance w) 0) as [H0|H0]; cbn; [tauto|].
      destruct (accepts e (owner (store w))); cbn; split;
        intuition congruence.
  - intros Herr. unfold step, exec.
    destruct (withdrawFees e w) as [[[] w']|err] eqn:Hex; [destruct Herr|].
    eapply transact_err, Hex.
Qed.

(** *** The theorems at the scenario *)

Lemma updateListingPrice_frame_witness :
  Listing.seller (listing with_listing 0) = msg_sender (env_of 2 0 everyone) /\
  Listing.isActive (listing with_listing 0) = true /\ 0 < 5 /\
  updateListingPrice (env_of 2 0 everyone) 0 5 with_listing =
    Ok (tt, on_store (fun s =>
              log (ListingUpdated 0
                     (Listing.amount (listing with_listing 0)) 5)
                  (set_listings
                     <[0 := Listing.set_pricePerCredit 5
                              (listing with_listing 0)]> s))
            with_listing) /\
  Listing.seller (listing with_listing 0) ≠ msg_sender (env_of 3 0 everyone) /\
  is_Err (updateListingPrice (env_of 3 0 everyone) 0 5 with_listing).
Proof.
  assert (Listing.seller (listing with_listing 0) =
          msg_sender (env_of 2 0 everyone)) as Hs
    by (vm_compute; reflexivity).
  assert (Listing.isActive (listing with_listing 0) = true) as Ha
    by (vm_compute; reflexivity).
  assert (0 < 5) as Hp by lia.
  assert (Listing.seller (listing with_listing 0) ≠
          msg_sender (env_of 3 0 everyone)) as Hn
    by (vm_compute; discriminate).
  destruct (updateListingPrice_frame (env_of 2 0 everyone) 0 5 with_listing)
    as [Hok _].
  destruct (Hok Hs Ha Hp) as [Hex _].
  destruct (updateListingPrice_frame (env_of 3 0 everyone) 0 5 with_listing)
    as [_ Hko].
  destruct (Hko (or_introl Hn)) as [Herr _].
  repeat (match goal with |- _ /\ _ => split end); assumption.
Defined.

Lemma transfers_during_purchase_witness :
  reachable with_listing /\
  valid_call (env_of 3 1000 everyone) (BuyCredits 0 500) with_listing = true /\
  buyCredits (env_of 3 1000 everyone) 0 500 with_listing =
    Ok (tt, after_sale) /\
  Forall (fun c =>
    entered (seen c) = true /\
    Listing.amount (default Listing.empty (listings (seen c) !! 0)) =
      Listing.amount (listing with_listing 0) - 500 /\
    Listing.isActive (default Listing.empty (listings (seen c) !! 0)) =
      negb (Listing.amount (listing with_listing 0) - 500 =? 0) /\
    userTrades (seen c) = userTrades (store with_listing) /\
    totalVolume (seen c) = totalVolume (store with_listing) /\
    totalTrades (seen c) = totalTrades (store with_listing))
    (new_calls with_listing after_sale) /\
  totalTrades (store after_sale) = totalTrades (store with_listing) + 1.
Proof.
  assert (reachable with_listing) as Hr by exact with_listing_reachable.
  assert (valid_call (env_of 3 1000 everyone) (BuyCredits 0 500)
            with_listing = true) as Hv by (vm_compute; reflexivity).
  assert (buyCredits (env_of 3 1000 everyone) 0 500 with_listing =
          Ok (tt, after_sale)) as Hex by (vm_compute; reflexivity).
  pose proof (transfers_during_purchase _ _ _ _ _ _ Hr Hv Hex) as Ht.
  cbv zeta in Ht.
  destruct Ht as (_ & Hseen & _ & _ & _ & _ & Hcount & _).
  repeat (match goal with |- _ /\ _ => split end); assumption.
Defined.

Lemma fee_split_exact_witness :
  reachable with_odd_listing /\
  valid_call (env_of 3 1 everyone) (BuyCredits 0 1) with_odd_listing = true /\
  buyCredits (env_of 3 1 everyone) 0 1 with_odd_listing =
    Ok (tt, after_odd_sale) /\
  fee_of with_odd_listing 0 1 + sellerAmount_of with_odd_listing 0 1 =
    totalPrice_of with_odd_listing 0 1 /\
  (fee_of with_odd_listing 0 1 + sellerAmount_of with_odd_listing 0 1)
    * 10 ^ 18 =
    1 * Listing.pricePerCredit (listing with_odd_listing 0)
    - (1 * Listing.pricePerCredit (listing with_odd_listing 0)) mod 10 ^ 18.
Proof.
  assert (reachable with_odd_listing) as Hr by exact with_odd_listing_reachable.
  assert (valid_call (env_of 3 1 everyone) (BuyCredits 0 1)
            with_odd_listing = true) as Hv by (vm_compute; reflexivity).
  assert (buyCredits (env_of 3 1 everyone) 0 1 with_odd_listing =
          Ok (tt, after_odd_sale)) as Hex by (vm_compute; reflexivity).
  pose proof (fee_split_exact _ _ _ _ _ _ Hr Hv Hex) as Hf.
  cbv zeta in Hf.
  destruct Hf as (_ & _ & Hsum & _ & _ & _ & _ & Hrem & _).
  repeat (match goal with |- _ /\ _ => split end); assumption.
Defined.

Lemma insufficient_payment_boundary_witness :
  reachable with_listing /\
  valid_call (env_of 3 999 everyone) (BuyCredits 0 500) with_listing = true /\
  Listing.isActive (listing with_listing 0) = true /\
  0 < 500 <= Listing.amount (listing with_listing 0) /\
  msg_sender (env_of 3 999 everyone) ≠ Listing.seller (listing with_listing 0) /\
  500 * Listing.pricePerCredit (listing with_listing 0) <= MAX_UINT256 /\
  1 <= totalPrice_of with_listing 0 500 /\
  msg_value (env_of 3 999 everyone) = totalPrice_of with_listing 0 500 - 1 /\
  buyCredits (env_of 3 999 everyone) 0 500 with_listing =
    Err (Revert "Insufficient payment").
Proof.
  assert (reachable with_listing) as Hr by exact with_listing_reachable.
  assert (valid_call (env_of 3 999 everyone) (BuyCredits 0 500)
            with_listing = true) as Hv by (vm_compute; reflexivity).
  assert (Listing.isActive (listing with_listing 0) = true) as Ha
    by (vm_compute; reflexivity).
  assert (0 < 500 <= Listing.amount (listing with_listing 0)) as Hm
    by (vm_compute; split; [reflexivity|discriminate]).
  assert (msg_sender (env_of 3 999 everyone) ≠
          Listing.seller (listing with_listing 0)) as Hn
    by (vm_compute; discriminate).
  assert (500 * Listing.pricePerCredit (listing with_listing 0)
          <= MAX_UINT256) as Hp by (vm_compute; discriminate).
  assert (1 <= totalPrice_of with_listing 0 500) as H1
    by (vm_compute; discriminate).
  assert (msg_value (env_of 3 999 everyone) =
          totalPrice_of with_listing 0 500 - 1) as H2
    by (vm_compute; reflexivity).
  pose proof (insufficient_payment_boundary _ _ _ _ Hr Hv Ha Hm Hn Hp) as Hb.
  cbv zeta in Hb. destruct Hb as (_ & _ & Hbelow & _).
  pose proof (Hbelow H1 H2) as Hex.
  split; [exact Hr|]. split; [exact Hv|]. split; [exact Ha|].
  split; [exact Hm|]. split; [exact Hn|]. split; [exact Hp|].
  split; [exact H1|]. split; [exact H2|]. exact Hex.
Defined.

Lemma zero_price_purchase_witness :
  reachable with_cheap_listing /\
  valid_call (env_of 3 0 everyone) (BuyCredits 0 500) with_cheap_listing
    = true /\
  Listing.isActive (listing with_cheap_listing 0) = true /\
  0 < 500 <= Listing.amount (listing with_cheap_listing 0) /\
  msg_sender (env_of 3 0 everyone) ≠
    Listing.seller (listing with_cheap_listing 0) /\
  500 * Listing.pricePerCredit (listing with_cheap_listing 0) < 10 ^ 18 /\
  msg_value (env_of 3 0 everyone) = 0 /\
  accepts (env_of 3 0 everyone)
    (Listing.seller (listing with_cheap_listing 0)) = true /\
  totalTrades (store with_cheap_listing) + 1 <= MAX_UINT256 /\
  totalPrice_of with_cheap_listing 0 500 = 0 /\
  exists w',
    buyCredits (env_of 3 0 everyone) 0 500 with_cheap_listing = Ok (tt, w') /\
    totalTrades (store w') = totalTrades (store with_cheap_listing) + 1.
Proof.
  assert (reachable with_cheap_listing) as Hr.
  { apply reachable_run; [by constructor|]. vm_compute. tauto. }
  assert (valid_call (env_of 3 0 everyone) (BuyCredits 0 500)
            with_cheap_listing = true) as Hv by (vm_compute; reflexivity).
  assert (Listing.isActive (listing with_cheap_listing 0) = true) as Ha
    by (vm_compute; reflexivity).
  assert (0 < 500 <= Listing.amount (listing with_cheap_listing 0)) as Hm
    by (vm_compute; split; [reflexivity|discriminate]).
  assert (msg_sender (env_of 3 0 everyone) ≠
          Listing.seller (listing with_cheap_listing 0)) as Hn
    by (vm_compute; discriminate).
  assert (500 * Listing.pricePerCredit (listing with_cheap_listing 0)
          < 10 ^ 18) as Hp by (vm_compute; reflexivity).
  assert (msg_value (env_of 3 0 everyone) = 0) as H0 by reflexivity.
  assert (accepts (env_of 3 0 everyone)
            (Listing.seller (listing with_cheap_listing 0)) = true) as Hc
    by reflexivity.
  assert (totalTrades (store with_cheap_listing) + 1 <= MAX_UINT256) as Ht
    by (vm_compute; discriminate).
  pose proof (zero_price_purchase _ _ _ _ Hr Hv Ha Hm Hn Hp H0 Hc Ht) as Hz.
  cbv zeta in Hz.
  destruct Hz as (Htp & _ & _ & w' & Hex & _ & _ & _ & _ & _ & _ & Hcount).
  repeat (match goal with |- _ /\ _ => split end); try assumption.
  exists w'. split; assumption.
Defined.

Lemma cancelListing_releases_witness :
  reachable with_listing /\
  valid_call (env_of 2 0 everyone) (CancelListing 0) with_listing = true /\
  Listing.isActive (listing with_listing 0) = true /\
  Listing.seller (listing with_listing 0) = msg_sender (env_of 2 0 everyone) /\
  exists w',
    cancelListing (env_of 2 0 everyone) 0 with_listing = Ok (tt, w') /\
    Token.balanceOf (carbonToken w') 2 =
      Token.balanceOf (carbonToken with_listing) 2 +
      Listing.amount (listing with_listing 0) /\
    cancelListing (env_of 2 0 everyone) 0 w' =
      Err (Revert "Listing not active").
Proof.
  assert (reachable with_listing) as Hr by exact with_listing_reachable.
  assert (valid_call (env_of 2 0 everyone) (CancelListing 0) with_listing
          = true) as Hv by (vm_compute; reflexivity).
  assert (Listing.isActive (listing with_listing 0) = true) as Ha
    by (vm_compute; reflexivity).
  assert (Listing.seller (listing with_listing 0) =
          msg_sender (env_of 2 0 everyone)) as Hs
    by (vm_compute; reflexivity).
  pose proof (cancelListing_releases _ _ _ Hr Hv Ha) as Hc.
  cbv zeta in Hc. destruct Hc as [Hc _].
  destruct (Hc Hs) as (w' & Hex & Hbal & _ & Hagain & _).
  repeat (match goal with |- _ /\ _ => split end); try assumption.
  exists w'. split; [exact Hex|]. split; [exact Hbal|].
  apply Hagain. reflexivity.
Defined.

Lemma withdrawFees_sweeps_witness :
  reachable after_sale /\
  msg_sender (env_of 1 0 everyone) = owner (store after_sale) /\
  balance after_sale = 2 /\
  exists w' rest,
    withdrawFees (env_of 1 0 everyone) after_sale = Ok (tt, w') /\
    new_calls after_sale w' =
      {| recipient := owner (store after_sale); sent := balance after_sale;
         seen := store after_sale; seen_token := carbonToken after_sale |}
      :: rest.
Proof.
  assert (reachable after_sale) as Hr by exact after_sale_reachable.
  assert (msg_sender (env_of 1 0 everyone) = owner (store after_sale)) as Ho
    by (vm_compute; reflexivity).
  assert (balance after_sale = 2) as Hb by (vm_compute; reflexivity).
  destruct (withdrawFees_sweeps (env_of 1 0 everyone) after_sale Hr)
    as (_ & Hown & _).
  destruct (Hown Ho) as (_ & _ & Hok & _).
  destruct Hok as (w' & rest & Hex & Hcalls & _);
    [rewrite Hb; discriminate | reflexivity |].
  split; [exact Hr|]. split; [exact Ho|]. split; [exact Hb|].
  exists w', rest. split; assumption.
Defined.

End MarketProofs.
(** ** The marketplace: views, books and what stays fixed *)

Module MarketMore.
Import Marketplace MarketProofs.

(** *** The two loops of [getActiveListings] *)

Local Abbreviation active := (fun l : Listing.t => Listing.isActive l = true).

Lemma seqZ_S i n : seqZ i (Z.of_nat (S n)) = i :: seqZ (i + 1) (Z.of_nat n).
Proof.
  rewrite seqZ_cons by lia. f_equal. f_equal; lia.
Qed.

Lemma count_range w rounds i c :
  c + Z.of_nat rounds <= MAX_UINT256 ->
  for_range (count_active w) i rounds c =
  Ok (c + Z.of_nat (length (filter active
                              (listing w <$> seqZ i (Z.of_nat rounds))))).
Proof.
  revert i c. induction rounds as [|n IH]; intros i c Hroom.
  - rewrite seqZ_nil by done. cbn. f_equal. lia.
  - rewrite seqZ_S, fmap_cons, filter_cons. cbn [for_range].
    unfold count_active at 1.
    destruct (Listing.isActive (listing w i)) eqn:Hact.
    + rewrite decide_True by done.
      destruct (c + 1 <=? MAX_UINT256) eqn:Hc; [|apply Z.leb_gt in Hc; lia].
      rewrite IH by lia. f_equal. cbn [length]. lia.
    + rewrite decide_False by discriminate.
      rewrite IH by lia. reflexivity.
Qed.

Lemma copy_range w rounds i pre rest :
  let found := filter active (listing w <$> seqZ i (Z.of_nat rounds)) in
  (length found <= length rest)%nat ->
  Z.of_nat (length pre) + Z.of_nat rounds <= MAX_UINT256 ->
  for_range (copy_active w) i rounds (pre ++ rest, Z.of_nat (length pre)) =
  Ok (pre ++ found ++ drop (length found) rest,
      Z.of_nat (length pre) + Z.of_nat (length found)).
Proof.
  revert i pre rest. induction rounds as [|n IH]; intros i pre rest found.
  - subst found. rewrite seqZ_nil by done. cbn. intros _ _.
    rewrite drop_0. do 2 f_equal. lia.
  - subst found. rewrite seqZ_S, fmap_cons, filter_cons. cbn [for_range].
    unfold copy_active at 1. cbn [fst snd].
    destruct (Listing.isActive (listing w i)) eqn:Hact.
    + rewrite decide_True by done. cbn [length]. intros Hlen Hroom.
      destruct rest as [|r rest]; [cbn in Hlen; lia|].
      rewrite length_app. cbn [length].
      destruct (Z.of_nat (length pre) <? Z.of_nat (length pre + S (length rest)))
        eqn:Hin; [|apply Z.ltb_ge in Hin; lia].
      destruct (Z.of_nat (length pre) + 1 <=? MAX_UINT256) eqn:Hc;
        [|apply Z.leb_gt in Hc; lia].
      rewrite Nat2Z.id.
      replace (<[length pre := listing w i]> (pre ++ r :: rest))
        with ((pre ++ [listing w i]) ++ rest).
      2: { rewrite insert_app_r_alt by lia. rewrite Nat.sub_diag. cbn.
           by rewrite <- app_assoc. }
      replace (Z.of_nat (length pre) + 1)
        with (Z.of_nat (length (pre ++ [listing w i])))
        by (rewrite length_app; cbn; lia).
      rewrite IH.
      * rewrite <- app_assoc. cbn. do 2 f_equal.
        rewrite length_app. cbn. lia.
      * cbn in Hlen. lia.
      * rewrite length_app. cbn. lia.
    + rewrite decide_False by discriminate.
      intros Hlen Hroom. rewrite IH by (assumption || lia). reflexivity.
Qed.

Lemma getActiveListings_filter w :
  0 <= nextListingId (store w) <= MAX_UINT256 ->
  getActiveListings w = Ok (filter active (all_listings w)).
Proof.
  intros Hn. unfold getActiveListings, for_loop, all_listings.
  rewrite count_range by (rewrite Z2Nat.id; lia).
  rewrite Z2Nat.id by lia. rewrite Z.add_0_l, Nat2Z.id.
  set (found := filter active (listing w <$> seqZ 0 (nextListingId (store w)))).
  pose proof (copy_range w (Z.to_nat (nextListingId (store w))) 0 []
                (replicate (length found) Listing.empty)) as Hcopy.
  cbn zeta in Hcopy. rewrite Z2Nat.id in Hcopy by lia.
  fold found in Hcopy. cbn [app length] in Hcopy.
  change (Z.of_nat 0) with 0 in Hcopy.
  rewrite Hcopy.
  - cbn [fst]. rewrite drop_replicate, Nat.sub_diag. cbn.
    by rewrite app_nil_r.
  - by rewrite length_replicate.
  - lia.
Qed.

(** *** The books of the marketplace *)

Record mbooks (w : World) : Prop := {
  m_next : 0 <= nextListingId (store w) <= MAX_UINT256;
  m_lower : forall id l, listings (store w) !! id = Some l -> 0 <= id;
  m_dense : forall id,
    0 <= id < nextListingId (store w) -> is_Some (listings (store w) !! id);
  m_active : forall id l,
    listings (store w) !! id = Some l ->
    Listing.isActive l = (0 <? Listing.amount l);
  m_price : forall id l,
    listings (store w) !! id = Some l -> 0 < Listing.pricePerCredit l;
  m_created : nextListingId (store w) = created_count w;
  m_sold : totalTrades (store w) = sold_count w;
  m_volume : totalVolume (store w) = sold_volume w;
  m_lists : forall a id,
    id ∈ getUserListings w a <->
    0 <= id < nextListingId (store w) /\ Listing.seller (listing w id) = a;
  m_lists_nodup : forall a, NoDup (getUserListings w a);
  m_entries : trade_entries w = 2 * totalTrades (store w);
  m_trades : forall a t,
    t ∈ getUserTrades w a ->
    (Trade.buyer t = a \/ Trade.seller t = a) /\
    Trade.buyer t ≠ Trade.seller t /\ 0 < Trade.amount t
}.

Lemma events_snoc (P : Event -> bool) (l : list Event) ev :
  Z.of_nat (length (filter (fun ev => P ev = true) (l ++ [ev]))) =
  Z.of_nat (length (filter (fun ev => P ev = true) l)) +
  (if P ev then 1 else 0).
Proof.
  rewrite filter_app, length_app, Nat2Z.inj_add. f_equal.
  rewrite filter_cons, filter_nil. destruct (P ev); reflexivity.
Qed.

Lemma volume_snoc l ev :
  fold_right (fun ev acc => sold_price ev + acc) 0 (l ++ [ev]) =
  fold_right (fun ev acc => sold_price ev + acc) 0 l + sold_price ev.
Proof. induction l as [|x l IH]; simpl; lia. Qed.

Lemma entries_insert (m : gmap address (list Trade.t)) a t :
  gsum ((fun l : list Trade.t => Z.of_nat (length l))
          <$> <[a := default [] (m !! a) ++ [t]]> m) =
  gsum ((fun l : list Trade.t => Z.of_nat (length l)) <$> m) + 1.
Proof.
  rewrite fmap_insert, gsum_insert, lookup_fmap, length_app.
  destruct (m !! a); cbn; lia.
Qed.

Lemma mbooks_init self deployer tokenDeployer :
  mbooks (init self deployer tokenDeployer).
Proof.
  split; unfold created_count, sold_count, sold_volume, trade_entries,
    getUserListings, getUserTrades, listing; cbn; try done.
  - intros id Hid. lia.
  - intros a id. rewrite lookup_empty. cbn.
    split; [intros H; inversion H | intros [? _]; lia].
  - intros a. rewrite lookup_empty. constructor.
  - intros a t. rewrite lookup_empty. cbn. intros H; inversion H.
Qed.

Lemma mbooks_exec e c w u w' :
  winv w -> mbooks w -> valid_call e c w = true ->
  exec e c w = Ok (u, w') -> mbooks w'.
Proof.
  intros [Htok Hself Hunl Hids Hamt Hesc Hnoal Hsell Hprice Hfee Hbal Hvol]
    [Hnext Hlow Hdense Hact Hpos Hcre Hsold Hvolm Hlists Hnd Hent Htr] Hv Hex.
  unfold valid_call in Hv.
  unfold created_count, sold_count, sold_volume, trade_entries,
    getUserListings, getUserTrades, listing in *.
  destruct c; mk_split Hex; injection Hex as <- <-; guards;
    unfold is_uint256 in *.
  all: try match goal with
    | Ha : Listing.isActive (default Listing.empty (?m !! ?i)) = true |- _ =>
        let L := fresh "L" in let HL := fresh "HL" in
        destruct (m !! i) as [L|] eqn:HL; [|discriminate Ha];
        cbn [from_option Datatypes.id] in *;
        pose proof (Hids _ _ HL); pose proof (Hlow _ _ HL);
        pose proof (Hpos _ _ HL); pose proof (Hact _ _ HL) as HactL
    end.
  all: split; unfold created_count, sold_count, sold_volume, trade_entries,
    getUserListings, getUserTrades, listing; mk_simpl;
    rewrite ?insert_insert_eq, ?events_snoc, ?volume_snoc; cbn [is_created is_sold sold_price];
    try assumption; try lia.
  all: repeat match goal with
    | H : (_ =? _) = true |- _ => apply Z.eqb_eq in H
    | H : (_ =? _) = false |- _ => apply Z.eqb_neq in H
    end.
  (* the slots written are slots of listings *)
  all: try solve [intros id0 l0; rewrite lookup_insert; case_decide;
                  [intros _; lia | apply Hlow]].
  all: try solve [intros id0 Hid0; rewrite lookup_insert; case_decide;
                  [done | apply Hdense; lia]].
  (* active exactly when stocked, at a positive price *)
  all: try solve [intros id0 l0; rewrite lookup_insert; case_decide;
                  [intros [= <-]; cbn;
                   first [exact HactL | reflexivity
                         | match goal with
                           | Hx : Listing.isActive _ = true |- _ => rewrite Hx
                           end; symmetry; apply Z.ltb_lt; lia
                         | symmetry;
                           first [apply Z.ltb_lt; lia | apply Z.ltb_ge; lia]]
                  | apply Hact]].
  all: try solve [intros id0 l0; rewrite lookup_insert; case_decide;
                  [intros [= <-]; cbn; lia | apply Hpos]].
  (* the lists of listings *)
  all: try solve [intros a id0; rewrite Hlists, lookup_insert; case_decide;
                  subst; cbn; rewrite ?HL; cbn; reflexivity].
  (* the histories *)
  all: try solve [rewrite !entries_insert; lia].
  all: try solve [
    intros a t; rewrite lookup_insert; case_decide;
    [ subst a; cbn; rewrite lookup_insert_ne by congruence;
      rewrite elem_of_app, list_elem_of_singleton;
      intros [Ht| ->]; [by apply Htr | cbn; repeat split; auto; lia]
    | rewrite lookup_insert; case_decide;
      [ subst a; cbn; rewrite elem_of_app, list_elem_of_singleton;
        intros [Ht| ->]; [by apply Htr | cbn; repeat split; auto; lia]
      | apply Htr ] ] ].
  - (* createListing: the new id joins the list of the seller *)
    assert (forall a, nextListingId (store w)
                      ∉ default [] (userListings (store w) !! a))
      as Hfresh by (intros a [? _]%Hlists; lia).
    intros a id0. rewrite !lookup_insert.
    destruct (decide (msg_sender e = a)) as [<-|Ha],
             (decide (nextListingId (store w) = id0)) as [<-|Hi]; cbn.
    + rewrite elem_of_app, list_elem_of_singleton. intuition lia.
    + rewrite elem_of_app, list_elem_of_singleton, Hlists. intuition lia.
    + split; [intros []%Hfresh | intros [_ ?]; congruence].
    + rewrite Hlists. intuition lia.
  - intros a. rewrite lookup_insert. case_decide; [subst; cbn|apply Hnd].
    apply NoDup_app. split; [apply Hnd|]. split; [|apply NoDup_singleton].
    intros x Hx ->%list_elem_of_singleton. apply Hlists in Hx. lia.
Qed.

Lemma mbooks_step e c w :
  winv w -> mbooks w -> valid_call e c w = true -> mbooks (step e c w).
Proof.
  intros Hw Hb Hv. unfold step.
  destruct (transact_cases (exec e c) w) as [(u&w'&Hex&->)|(err&_&->)];
    [eapply mbooks_exec; eauto | exact Hb].
Qed.

Lemma reachable_mbooks w : reachable w -> mbooks w.
Proof.
  induction 1 as [|w e c Hw IH Hv]; [apply mbooks_init|].
  apply mbooks_step; [by apply reachable_winv | exact IH | exact Hv].
Qed.

Lemma second_listing_trace_valid : valid_trace second_listing_trace after_sale.
Proof. vm_compute. tauto. Qed.

Lemma with_two_listings_reachable : reachable with_two_listings.
Proof.
  apply reachable_run;
    [exact after_sale_reachable | exact second_listing_trace_valid].
Qed.

(** What is stored for an id below the counter. *)
Lemma stored_listing w id :
  mbooks w -> 0 <= id < nextListingId (store w) ->
  listings (store w) !! id = Some (listing w id).
Proof.
  intros Hb Hid. destruct (m_dense w Hb id Hid) as [l Hl].
  unfold listing. by rewrite Hl.
Qed.

(** X20. [getActiveListings] returns the active listings, in the order of
    their ids.  In every reachable state the two loops run to their end:
    neither counter overflows and the array is never written out of its
    bounds.  Every listing returned has credits remaining, a positive
    price, and a seller that is neither the zero address nor the
    marketplace. *)
Theorem getActiveListings_returns_active w :
  reachable w ->
  getActiveListings w =
    Ok (filter (fun l => Listing.isActive l = true) (all_listings w)) /\
  forall l,
    l ∈ filter (fun l => Listing.isActive l = true) (all_listings w) ->
    0 < Listing.amount l /\ 0 < Listing.pricePerCredit l /\
    Listing.seller l ≠ 0%N /\ Listing.seller l ≠ this w.
Proof.
  intros Hw. pose proof (reachable_winv _ Hw) as Hi.
  pose proof (reachable_mbooks _ Hw) as Hb.
  split; [apply getActiveListings_filter, (m_next w Hb)|].
  intros l [Hact Hin]%list_elem_of_filter.
  unfold all_listings in Hin.
  apply list_elem_of_fmap in Hin as (id & -> & Hid%elem_of_seqZ).
  pose proof (stored_listing w id Hb ltac:(lia)) as Hl.
  pose proof (m_active w Hb id _ Hl) as Ha. rewrite Hact in Ha.
  symmetry in Ha. apply Z.ltb_lt in Ha.
  split; [exact Ha|]. split; [eapply m_price; eauto|].
  eapply w_sellers; eauto.
Qed.

Lemma getActiveListings_returns_active_witness :
  getActiveListings with_two_listings =
    Ok [listing with_two_listings 1] /\
  Listing.amount (listing with_two_listings 1) = 300.
Proof.
  destruct (getActiveListings_returns_active with_two_listings
              with_two_listings_reachable) as [Hget _].
  split; [|by vm_compute].
  rewrite Hget. by vm_compute.
Defined.

(** X21. Listings are numbered by creation and live exactly while
    stocked.  In every reachable state the next listing id is the number
    of [ListingCreated] records, a listing is stored for exactly the ids
    below it, and a listing is active exactly when it has credits
    remaining: one that sold out or was cancelled holds nothing. *)
Theorem listings_numbered_and_live w :
  reachable w ->
  nextListingId (store w) = created_count w /\
  (forall id, is_Some (listings (store w) !! id) <->
              0 <= id < nextListingId (store w)) /\
  (forall id, Listing.isActive (listing w id) = true <->
              0 < Listing.amount (listing w id)).
Proof.
  intros Hw. pose proof (reachable_winv _ Hw) as Hi.
  pose proof (reachable_mbooks _ Hw) as Hb.
  split; [apply (m_created w Hb)|]. split.
  - intros id. split; [|apply (m_dense w Hb)].
    intros [l Hl]. split; [eapply m_lower | eapply w_ids]; eauto.
  - intros id. unfold listing.
    destruct (listings (store w) !! id) as [l|] eqn:Hl; cbn.
    + rewrite (m_active w Hb id l Hl). apply Z.ltb_lt.
    + split; [discriminate | lia].
Qed.

Lemma listings_numbered_and_live_witness :
  nextListingId (store with_two_listings) = 2 /\
  Listing.isActive (listing with_two_listings 0) = false /\
  ~ 0 < Listing.amount (listing with_two_listings 0).
Proof.
  destruct (listings_numbered_and_live with_two_listings
              with_two_listings_reachable) as (Hn & _ & Hlive).
  split; [rewrite Hn; by vm_compute|]. split; [by vm_compute|].
  intros Hpos. apply Hlive in Hpos. vm_compute in Hpos. discriminate Hpos.
Defined.

(** X22. The statistics are those of the log.  In every reachable state
    [getMarketplaceStats] returns the number of [ListingCreated] records,
    the sum of the prices of the [ListingSold] records, the number of
    [ListingSold] records, and a platform fee of at most 500 basis
    points. *)
Theorem marketplace_stats_match_log w :
  reachable w ->
  getMarketplaceStats w =
    (created_count w, sold_volume w, sold_count w, platformFee (store w)) /\
  0 <= platformFee (store w) <= 500.
Proof.
  intros Hw. pose proof (reachable_winv _ Hw) as Hi.
  pose proof (reachable_mbooks _ Hw) as Hb.
  split; [|apply (w_fee w Hi)]. unfold getMarketplaceStats.
  rewrite <- (m_created w Hb), <- (m_sold w Hb), <- (m_volume w Hb).
  reflexivity.
Qed.

Lemma marketplace_stats_match_log_witness :
  getMarketplaceStats with_two_listings = (2, 1000, 1, 25).
Proof.
  destruct (marketplace_stats_match_log with_two_listings
              with_two_listings_reachable) as [Hstats _].
  rewrite Hstats. by vm_compute.
Defined.

(** X23. Every sale is in exactly two histories.  In every reachable state
    the trade histories together hold twice [totalTrades] entries, and
    every trade in an account's history has that account as its buyer or
    its seller, a buyer other than the seller, and a positive amount. *)
Theorem trade_histories_exact w :
  reachable w ->
  trade_entries w = 2 * totalTrades (store w) /\
  forall a t,
    t ∈ getUserTrades w a ->
    (Trade.buyer t = a \/ Trade.seller t = a) /\
    Trade.buyer t ≠ Trade.seller t /\ 0 < Trade.amount t.
Proof.
  intros Hw. pose proof (reachable_mbooks _ Hw) as Hb.
  split; [apply (m_entries w Hb) | apply (m_trades w Hb)].
Qed.

Lemma trade_histories_exact_witness :
  trade_entries after_sale = 2 /\
  length (getUserTrades after_sale 3) = 1%nat /\
  length (getUserTrades after_sale 2) = 1%nat.
Proof.
  destruct (trade_histories_exact after_sale after_sale_reachable)
    as [Hent _].
  split; [rewrite Hent; by vm_compute|]. split; by vm_compute.
Defined.

(** X24. The per-user lists of listings are exact.  In every reachable
    state no list holds an id twice, and a listing id is in an account's
    list exactly when the listing was created and that account is its
    seller. *)
Theorem user_listings_exact w a :
  reachable w ->
  NoDup (getUserListings w a) /\
  forall id,
    id ∈ getUserListings w a <->
    0 <= id < nextListingId (store w) /\ Listing.seller (listing w id) = a.
Proof.
  intros Hw. pose proof (reachable_mbooks _ Hw) as Hb.
  split; [apply (m_lists_nodup w Hb) | intros id; apply (m_lists w Hb)].
Qed.

Lemma user_listings_exact_witness :
  getUserListings with_two_listings 2 = [0; 1] /\
  NoDup (getUserListings with_two_listings 2) /\
  (1 ∈ getUserListings with_two_listings 2 <->
   0 <= 1 < nextListingId (store with_two_listings) /\
   Listing.seller (listing with_two_listings 1) = 2%N).
Proof.
  destruct (user_listings_exact with_two_listings 2
              with_two_listings_reachable) as [Hnd Hin].
  split; [by vm_compute|]. split; [exact Hnd | apply Hin].
Defined.

(** X25. The marketplace is solvent in credits.  In every reachable state
    of the marketplace and its ledger, the marketplace's own ledger
    balance covers the amounts of all its listings together, and it has
    given no account an allowance over that balance. *)
Theorem escrow_covers_listings w :
  reachable w ->
  listed w <= Token.balanceOf (carbonToken w) (this w) /\
  forall spender, Token.allowance (carbonToken w) (this w) spender = 0.
Proof.
  intros Hw. pose proof (reachable_winv _ Hw) as Hi.
  split; [apply (w_escrow w Hi) | apply (w_noallow w Hi)].
Qed.

Lemma escrow_covers_listings_witness :
  listed with_two_listings = 300 /\
  listed with_two_listings <=
    Token.balanceOf (carbonToken with_two_listings) (this with_two_listings).
Proof.
  destruct (escrow_covers_listings with_two_listings
              with_two_listings_reachable) as [Hesc _].
  split; [by vm_compute | exact Hesc].
Defined.

(** *** Creating a listing *)

Lemma createListing_ok e amount price creditId pn w :
  winv w -> valid_call e (CreateListing amount price creditId pn) w = true ->
  0 < amount -> 0 < price ->
  amount <= Token.balanceOf (carbonToken w) (msg_sender e) ->
  amount <= Token.allowance (carbonToken w) (msg_sender e) (this w) ->
  nextListingId (store w) + 1 <= MAX_UINT256 ->
  exists w',
    createListing e amount price creditId pn w =
      Ok (nextListingId (store w), w') /\
    listings (store w') =
      <[nextListingId (store w) :=
          {| Listing.seller := msg_sender e; Listing.amount := amount;
             Listing.pricePerCredit := price; Listing.isActive := true;
             Listing.createdAt := block_timestamp e;
             Listing.creditId := creditId; Listing.projectName := pn |}]>
        (listings (store w)) /\
    userListings (store w') =
      <[msg_sender e :=
          getUserListings w (msg_sender e) ++ [nextListingId (store w)]]>
        (userListings (store w)) /\
    (forall a,
       Token.balanceOf (carbonToken w') a =
       Token.balanceOf (carbonToken w) a
       - (if decide (a = msg_sender e) then amount else 0)
       + (if decide (a = this w) then amount else 0)) /\
    nextListingId (store w') = nextListingId (store w) + 1 /\
    balance w' = balance w /\ this w' = this w.
Proof.
  intros Hw Hv Ha Hp Hbal Hall Hroom.
  pose proof Hw as [Htok Hself Hunl Hids Hamt Hesc Hnoal Hsell Hprice Hfee
                    Hb Hvol].
  unfold valid_call in Hv. guards.
  destruct (TokenMore.transferFrom_succeeds
              {| msg_sender := this w; msg_value := 0;
                 block_timestamp := block_timestamp e;
                 accepts := accepts e |}
              (msg_sender e) (this w) amount (carbonToken w))
    as [t' Ht']; [exact Htok|lia|exact Hself|assumption|exact Hself|
                  exact Hbal|exact Hall|].
  unfold getUserListings.
  destruct (createListing e amount price creditId pn w) as [[r w']|err] eqn:Hex;
    mk_split Hex; guards; try congruence; try lia.
  injection Hex as <- <-. eexists. split; [reflexivity|].
  eapply TokenProofs.transferFrom_ok in T
    as (_ & Hs' & Hfrom & Hto & Hle & Hbalf & Hallf); [|assumption..].
  mk_simpl_in Hbalf. mk_simpl. repeat split. exact Hbalf.
Qed.

(** X26. Listing credits.  In every reachable state a caller who lists a
    positive amount at a positive price, holds that many credits and has
    approved the marketplace for them is given the next listing id,
    provided that counter has room.  The credits move from the caller to
    the marketplace, the listing is stored as passed in and active, its id
    is appended to the caller's list, and no other listing is touched. *)
Theorem createListing_lists e amount price creditId pn w :
  reachable w -> valid_call e (CreateListing amount price creditId pn) w = true ->
  0 < amount -> 0 < price ->
  amount <= Token.balanceOf (carbonToken w) (msg_sender e) ->
  amount <= Token.allowance (carbonToken w) (msg_sender e) (this w) ->
  nextListingId (store w) + 1 <= MAX_UINT256 ->
  exists w',
    createListing e amount price creditId pn w =
      Ok (nextListingId (store w), w') /\
    listing w' (nextListingId (store w)) =
      {| Listing.seller := msg_sender e; Listing.amount := amount;
         Listing.pricePerCredit := price; Listing.isActive := true;
         Listing.createdAt := block_timestamp e;
         Listing.creditId := creditId; Listing.projectName := pn |} /\
    (forall id, id ≠ nextListingId (store w) -> listing w' id = listing w id) /\
    getUserListings w' (msg_sender e) =
      getUserListings w (msg_sender e) ++ [nextListingId (store w)] /\
    Token.balanceOf (carbonToken w') (msg_sender e) =
      Token.balanceOf (carbonToken w) (msg_sender e) - amount /\
    Token.balanceOf (carbonToken w') (this w) =
      Token.balanceOf (carbonToken w) (this w) + amount /\
    listed w' = listed w + amount.
Proof.
  intros Hw Hv Ha Hp Hbal Hall Hroom.
  pose proof (reachable_winv _ Hw) as Hi.
  destruct (createListing_ok e amount price creditId pn w Hi Hv Ha Hp Hbal
              Hall Hroom)
    as (w' & Hex & Hl & Hul & Hb & Hn & _ & _).
  assert (msg_sender e ≠ this w) as Hne.
  { unfold valid_call in Hv. guards. assumption. }
  exists w'. split; [exact Hex|].
  unfold listing, getUserListings, listed. rewrite Hl, Hul.
  rewrite !lookup_insert_eq. cbn. repeat split.
  - intros id Hid. by rewrite lookup_insert_ne.
  - rewrite Hb. rewrite decide_True, decide_False by done. lia.
  - rewrite Hb. rewrite decide_False, decide_True by done. lia.
  - rewrite listed_insert.
    destruct (listings (store w) !! nextListingId (store w)) as [l|] eqn:Hl0.
    + apply (w_ids w Hi) in Hl0. lia.
    + cbn. lia.
Qed.

Lemma createListing_lists_witness :
  exists w',
    createListing (env_of 3 0 everyone) 200 (5 * 10 ^ 18) 0 "ProjectX"
      (step (env_of 3 0 everyone) (Ledger (Token.Approve 100 200)) after_sale)
    = Ok (1, w') /\
    Token.balanceOf (carbonToken w') 3 = 300 /\
    Listing.amount (listing w' 1) = 200.
Proof.
  set (w := step (env_of 3 0 everyone) (Ledger (Token.Approve 100 200))
                 after_sale).
  assert (reachable w) as Hw
    by (apply reach_step; [exact after_sale_reachable | reflexivity]).
  destruct (createListing_lists (env_of 3 0 everyone) 200 (5 * 10 ^ 18) 0
              "ProjectX" w Hw)
    as (w' & Hex & Hl & _ & _ & Hb & _).
  - reflexivity.
  - lia.
  - lia.
  - by vm_compute.
  - by vm_compute.
  - by vm_compute.
  - exists w'. split; [exact Hex|].
    split; [etransitivity; [exact Hb | by vm_compute]|].
    assert (nextListingId (store w) = 1) as Hn by (by vm_compute).
    rewrite Hn in Hl. rewrite Hl. reflexivity.
Defined.

(** *** The fee *)



(** X28. Splitting a purchase never costs more.  With the price
    computation of [buyCredits], buying [a] and then [b] units at one
    price costs together at most what buying [a + b] at once costs, and
    at most one wei less; the fees of the two parts together do not exceed
    the fee of the whole. *)
Theorem split_purchase_never_dearer {S} (s : S) a b p f :
  0 <= a -> 0 <= b -> 0 <= p -> 0 <= f <= 500 ->
  (a + b) * p <= MAX_UINT256 ->
  exists ta fa sa tb fb sb tab fab sab,
    price_math a p f s = Ok ((ta, fa, sa), s) /\
    price_math b p f s = Ok ((tb, fb, sb), s) /\
    price_math (a + b) p f s = Ok ((tab, fab, sab), s) /\
    ta + tb <= tab <= ta + tb + 1 /\ fa + fb <= fab.
Proof.
  intros Ha Hb Hp Hf Hmax.
  assert (forall x, 0 <= x -> x * p <= MAX_UINT256 ->
            price_math x p f s =
            Ok ((x * p / 10 ^ 18, x * p / 10 ^ 18 * f / 10000,
                 x * p / 10 ^ 18 - x * p / 10 ^ 18 * f / 10000), s))
    as Hmath.
  { intros x Hx Hxm. unfold price_math. sol_unfold.
    assert (0 <= x * p / 10 ^ 18) as Htp by (apply Z.div_pos; [nia|lia]).
    pose proof (Z.mul_div_le (x * p) (10 ^ 18) ltac:(lia)) as Hd.
    pose proof (Z.mul_div_le (x * p / 10 ^ 18 * f) 10000 ltac:(lia)) as Hd'.
    assert (0 <= x * p / 10 ^ 18 * f / 10000)
      by (apply Z.div_pos; [nia|lia]).
    destruct (x * p <=? MAX_UINT256) eqn:G1; [|apply Z.leb_gt in G1; lia].
    destruct (x * p / 10 ^ 18 * f <=? MAX_UINT256) eqn:G2;
      [|apply Z.leb_gt in G2; nia].
    destruct (x * p / 10 ^ 18 * f / 10000 <=? x * p / 10 ^ 18) eqn:G3;
      [reflexivity|apply Z.leb_gt in G3; nia]. }
  do 9 eexists.
  split; [apply Hmath; [lia|nia]|]. split; [apply Hmath; [lia|nia]|].
  split; [apply Hmath; [lia|lia]|].
  assert (0 <= a * p) by nia. assert (0 <= b * p) by nia.
  pose proof (Z.div_mod (a * p) (10 ^ 18) ltac:(lia)) as Ea.
  pose proof (Z.div_mod (b * p) (10 ^ 18) ltac:(lia)) as Eb.
  pose proof (Z.div_mod ((a + b) * p) (10 ^ 18) ltac:(lia)) as Eab.
  pose proof (Z.mod_pos_bound (a * p) (10 ^ 18) ltac:(lia)).
  pose proof (Z.mod_pos_bound (b * p) (10 ^ 18) ltac:(lia)).
  pose proof (Z.mod_pos_bound ((a + b) * p) (10 ^ 18) ltac:(lia)).
  assert (a * p / 10 ^ 18 + b * p / 10 ^ 18 <= (a + b) * p / 10 ^ 18
          <= a * p / 10 ^ 18 + b * p / 10 ^ 18 + 1) as Htp by nia.
  split; [exact Htp|].
  set (ta := a * p / 10 ^ 18) in *. set (tb := b * p / 10 ^ 18) in *.
  set (tab := (a + b) * p / 10 ^ 18) in *.
  assert (0 <= ta) by (apply Z.div_pos; lia).
  assert (0 <= tb) by (apply Z.div_pos; lia).
  pose proof (Z.div_mod (ta * f) 10000 ltac:(lia)) as Fa.
  pose proof (Z.div_mod (tb * f) 10000 ltac:(lia)) as Fb.
  pose proof (Z.div_mod (tab * f) 10000 ltac:(lia)) as Fab.
  pose proof (Z.mod_pos_bound (ta * f) 10000 ltac:(lia)).
  pose proof (Z.mod_pos_bound (tb * f) 10000 ltac:(lia)).
  pose proof (Z.mod_pos_bound (tab * f) 10000 ltac:(lia)).
  nia.
Qed.

Lemma split_purchase_never_dearer_witness :
  exists ta fa sa tb fb sb tab fab sab,
    price_math 1 (15 * 10 ^ 17) 25 tt = Ok ((ta, fa, sa), tt) /\
    price_math 1 (15 * 10 ^ 17) 25 tt = Ok ((tb, fb, sb), tt) /\
    price_math 2 (15 * 10 ^ 17) 25 tt = Ok ((tab, fab, sab), tt) /\
    ta + tb <= tab <= ta + tb + 1 /\ fa + fb <= fab.
Proof.
  apply (split_purchase_never_dearer tt 1 1 (15 * 10 ^ 17) 25);
    try lia; by vm_compute.
Defined.

(** *** What creation fixes of a listing *)

Lemma listing_exec e c w u w' id :
  winv w -> valid_call e c w = true -> id < nextListingId (store w) ->
  exec e c w = Ok (u, w') ->
  id < nextListingId (store w') /\
  listing_identity (listing w' id) = listing_identity (listing w id) /\
  Listing.amount (listing w' id) <= Listing.amount (listing w id).
Proof.
  intros [Htok Hself Hunl Hids Hamt Hesc Hnoal Hsell Hprice Hfee Hbal Hvol]
    Hv Hid Hex.
  unfold valid_call in Hv. unfold listing in *.
  destruct c; mk_split Hex; injection Hex as <- <-; guards;
    unfold is_uint256 in *.
  all: try match goal with
    | Ha : Listing.isActive (default Listing.empty (?m !! ?i)) = true |- _ =>
        let L := fresh "L" in let HL := fresh "HL" in
        destruct (m !! i) as [L|] eqn:HL; [|discriminate Ha];
        cbn [from_option Datatypes.id] in *;
        pose proof (Hamt i (Listing.amount L)
                      ltac:(rewrite lookup_fmap, HL; reflexivity))
    end.
  all: mk_simpl; rewrite ?insert_insert_eq.
  all: try (split; [lia|]).
  all: try solve [split; [reflexivity|lia]].
  all: rewrite lookup_insert; case_decide; subst; rewrite ?HL; cbn;
    try solve [split; [reflexivity|lia]]; lia.
Qed.

Lemma listing_step e c w id :
  winv w -> valid_call e c w = true -> id < nextListingId (store w) ->
  id < nextListingId (store (step e c w)) /\
  listing_identity (listing (step e c w) id) =
    listing_identity (listing w id) /\
  Listing.amount (listing (step e c w) id) <= Listing.amount (listing w id).
Proof.
  intros Hw Hv Hid. unfold step.
  destruct (transact_cases (exec e c) w) as [(u&w'&Hex&->)|(err&_&->)];
    [eapply listing_exec; eauto | repeat split; done || lia].
Qed.

Lemma listing_run tr w id :
  winv w -> valid_trace tr w -> id < nextListingId (store w) ->
  listing_identity (listing (run tr w) id) = listing_identity (listing w id) /\
  Listing.amount (listing (run tr w) id) <= Listing.amount (listing w id).
Proof.
  revert w. induction tr as [|[e c] tr IH]; intros w Hw Htr Hid;
    [split; done || lia|].
  destruct Htr as [Hv Htr].
  destruct (listing_step e c w id Hw Hv Hid) as (Hid' & Hsame & Hle).
  destruct (IH (step e c w) (winv_step e c w Hw Hv) Htr Hid') as [Hsame' Hle'].
  change (run ((e, c) :: tr) w) with (run tr (step e c w)).
  split; [congruence | lia].
Qed.

(** X29. What creation fixes of a listing stays fixed.  For a listing that
    was created, after any run of transactions: seller, creation time,
    credit id and project name are unchanged, and the amount remaining has
    not grown; a listing that is inactive is not written again at all, so
    no call reactivates or restocks it. *)
Theorem listing_identity_fixed tr w id :
  reachable w -> valid_trace tr w -> 0 <= id < nextListingId (store w) ->
  listing_identity (listing (run tr w) id) = listing_identity (listing w id) /\
  Listing.amount (listing (run tr w) id) <= Listing.amount (listing w id) /\
  (Listing.isActive (listing w id) = false ->
   listing (run tr w) id = listing w id).
Proof.
  intros Hw Htr Hid. pose proof (reachable_winv _ Hw) as Hi.
  pose proof (reachable_mbooks _ Hw) as Hb.
  destruct (listing_run tr w id Hi Htr ltac:(lia)) as [Hsame Hle].
  split; [exact Hsame|]. split; [exact Hle|].
  intros Hoff. pose proof (stored_listing w id Hb Hid) as Hl.
  pose proof (inactive_run tr w id _ Hi Htr Hl Hoff) as Hl'.
  unfold listing at 1. by rewrite Hl'.
Qed.

Lemma listing_identity_fixed_witness :
  Listing.seller (listing with_two_listings 0) = 2%N /\
  Listing.amount (listing with_two_listings 0) <=
    Listing.amount (listing after_sale 0).
Proof.
  destruct (listing_identity_fixed second_listing_trace after_sale 0
              after_sale_reachable second_listing_trace_valid)
    as (Hsame & Hle & _); [by vm_compute|].
  split; [|exact Hle].
  apply (f_equal (fun d => d.1.1.1)) in Hsame. exact Hsame.
Defined.
End MarketMore.

